(** * MuseumASTGraph: the graph viewer's parser, colour classifier,
      selection highlighting, fancy-mode set-up, drag protocol and view
      transform, with the state of the application shell and the
      statistics of the sidebar

    A shallow embedding of [src/components/GraphViewer.tsx], of the
    handlers of [src/App.tsx] and of the computed data of
    [src/components/Sidebar.tsx].  What d3 does on behalf of the viewer
    (zoom, drag, link force, transitions, selections) is written out
    where the viewer depends on it.

    Conventions of the embedding:
    - a JavaScript string is the list of its UTF-16 code units ([jsstring]);
    - the integer arithmetic of the colour hash is carried out in [Z], with
      the 32-bit wrap of [<<] written out ([toInt32]);
    - the coordinates of nodes are JavaScript numbers, IEEE 754 binary64
      values: they are primitive floats, and every operation on them
      rounds as the processor does ([Num]);
    - the view transform of d3-zoom and the geometry the browser reports
      are idealised as exact rationals ([Q]); rounding is not represented
      there;
    - [undefined] / [null] are [None];
    - an operation that can raise returns [result]. *)

From Stdlib Require Import ZArith QArith Qround List String Ascii Bool Lia Lqa.
From Stdlib Require Floats.
From stdpp Require Import base gmap list.
Import ListNotations.

Local Open Scope Z_scope.

(** ** JavaScript values *)

Module JS.

(** A string is its sequence of UTF-16 code units. *)
Definition jsstring := list N.

Definition wf_unit (c : N) : Prop := (c < 65536)%N.
Definition wf_string (s : jsstring) : Prop := Forall wf_unit s.

(** Literals: the code units of an ASCII/Latin-1 text. *)
Definition str (s : string) : jsstring :=
  map N_of_ascii (list_ascii_of_string s).

(** [s.charCodeAt(i)] for [i] in range is the [i]-th code unit. *)
Definition charCode (c : N) : Z := Z.of_N c.

(** Truthiness of a possibly absent string: [!type] is true for
    [undefined], [null] and the empty string. *)
Definition truthy (s : option jsstring) : bool :=
  match s with
  | None => false
  | Some [] => false
  | Some (_ :: _) => true
  end.

(** [s || ''] *)
Definition orEmpty (s : option jsstring) : jsstring :=
  match s with
  | Some s => s
  | None => []
  end.

(** ToInt32: reduction modulo 2^32 into [-2^31, 2^31). *)
Definition toInt32 (z : Z) : Z := (z + 2 ^ 31) mod 2 ^ 32 - 2 ^ 31.

(** [x << n] on numbers holding integers. *)
Definition shl (x n : Z) : Z := toInt32 (Z.shiftl (toInt32 x) (n mod 32)).

(** Outcome of code that may raise. *)
Inductive result (A : Type) : Type :=
| Ok (a : A)
| Throw (msg : string).
Arguments Ok {A} a.
Arguments Throw {A} msg.

Definition bind {A B} (r : result A) (k : A -> result B) : result B :=
  match r with
  | Ok a => k a
  | Throw m => Throw m
  end.

(** [String.prototype.trim]: the code units of WhiteSpace and
    LineTerminator. *)
Definition isWhiteSpace (c : N) : bool :=
  existsb (N.eqb c)
    [9; 10; 11; 12; 13; 32; 160; 5760; 8192; 8193; 8194; 8195; 8196; 8197;
     8198; 8199; 8200; 8201; 8202; 8232; 8233; 8239; 8287; 12288; 65279]%N.

Fixpoint trimStart (s : jsstring) : jsstring :=
  match s with
  | [] => []
  | c :: s' => if isWhiteSpace c then trimStart s' else s
  end.

Definition trim (s : jsstring) : jsstring :=
  rev (trimStart (rev (trimStart s))).

End JS.

Import JS.

(** ** Colour classifier ([TYPE_COLORS], [getTypeColor]) *)

Module Color.

Definition color := string.

Definition TYPE_COLORS : list color :=
  [ "#ef4444"; "#f97316"; "#84cc16"; "#10b981"; "#06b6d4";
    "#3b82f6"; "#8b5cf6"; "#d946ef"; "#f43f5e"; "#6366f1" ]%string.

(** The colour of an untyped edge. *)
Definition UNTYPED : color := "#94a3b8"%string.

(** One round of the loop body:
    [hash = type.charCodeAt(i) + ((hash << 5) - hash)].
    Only [hash << 5] is reduced to 32 bits; the subtraction and the
    addition are ordinary number arithmetic. *)
Definition hashStep (hash : Z) (c : N) : Z :=
  charCode c + (shl hash 5 - hash).

(** The [for] loop over the code units, starting from [hash = 0]. *)
Definition typeHash (type : jsstring) : Z := fold_left hashStep type 0.

(** [Math.abs(hash) % TYPE_COLORS.length] *)
Definition colorIndex (hash : Z) : Z :=
  Z.abs hash mod Z.of_nat (length TYPE_COLORS).

(** [getTypeColor]; the result is [None] when the array access
    [TYPE_COLORS[index]] would yield [undefined]. *)
Definition getTypeColor (type : option jsstring) : option color :=
  if negb (truthy type) then Some UNTYPED
  else nth_error TYPE_COLORS (Z.to_nat (colorIndex (typeHash (orEmpty type)))).

End Color.

(** ** JavaScript numbers *)

Module Num.

Import PrimFloat.

(** A number is an IEEE 754 binary64 value.  [+], [-], [*], [/] and [<]
    are the primitive operations on doubles (round to nearest, ties to
    even; a comparison with NaN is false). *)
Definition number : Set := float.

(** [x || 0] on a possibly absent number: [0], [-0], NaN and
    [undefined] are falsy. *)
Definition orZero (x : option number) : number :=
  match x with
  | Some v => if is_zero v || is_nan v then 0%float else v
  | None => 0%float
  end.

(** [parseFloat(attr || 'd')]: the markup carries, for a present and
    non-empty attribute, the value [parseFloat] reads from it (NaN when
    it reads no number); [d] is what it reads from the default. *)
Definition parseFloatOr (attr : option number) (d : number) : number :=
  match attr with
  | Some v => v
  | None => d
  end.

End Num.

Import Num.

(** ** Data model ([types.ts]) *)

Inductive ShapeType := ellipse | polygon.

(** A graph node.  [shapeData] (the radii of an ellipse, or the points of
    a polygon rewritten relative to the centre and the largest distance
    from it) is not represented: no function embedded here reads it. *)
Record GraphNode := {
  n_id : jsstring;
  n_name : jsstring;
  n_color : option jsstring;
  n_fillcolor : option jsstring;
  n_x : option number;
  n_y : option number;
  n_shapeType : ShapeType;
}.

Record GraphEdge := {
  e_id : jsstring;
  e_source : jsstring;
  e_target : jsstring;
  e_label : option jsstring;
  e_displayColor : option Color.color;
}.

Record GraphData := {
  gd_nodes : list GraphNode;
  gd_edges : list GraphEdge;
}.

(** ** Diagram markup, as the parser queries it *)

Module Markup.

(** [<text x= y=>content</text>] *)
Record TextEl := {
  t_x : option number;
  t_y : option number;
  t_content : jsstring;
}.

(** [<ellipse>] or [<circle>]: the attributes read for the centre and
    the paint. *)
Record EllipseEl := {
  el_cx : option number;
  el_cy : option number;
  el_fill : option jsstring;
  el_stroke : option jsstring;
}.

(** [<polygon>] and [<path>]: the attributes read for the paint. *)
Record PaintEl := {
  p_fill : option jsstring;
  p_stroke : option jsstring;
}.

(** A group of class [node]: the first [title], [text],
    [ellipse, circle], [polygon] and [path] below it, when present. *)
Record NodeGroup := {
  ng_title : option jsstring;
  ng_text : option TextEl;
  ng_ellipse : option EllipseEl;
  ng_polygon : option PaintEl;
  ng_path : option PaintEl;
}.

(** A group of class [edge]: its [title] and first [text]. *)
Record EdgeGroup := {
  eg_title : option jsstring;
  eg_text : option TextEl;
}.

(** The parsed document: [svg]'s [viewBox], [g.graph]'s [transform], and
    the groups in document order. *)
Record Document := {
  doc_viewBox : option jsstring;
  doc_transform : option jsstring;
  doc_nodes : list NodeGroup;
  doc_edges : list EdgeGroup;
}.

End Markup.

Import Markup.

(** ** Diagram parser (the parse effect of [GraphViewer]) *)

Module Parser.

Import PrimFloat.

Record ParsedLayout := {
  nodes : list GraphNode;
  edges : list GraphEdge;
  viewBox : jsstring;
  transform : jsstring;
}.

Definition DASH : N := 45.
Definition GT : N := 62.

(** The run of ['-'] at the head of [s], and what follows it. *)
Fixpoint dashes (s : jsstring) : nat * jsstring :=
  match s with
  | c :: s' =>
      if N.eqb c DASH then let '(k, r) := dashes s' in (S k, r) else (O, s)
  | [] => (O, [])
  end.

(** A match of the regular expression [/-+>|--/] anchored at the head of
    [s]: the length of the match.  The first alternative is tried first:
    the greedy [-+] takes the whole run of dashes and needs ['>'] next
    (giving back dashes cannot help, a dash would face [>]); failing
    that, [--] takes two dashes. *)
Definition matchSeparator (s : jsstring) : option nat :=
  let '(n, r) := dashes s in
  let gt_next := match r with c :: _ => N.eqb c GT | [] => false end in
  if Nat.leb 1 n && gt_next then Some (S n)
  else if Nat.leb 2 n then Some 2%nat
  else None.

(** [title.split(/-+>|--/)]: scan from the left; at a position where the
    expression matches, close the current piece and resume after the
    match; elsewhere move on by one code unit.  [skip] counts the code
    units of the current match still to be passed over, [cur] holds the
    piece under construction, reversed. *)
Fixpoint splitFrom (skip : nat) (cur : jsstring) (s : jsstring)
  : list jsstring :=
  match s with
  | [] => [rev cur]
  | c :: s' =>
      match skip with
      | S k => splitFrom k cur s'
      | O =>
          match matchSeparator s with
          | Some m => rev cur :: splitFrom (Nat.pred m) [] s'
          | None => splitFrom O (c :: cur) s'
          end
      end
  end.

Definition splitTitle (title : jsstring) : list jsstring :=
  splitFrom O [] title.

(** [attr || undefined] *)
Definition orUndefined (a : option jsstring) : option jsstring :=
  if truthy a then a else None.

(** The body of [doc.querySelectorAll('.node').forEach]: the node pushed
    for one group, without its [shapeData]. *)
Definition parseNode (el : NodeGroup) : GraphNode :=
  let title := orEmpty (ng_title el) in
  let '(x, y) :=
    match ng_text el, ng_ellipse el with
    | Some textEl, _ =>
        (parseFloatOr (t_x textEl) 0%float, parseFloatOr (t_y textEl) 0%float)
    | None, Some ellipseEl =>
        (parseFloatOr (el_cx ellipseEl) 0%float,
         parseFloatOr (el_cy ellipseEl) 0%float)
    | None, None => (0%float, 0%float)
    end in
  let paint :=
    match ng_polygon el, ng_ellipse el, ng_path el with
    | Some p, _, _ => (p_fill p, p_stroke p)
    | None, Some e, _ => (el_fill e, el_stroke e)
    | None, None, Some p => (p_fill p, p_stroke p)
    | None, None, None => (None, None)
    end in
  let shapeType :=
    match ng_polygon el with
    | Some _ => polygon
    | None => ellipse
    end in
  {| n_id := title;
     n_name := title;
     n_color := orUndefined (snd paint);
     n_fillcolor := orUndefined (fst paint);
     n_x := Some x;
     n_y := Some y;
     n_shapeType := shapeType |}.

(** [textEl ? textEl.textContent?.trim() : undefined] *)
Definition edgeLabel (el : EdgeGroup) : option jsstring :=
  match eg_text el with
  | Some textEl => Some (trim (t_content textEl))
  | None => None
  end.

(** The body of [doc.querySelectorAll('.edge').forEach]: the edge pushed
    for one group, if any. *)
Definition parseEdge (el : EdgeGroup) : option GraphEdge :=
  let title := orEmpty (eg_title el) in
  let parts := splitTitle title in
  let label := edgeLabel el in
  let displayColor := Color.getTypeColor (Some (orEmpty label)) in
  match parts with
  | source :: target :: _ =>
      Some {| e_id := title;
              e_source := source;
              e_target := target;
              e_label := label;
              e_displayColor := displayColor |}
  | _ => None
  end.

(** The edges pushed by the whole [forEach], in document order. *)
Fixpoint parseEdges (els : list EdgeGroup) : list GraphEdge :=
  match els with
  | [] => []
  | el :: els' =>
      match parseEdge el with
      | Some e => e :: parseEdges els'
      | None => parseEdges els'
      end
  end.

(** [attr || d] on a string attribute *)
Definition orDefault (a : option jsstring) (d : jsstring) : jsstring :=
  if truthy a then orEmpty a else d.

(** The layout computed from a non-empty [svgContent]. *)
Definition parseLayout (doc : Document) : ParsedLayout :=
  {| nodes := map parseNode (doc_nodes doc);
     edges := parseEdges (doc_edges doc);
     viewBox := orDefault (doc_viewBox doc) (str "0 0 100 100");
     transform := orDefault (doc_transform doc) [] |}.

(** What [onGraphDataParsed] receives. *)
Definition graphData (l : ParsedLayout) : GraphData :=
  {| gd_nodes := nodes l; gd_edges := edges l |}.

End Parser.

(** ** Fancy mode set-up (the simulation nodes and links of the render
       effect) *)

Module Fancy.

Import Parser PrimFloat.

(** A simulation node: the spread of the graph node ([sn_node]) with
    [x], [y] overridden and the pin and origin added.  A pin of [None]
    is [null]. *)
Record SimNode := {
  sn_node : GraphNode;
  sn_x : number;
  sn_y : number;
  sn_fx : option number;
  sn_fy : option number;
  sn_originX : number;
  sn_originY : number;
}.

Record BBox := {
  minX : number;
  maxX : number;
  minY : number;
  maxY : number;
}.

Definition emptyBBox : BBox :=
  {| minX := infinity; maxX := neg_infinity;
     minY := infinity; maxY := neg_infinity |}.

(** The body of [layoutData.nodes.forEach] that widens the box. *)
Definition bboxStep (b : BBox) (n : GraphNode) : BBox :=
  let x := orZero (n_x n) in
  let y := orZero (n_y n) in
  {| minX := if (x <? minX b)%float then x else minX b;
     maxX := if (maxX b <? x)%float then x else maxX b;
     minY := if (y <? minY b)%float then y else minY b;
     maxY := if (maxY b <? y)%float then y else maxY b |}.

Definition bbox (ns : list GraphNode) : BBox := fold_left bboxStep ns emptyBBox.

Definition centerX (b : BBox) : number := ((minX b + maxX b) / 2)%float.
Definition centerY (b : BBox) : number := ((minY b + maxY b) / 2)%float.

Definition FANCY_SCALE_FACTOR : number := 0.5%float.

(** [center + (original - center) * FANCY_SCALE_FACTOR] *)
Definition scaled (center original : number) : number :=
  (center + (original - center) * FANCY_SCALE_FACTOR)%float.

Definition simNode (cx cy : number) (n : GraphNode) : SimNode :=
  let originalX := orZero (n_x n) in
  let originalY := orZero (n_y n) in
  let scaledX := scaled cx originalX in
  let scaledY := scaled cy originalY in
  {| sn_node := n;
     sn_x := scaledX;
     sn_y := scaledY;
     sn_fx := Some scaledX;
     sn_fy := Some scaledY;
     sn_originX := scaledX;
     sn_originY := scaledY |}.

Definition simNodes (layoutData : ParsedLayout) : list SimNode :=
  let b := bbox (nodes layoutData) in
  map (simNode (centerX b) (centerY b)) (nodes layoutData).

(** A link after d3's link force resolved its ends to node objects. *)
Record Link := {
  l_edge : GraphEdge;
  l_source : nat;
  l_target : nat;
}.

(** [new Map(nodes.map(d => [d.id, d]))]: a later node replaces an
    earlier one of the same id. *)
Fixpoint indexNodes (i : nat) (ns : list SimNode) (m : gmap jsstring nat)
  : gmap jsstring nat :=
  match ns with
  | [] => m
  | d :: ns' => indexNodes (S i) ns' (<[n_id (sn_node d) := i]> m)
  end.

Definition nodeById (ns : list SimNode) : gmap jsstring nat :=
  indexNodes 0 ns ∅.

(** d3's [find(nodeById, nodeId)] *)
Definition find (m : gmap jsstring nat) (nodeId : jsstring) : result nat :=
  match m !! nodeId with
  | Some i => Ok i
  | None => Throw "node not found"
  end.

Definition resolveLink (m : gmap jsstring nat) (e : GraphEdge) : result Link :=
  bind (find m (e_source e)) (fun s =>
  bind (find m (e_target e)) (fun t =>
  Ok {| l_edge := e; l_source := s; l_target := t |})).

(** The initialisation of [d3.forceLink(simLinks).id(d => d.id)], link
    after link. *)
Fixpoint resolveLinks (m : gmap jsstring nat) (es : list GraphEdge)
  : result (list Link) :=
  match es with
  | [] => Ok []
  | e :: es' =>
      bind (resolveLink m e) (fun l =>
      bind (resolveLinks m es') (fun ls => Ok (l :: ls)))
  end.

(** The links of the simulation built for a layout. *)
Definition simLinks (layoutData : ParsedLayout) : result (list Link) :=
  resolveLinks (nodeById (simNodes layoutData)) (edges layoutData).

End Fancy.

(** ** Selection highlighting (the highlighting effect) *)

Module Selection.

Import Parser Fancy.

(** A node element of the mounted svg: a [g.fancy-node] bound to its
    simulation node, or a [g.node] of the diagram's own markup. *)
Inductive NodeElem : Type :=
| FancyNode (d : SimNode)
| StaticNode (g : NodeGroup).

Record NodeStyle := {
  cls_selected : bool;
  cls_connected : bool;
  opacity : option Q;
}.

Record Rendered := {
  r_el : NodeElem;
  r_style : NodeStyle;
}.

Definition plain : NodeStyle :=
  {| cls_selected := false; cls_connected := false; opacity := None |}.

(** The node elements the render effect puts in the svg: in fancy mode
    one [g.fancy-node] per simulation node, in static mode the node
    groups of the mounted markup. *)
Definition nodeElements (isFancyMode : bool) (doc : Document)
    (layoutData : ParsedLayout) : list Rendered :=
  if isFancyMode
  then map (fun d => {| r_el := FancyNode d; r_style := plain |}) (simNodes layoutData)
  else map (fun g => {| r_el := StaticNode g; r_style := plain |}) (doc_nodes doc).

(** [edge.displayColor] is truthy. *)
Definition hasColor (e : GraphEdge) : bool :=
  match e_displayColor e with
  | Some c => negb (String.eqb c "")
  | None => false
  end.

Definition hasTitle (g : EdgeGroup) : bool :=
  match eg_title g with
  | Some _ => true
  | None => false
  end.

(** The colouring of the edges in the basic render: for every edge that
    has a colour the filter reads the title text of every [.edge] group
    of the mounted markup, and d3's [text()] raises on a group without
    title. *)
Definition colorEdges (doc : Document) (layoutData : ParsedLayout)
  : result unit :=
  if existsb hasColor (edges layoutData)
     && negb (forallb hasTitle (doc_edges doc))
  then Throw "TypeError: null has no textContent"
  else Ok tt.

(** The render effect on a parsed diagram, as far as the node elements
    go.  In fancy mode d3's link force raises when an edge names no
    node; in static mode the colouring of the edges can raise.  An
    effect that raises takes the component down (there is no error
    boundary), and the effects that follow it do not run: there are
    node elements to highlight only when the render effect completed. *)
Definition renderNodes (isFancyMode : bool) (doc : Document)
    (layoutData : ParsedLayout) : result (list Rendered) :=
  bind (if isFancyMode
        then bind (simLinks layoutData) (fun _ => Ok tt)
        else colorEdges doc layoutData)
    (fun _ => Ok (nodeElements isFancyMode doc layoutData)).

(** [svg.selectAll(nodeSelector)]: [.fancy-node] or [.node]. *)
Definition matchesSelector (isFancyMode : bool) (el : NodeElem) : bool :=
  match el, isFancyMode with
  | FancyNode _, true | StaticNode _, false => true
  | _, _ => false
  end.

(** [d3.select(this).select('title').text()]: the text of the element's
    title child; d3 reads [textContent] of the selection's first node and
    raises a TypeError when there is none.  A fancy node carries a title
    holding [d.name]. *)
Definition titleText (el : NodeElem) : result jsstring :=
  match el with
  | FancyNode d => Ok (n_name (sn_node d))
  | StaticNode g =>
      match ng_title g with
      | Some t => Ok t
      | None => Throw "TypeError: null has no textContent"
      end
  end.

(** [isFancyMode ? d.id : d3.select(this).select('title').text()] *)
Definition elemId (isFancyMode : bool) (el : NodeElem) : result jsstring :=
  if isFancyMode then
    match el with
    | FancyNode d => Ok (n_id (sn_node d))
    | StaticNode _ => Throw "TypeError: d is undefined"
    end
  else titleText el.

(** The [edges.forEach] that fills [connectedNodes]. *)
Definition connectStep (selectedNodeId : jsstring) (cn : gset jsstring)
    (e : GraphEdge) : gset jsstring :=
  let cn1 := if decide (e_source e = selectedNodeId)
             then cn ∪ {[ e_target e ]} else cn in
  if decide (e_target e = selectedNodeId)
  then cn1 ∪ {[ e_source e ]} else cn1.

Definition connectedNodes (selectedNodeId : jsstring) (es : list GraphEdge)
  : gset jsstring :=
  fold_left (connectStep selectedNodeId) es ∅.

(** Apply [f] to the style of every element the selector and the filter
    [p] keep; the filter may raise. *)
Fixpoint restyle (isFancyMode : bool) (p : NodeElem -> result bool)
    (f : NodeStyle -> NodeStyle) (rs : list Rendered) : result (list Rendered) :=
  match rs with
  | [] => Ok []
  | r :: rs' =>
      bind (if matchesSelector isFancyMode (r_el r) then p (r_el r) else Ok false)
        (fun hit =>
           bind (restyle isFancyMode p f rs')
             (fun out =>
                Ok ((if hit then {| r_el := r_el r; r_style := f (r_style r) |}
                     else r) :: out)))
  end.

Definition always (_ : NodeElem) : result bool := Ok true.

(** The node part of the highlighting effect, on the node elements of the
    mounted svg.  (The edge part is [EdgeHighlight.highlightEdges].) *)
Definition highlight (isFancyMode : bool) (selectedNodeId : option jsstring)
    (layoutData : option ParsedLayout) (rs : list Rendered)
  : result (list Rendered) :=
  (* clear styles *)
  bind (restyle isFancyMode always (fun _ => plain) rs) (fun rs0 =>
  if truthy selectedNodeId then
    let sel := orEmpty selectedNodeId in
    (* dim everything first *)
    bind (restyle isFancyMode always
            (fun s => {| cls_selected := cls_selected s;
                         cls_connected := cls_connected s;
                         opacity := Some 0.1%Q |}) rs0) (fun rs1 =>
    (* highlight the selected node *)
    bind (restyle isFancyMode
            (fun el => bind (elemId isFancyMode el)
                         (fun id => Ok (bool_decide (id = sel))))
            (fun s => {| cls_selected := true;
                         cls_connected := cls_connected s;
                         opacity := Some 1%Q |}) rs1) (fun rs2 =>
    (* highlight connected *)
    let es := match layoutData with Some l => edges l | None => [] end in
    let cn := connectedNodes sel es in
    restyle isFancyMode
      (fun el => bind (elemId isFancyMode el)
                   (fun id => Ok (bool_decide (id ∈ cn))))
      (fun s => {| cls_selected := cls_selected s;
                   cls_connected := true;
                   opacity := Some 1%Q |}) rs2))
  else Ok rs0).

End Selection.

(** ** View transform ([performZoom], [setupZoom], [handleWheel] and the
       imperative handle), on top of d3-zoom

    An animated transition is represented by the transform it ends on,
    reckoned from the transform the view shows when the transition
    starts ([zoomT]).  An operation issued while another transition is
    still running starts from the transform reached by then; the
    intermediate transforms of a transition are not represented. *)

Module Zoom.

Import Parser Fancy Selection.

Local Open Scope Q_scope.

(** [Math.max] and [Math.min] on finite numbers. *)
Definition qmax (a b : Q) : Q := if Qlt_le_dec a b then b else a.
Definition qmin (a b : Q) : Q := if Qlt_le_dec b a then b else a.

(** d3's [ZoomTransform]. *)
Record Transform := {
  k : Q;
  x : Q;
  y : Q;
}.

Definition zoomIdentity : Transform := {| k := 1; x := 0; y := 0 |}.

(** The zoom behaviour built by [setupZoom]. *)
Record ZoomBehavior := {
  scaleExtent : Q * Q;
}.

Record Rect := {
  rc_x : Q;
  rc_y : Q;
  rc_width : Q;
  rc_height : Q;
}.

(** An [SVGMatrix] as [getScreenCTM] returns it. *)
Record Matrix := {
  m_a : Q; m_b : Q; m_c : Q; m_d : Q; m_e : Q; m_f : Q;
}.

(** A node element of the mounted svg with the geometry the browser
    reports for it. *)
Record SvgNode := {
  sv_el : NodeElem;
  sv_bbox : Rect;
  sv_ctm : option Matrix;
}.

(** The mounted [svg] element: its client size, its bounding client
    rectangle, its node elements and the transform d3 keeps on it
    ([__zoom]). *)
Record SvgEl := {
  clientWidth : Q;
  clientHeight : Q;
  clientRect : Rect;
  svg_nodes : list SvgNode;
  zoomT : Transform;
}.

(** The component's refs and props that the view transform reads.
    [exports] lists the canvas sizes of the images handed to the
    browser for download. *)
Record Viewer := {
  svgRef : option SvgEl;
  zoomBehaviorRef : option ZoomBehavior;
  savedTransform : Transform;
  selectedNodeId : option jsstring;
  isFancyMode : bool;
  exports : list (Q * Q);
}.

Definition initial : Viewer :=
  {| svgRef := None;
     zoomBehaviorRef := None;
     savedTransform := zoomIdentity;
     selectedNodeId := None;
     isFancyMode := false;
     exports := [] |}.

(** *** d3-zoom *)

(** [Math.max(scaleExtent[0], Math.min(scaleExtent[1], k))] *)
Definition clampScale (zb : ZoomBehavior) (k1 : Q) : Q :=
  qmax (fst (scaleExtent zb)) (qmin (snd (scaleExtent zb)) k1).

(** [scale(transform, k)]: the new scale is clamped to the extent. *)
Definition scaleT (zb : ZoomBehavior) (t : Transform) (k1 : Q) : Transform :=
  let k1 := clampScale zb k1 in
  if Qeq_bool k1 (k t) then t else {| k := k1; x := x t; y := y t |}.

(** [transform.invert(p)] *)
Definition invert (t : Transform) (p : Q * Q) : Q * Q :=
  ((fst p - x t) / k t, (snd p - y t) / k t).

(** [translate(transform, p0, p1)] *)
Definition translateT (t : Transform) (p0 p1 : Q * Q) : Transform :=
  {| k := k t; x := fst p0 - fst p1 * k t; y := snd p0 - snd p1 * k t |}.

(** [zoom.scaleBy(selection, k, p)]: the transform reached when the
    transition ends (the translate extent is unbounded, so [constrain]
    changes nothing). *)
Definition scaleBy (zb : ZoomBehavior) (t0 : Transform) (factor : Q) (p : Q * Q)
  : Transform :=
  translateT (scaleT zb t0 (k t0 * factor)) p (invert t0 p).

(** [zoom.translateBy(selection, dx, dy)] *)
Definition translateBy (t0 : Transform) (dx dy : Q) : Transform :=
  {| k := k t0; x := x t0 + k t0 * dx; y := y t0 + k t0 * dy |}.

(** The ['zoom'] listener of [setupZoom]: the group receives the
    transform and [savedTransform] remembers it. *)
Definition emitZoom (st : Viewer) (svg : SvgEl) (t : Transform) : Viewer :=
  {| svgRef := Some {| clientWidth := clientWidth svg;
                       clientHeight := clientHeight svg;
                       clientRect := clientRect svg;
                       svg_nodes := svg_nodes svg;
                       zoomT := t |};
     zoomBehaviorRef := zoomBehaviorRef st;
     savedTransform := t;
     selectedNodeId := selectedNodeId st;
     isFancyMode := isFancyMode st;
     exports := exports st |}.

Record WheelEvent := {
  deltaY : Q;
  deltaMode : N;
  ctrlKey : bool;
  pointer : Q * Q;
}.

(** d3's default [wheelDelta]. *)
Definition wheelDelta (ev : WheelEvent) : Q :=
  - deltaY ev
  * (if N.eqb (deltaMode ev) 1 then 0.05
     else if N.eqb (deltaMode ev) 0 then 0.002 else 1)
  * (if ctrlKey ev then 10 else 1).

(** *** The component *)

Inductive Direction := zoom_in | zoom_out.

(** The filter installed by [setupZoom]:
    [event.type === 'wheel' ? !selectedNodeIdRef.current : !event.button]. *)
Definition zoomFilter (isWheel : bool) (button : Z) (sel : option jsstring)
  : bool :=
  if isWheel then negb (truthy sel) else Z.eqb button 0.

(** [setupZoom] on a freshly rendered svg: extent [[0.01, 200]], the
    saved transform restored. *)
Definition setupZoom (svg : SvgEl) (st : Viewer) : Viewer :=
  let st' := emitZoom st svg (savedTransform st) in
  {| svgRef := svgRef st';
     zoomBehaviorRef := Some {| scaleExtent := (0.01, 200) |};
     savedTransform := savedTransform st';
     selectedNodeId := selectedNodeId st';
     isFancyMode := isFancyMode st';
     exports := exports st' |}.

(** [selection.filter(p)] followed by a read of its first node; the
    predicate runs on every selected element and may raise. *)
Fixpoint firstMatch (fancy : bool) (p : NodeElem -> result bool)
    (ns : list SvgNode) : result (option SvgNode) :=
  match ns with
  | [] => Ok None
  | n :: ns' =>
      bind (if matchesSelector fancy (sv_el n) then p (sv_el n) else Ok false)
        (fun hit =>
           bind (firstMatch fancy p ns')
             (fun rest => Ok (if hit then Some n else rest)))
  end.

(** The focal point of [performZoom].  In fancy mode the node's
    coordinates are read into [nodeCx], [nodeCy] and [cx], [cy] keep the
    viewport centre; [datum()] on an empty selection raises. *)
Definition focalPoint (st : Viewer) (svg : SvgEl) : result (Q * Q) :=
  let width := clientWidth svg in
  let height := clientHeight svg in
  let center := (width / 2, height / 2) in
  if truthy (selectedNodeId st) then
    let sel := orEmpty (selectedNodeId st) in
    if isFancyMode st then
      bind (firstMatch true
              (fun el => bind (elemId true el)
                           (fun id => Ok (bool_decide (id = sel))))
              (svg_nodes svg))
        (fun hit =>
           match hit with
           | Some _ => Ok center
           | None => Throw "TypeError: null has no __data__"
           end)
    else
      bind (firstMatch false
              (fun el => bind (titleText el)
                           (fun t => Ok (bool_decide (t = sel))))
              (svg_nodes svg))
        (fun hit =>
           match hit with
           | Some nodeEl =>
               match sv_ctm nodeEl with
               | Some matrix =>
                   let bbox := sv_bbox nodeEl in
                   let localCx := rc_x bbox + rc_width bbox / 2 in
                   let localCy := rc_y bbox + rc_height bbox / 2 in
                   let screenX :=
                     m_a matrix * localCx + m_c matrix * localCy + m_e matrix in
                   let screenY :=
                     m_b matrix * localCx + m_d matrix * localCy + m_f matrix in
                   Ok (screenX - rc_x (clientRect svg),
                       screenY - rc_y (clientRect svg))
               | None => Ok center
               end
           | None => Ok center
           end)
  else Ok center.

Definition scaleFactor (direction : Direction) : Q :=
  match direction with
  | zoom_in => 1.3
  | zoom_out => 1 / 1.3
  end.

Definition performZoom (direction : Direction) (st : Viewer) : result Viewer :=
  match svgRef st, zoomBehaviorRef st with
  | Some svg, Some zb =>
      bind (focalPoint st svg)
        (fun c => Ok (emitZoom st svg (scaleBy zb (zoomT svg) (scaleFactor direction) c)))
  | _, _ => Ok st
  end.

Definition zoomIn := performZoom zoom_in.
Definition zoomOut := performZoom zoom_out.

(** [pan]: the transform the 200 ms transition ends on, from the
    transform shown when it starts. *)
Definition pan (dx dy : Q) (st : Viewer) : result Viewer :=
  match svgRef st, zoomBehaviorRef st with
  | Some svg, Some zb => Ok (emitZoom st svg (translateBy (zoomT svg) dx dy))
  | _, _ => Ok st
  end.

Definition resetZoom (st : Viewer) : result Viewer :=
  match svgRef st, zoomBehaviorRef st with
  | Some svg, Some zb => Ok (emitZoom st svg zoomIdentity)
  | _, _ => Ok st
  end.

(** [exportAsPng]: the canvas is twice the svg's client rectangle; the
    image is taken to load. *)
Definition exportAsPng (st : Viewer) : result Viewer :=
  match svgRef st with
  | None => Ok st
  | Some svg =>
      let scale := 2 in
      Ok {| svgRef := svgRef st;
            zoomBehaviorRef := zoomBehaviorRef st;
            savedTransform := savedTransform st;
            selectedNodeId := selectedNodeId st;
            isFancyMode := isFancyMode st;
            exports := (rc_width (clientRect svg) * scale,
                        rc_height (clientRect svg) * scale) :: exports st |}
  end.

(** [handleWheel], the [onWheel] handler of the enclosing [div]. *)
Definition handleWheel (ev : WheelEvent) (st : Viewer) : result Viewer :=
  if truthy (selectedNodeId st) then
    if Qlt_le_dec (deltaY ev) 0 then performZoom zoom_in st
    else performZoom zoom_out st
  else Ok st.

Section Wheel.

(** [Math.pow(2, x)] *)
Variable pow2 : Q -> Q.

(** d3's wheel listener on the svg, outside a running wheel gesture: an
    event the filter rejects, or one that leaves the clamped scale as it
    is, is ignored; otherwise the view is rescaled about the pointer.
    The result tells whether the event was consumed ([noevent]: default
    prevented, propagation stopped). *)
Definition wheeled (ev : WheelEvent) (st : Viewer) : Viewer * bool :=
  match svgRef st, zoomBehaviorRef st with
  | Some svg, Some zb =>
      if zoomFilter true 0 (selectedNodeId st) then
        let t := zoomT svg in
        let k1 := clampScale zb (k t * pow2 (wheelDelta ev)) in
        if Qeq_bool (k t) k1 then (st, false)
        else
          let p := pointer ev in
          (emitZoom st svg (translateT (scaleT zb t k1) p (invert t p)), true)
      else (st, false)
  | _, _ => (st, false)
  end.

(** A wheel event over the viewer: d3's listener on the svg first, then,
    unless it consumed the event, [handleWheel] on the enclosing [div]. *)
Definition wheel (ev : WheelEvent) (st : Viewer) : result Viewer :=
  let '(st', consumed) := wheeled ev st in
  if consumed then Ok st' else handleWheel ev st'.

(** The operations that reach the viewer. *)
Inductive Op : Type :=
| OpZoomIn
| OpZoomOut
| OpPan (dx dy : Q)
| OpResetZoom
| OpExport
| OpWheel (ev : WheelEvent)
| OpRender (fancy : bool) (svg : SvgEl)
| OpSelect (sel : option jsstring).

Definition step (op : Op) (st : Viewer) : result Viewer :=
  match op with
  | OpZoomIn => zoomIn st
  | OpZoomOut => zoomOut st
  | OpPan dx dy => pan dx dy st
  | OpResetZoom => resetZoom st
  | OpExport => exportAsPng st
  | OpWheel ev => wheel ev st
  | OpRender fancy svg =>
      Ok (setupZoom svg
            {| svgRef := svgRef st;
               zoomBehaviorRef := zoomBehaviorRef st;
               savedTransform := savedTransform st;
               selectedNodeId := selectedNodeId st;
               isFancyMode := fancy;
               exports := exports st |})
  | OpSelect sel =>
      Ok {| svgRef := svgRef st;
            zoomBehaviorRef := zoomBehaviorRef st;
            savedTransform := savedTransform st;
            selectedNodeId := sel;
            isFancyMode := isFancyMode st;
            exports := exports st |}
  end.

(** A raised exception leaves the refs as they were. *)
Definition after (op : Op) (st : Viewer) : Viewer :=
  match step op st with
  | Ok st' => st'
  | Throw _ => st
  end.

Definition run (ops : list Op) (st : Viewer) : Viewer :=
  fold_left (fun s op => after op s) ops st.

End Wheel.

(** The scale shown: that of the mounted svg, else the saved one. *)
Definition viewScale (st : Viewer) : Q :=
  match svgRef st with
  | Some svg => k (zoomT svg)
  | None => k (savedTransform st)
  end.

(** The scale lies within the extent set by [setupZoom]. *)
Definition inExtent (q : Q) : Prop := (0.01 <= q <= 200)%Q.

(** The invariant of the viewer: saved and mounted scales lie within the
    extent, and a zoom behaviour, once built, carries that extent. *)
Definition scalesOk (st : Viewer) : Prop :=
  inExtent (k (savedTransform st)) /\
  (forall svg, svgRef st = Some svg -> inExtent (k (zoomT svg))) /\
  (forall zb, zoomBehaviorRef st = Some zb -> scaleExtent zb = (0.01, 200)%Q).

(** A rational stand-in for [Math.pow(2, x)], exact at the integers and
    linear between two consecutive ones. *)
Definition pow2_lin (x : Q) : Q :=
  Qpower 2 (Qfloor x) * (1 + (x - inject_Z (Qfloor x))).

End Zoom.

(** ** Selection state ([handleNodeToggle] of [App]) *)

Module App.

(** The new value of [selectedNodeId] after [handleNodeToggle(nodeName)]
    ran with [selectedNodeId] as the current selection. *)
Definition handleNodeToggle (nodeName selectedNodeId : option jsstring)
  : option jsstring :=
  if decide (nodeName = selectedNodeId) then None else nodeName.

(** [handleNodeToggle] is a new closure at every render of [App], over
    the [selectedNodeId] of that render.  The [Sidebar] calls the
    closure of the latest render.  The click listeners of [GraphViewer]
    are installed by its render effect, whose dependencies are
    [layoutData] and [isFancyMode]: they keep calling the [onNodeClick]
    of the render the effect last ran in, and a change of the selection
    alone does not run the effect again.  [cs_bound] is the
    [selectedNodeId] that closure compares with. *)
Record ClickState := {
  cs_selected : option jsstring;
  cs_bound : option jsstring;
}.

(** The render effect runs (a new layout, or a switch of mode): the
    listeners are bound to the handler of the current render. *)
Definition rendered (selectedNodeId : option jsstring) : ClickState :=
  {| cs_selected := selectedNodeId; cs_bound := selectedNodeId |}.

(** A click the viewer reports: [onNodeClick(id)] on a node,
    [onNodeClick(null)] on the background. *)
Definition viewerClick (nodeName : option jsstring) (st : ClickState)
  : ClickState :=
  {| cs_selected := handleNodeToggle nodeName (cs_bound st);
     cs_bound := cs_bound st |}.

(** [onSelectNode(id)] from the [Sidebar]. *)
Definition sidebarSelect (nodeName : option jsstring) (st : ClickState)
  : ClickState :=
  {| cs_selected := handleNodeToggle nodeName (cs_selected st);
     cs_bound := cs_bound st |}.

End App.

(** ** Vocabulary of the statements about the colour hash *)

Module Hashing.




End Hashing.

(** ** Vocabulary of the statements about edge titles *)

Module Titles.

Import Parser.

(** A separator: one or more ['-'] followed by ['>'], or ["--"]. *)
Inductive IsSeparator : jsstring -> Prop :=
| sep_directed (n : nat) : IsSeparator (repeat DASH (S n) ++ [GT])
| sep_undirected : IsSeparator [DASH; DASH].

(** The title contains a separator somewhere. *)
Definition HasSeparator (title : jsstring) : Prop :=
  exists pre sep post, title = pre ++ sep ++ post /\ IsSeparator sep.

(** [sep] is the first separator of [title], found as the expression
    finds it: no match starts inside [pre], and [sep] is the match at the
    position after [pre]. *)
Definition FirstSeparator (title pre sep post : jsstring) : Prop :=
  title = pre ++ sep ++ post /\
  matchSeparator (sep ++ post) = Some (length sep) /\
  forall a b, pre = a ++ b -> b <> [] -> matchSeparator (b ++ sep ++ post) = None.

Definition edgeTitled (title : string) : EdgeGroup :=
  {| eg_title := Some (str title); eg_text := None |}.

Definition nodeTitled (title : string) : NodeGroup :=
  {| ng_title := Some (str title);
     ng_text := None;
     ng_ellipse := None;
     ng_polygon := None;
     ng_path := None |}.

(** A diagram of node groups and edge groups given by their titles. *)
Definition diagram (ns es : list string) : Document :=
  {| doc_viewBox := None;
     doc_transform := None;
     doc_nodes := map nodeTitled ns;
     doc_edges := map edgeTitled es |}.

End Titles.

(** ** Vocabulary of the statements about highlighting *)

Module Neighbors.

Import Selection.

(** [id] is the other end of an edge of [es] at [S]. *)
Definition sharesEdge (es : list GraphEdge) (S id : jsstring) : Prop :=
  exists e, In e es /\
    ((e_source e = S /\ e_target e = id) \/ (e_target e = S /\ e_source e = id)).

(** The id a pass reads from an element, [[]] standing in when the read
    raises. *)
Definition idOr (fancy : bool) (el : NodeElem) : jsstring :=
  match elemId fancy el with
  | Ok id => id
  | Throw _ => []
  end.

End Neighbors.

(** ** Vocabulary of the statements about the fancy layout *)

Module Geometry.

Import PrimFloat SpecFloat FloatOps.

#[local] Set Warnings "-inexact-float".

(** The raw static coordinates the set-up reads: [n.x || 0], [n.y || 0]. *)
Definition rawX (n : GraphNode) : number := orZero (n_x n).
Definition rawY (n : GraphNode) : number := orZero (n_y n).

(** Running minimum and maximum, as the [if (x < minX) minX = x] and
    [if (x > maxX) maxX = x] updates compute them. *)
Definition stepMin (m x : number) : number := if (x <? m)%float then x else m.
Definition stepMax (m x : number) : number := if (m <? x)%float then x else m.

(** The real number a finite double stands for: sign, mantissa and
    exponent as the IEEE format reads them. *)
Definition exact (v : number) : option Q :=
  match Prim2SF v with
  | S754_zero _ => Some 0%Q
  | S754_finite sign m e =>
      let q := (inject_Z (Zpos m) * Qpower 2 e)%Q in
      Some (if sign then Qopp q else q)
  | S754_infinity _ | S754_nan => None
  end.

(** [o] lies at exactly half of the way from [c] to [raw], as real
    numbers. *)
Definition halfway (c raw o : number) : Prop :=
  exists qc qr qo,
    exact c = Some qc /\ exact raw = Some qr /\ exact o = Some qo /\
    (qo - qc == (1 # 2) * (qr - qc))%Q.

(** A node laid out at the given static position. *)
Definition nodeAt (title : string) (x y : number) : GraphNode :=
  {| n_id := str title;
     n_name := str title;
     n_color := None;
     n_fillcolor := None;
     n_x := Some x;
     n_y := Some y;
     n_shapeType := ellipse |}.
Arguments nodeAt title%_string (x y)%_float.

(** A node of the given id, laid out at the origin. *)
Definition nodeNamed (title : string) : GraphNode := nodeAt title 0 0.

(** A node group whose label sits at the given position. *)
Definition placed (title : string) (x y : number) : NodeGroup :=
  {| ng_title := Some (str title);
     ng_text := Some {| t_x := Some x; t_y := Some y; t_content := str title |};
     ng_ellipse := None;
     ng_polygon := None;
     ng_path := None |}.

(** Two nodes laid out at (0.1, 18) and (0.7, 90). *)
Definition spread : Document :=
  {| doc_viewBox := None;
     doc_transform := None;
     doc_nodes := [placed "A" 0.1%float 18%float;
                   placed "B" 0.7%float 90%float];
     doc_edges := [] |}.

End Geometry.

(** ** Sample viewers *)

Module Samples.

Import Parser Fancy Selection Zoom Geometry.

Local Open Scope Q_scope.

Definition rect800x600 : Rect :=
  {| rc_x := 0; rc_y := 0; rc_width := 800; rc_height := 600 |}.

(** A mounted fancy-mode svg holding the simulation nodes of a layout. *)
Definition fancySvg (L : ParsedLayout) : SvgEl :=
  {| clientWidth := 800;
     clientHeight := 600;
     clientRect := rect800x600;
     svg_nodes :=
       map (fun d => {| sv_el := FancyNode d;
                        sv_bbox := {| rc_x := -27; rc_y := -18;
                                      rc_width := 54; rc_height := 36 |};
                        sv_ctm := None |})
           (simNodes L);
     zoomT := zoomIdentity |}.

(** A mounted static svg holding the node groups of a diagram. *)
Definition staticSvg (doc : Document) : SvgEl :=
  {| clientWidth := 800;
     clientHeight := 600;
     clientRect := rect800x600;
     svg_nodes :=
       map (fun g => {| sv_el := StaticNode g;
                        sv_bbox := {| rc_x := 0; rc_y := 0;
                                      rc_width := 54; rc_height := 36 |};
                        sv_ctm := Some {| m_a := 1; m_b := 0; m_c := 0;
                                          m_d := 1; m_e := 100; m_f := 50 |} |})
           (doc_nodes doc);
     zoomT := zoomIdentity |}.

Definition twoNodes : Document :=
  Titles.diagram ["A"%string; "B"%string] ["A->B"%string].

(** The viewer after a diagram was rendered in the given mode and the
    given id became the selection. *)
Definition viewerOf (doc : Document) (fancy : bool) (sel : option jsstring)
  : Viewer :=
  let svg := if fancy then fancySvg (parseLayout doc) else staticSvg doc in
  {| svgRef := Some {| clientWidth := clientWidth svg;
                       clientHeight := clientHeight svg;
                       clientRect := clientRect svg;
                       svg_nodes := svg_nodes svg;
                       zoomT := zoomIdentity |};
     zoomBehaviorRef := Some {| scaleExtent := (0.01, 200) |};
     savedTransform := zoomIdentity;
     selectedNodeId := sel;
     isFancyMode := fancy;
     exports := [] |}.

(** A wheel turn of 500 pixels upwards at the middle of the viewport. *)
Definition wheelUp : WheelEvent :=
  {| deltaY := -500; deltaMode := 0; ctrlKey := false; pointer := (400, 300) |}.

End Samples.

(** ** Application shell: the mode flags of [App] and the [Toolbar]
       buttons that reach them *)

Module Shell.

(** The interactive state of [App] next to the graph itself. *)
Record AppState := {
  selectedNodeId : option jsstring;
  isFancyMode : bool;
  isFreeMove : bool;
}.

Definition initial : AppState :=
  {| selectedNodeId := None; isFancyMode := false; isFreeMove := false |}.

(** What the user can trigger: the fancy-mode button, the free-move
    button, a graph update, a selection report and the reset button. *)
Inductive Action : Type :=
| ToggleFancy
| ToggleFreeMove
| UpdateGraph
| NodeToggle (nodeName : option jsstring)
| ResetZoom.

(** The [Toolbar] renders the free-move button under
    [{isFancyMode && ...}]; the other controls are always there. *)
Definition offered (st : AppState) (a : Action) : bool :=
  match a with
  | ToggleFreeMove => isFancyMode st
  | _ => true
  end.

(** [toggleFancyMode] *)
Definition toggleFancyMode (st : AppState) : AppState :=
  let newMode := negb (isFancyMode st) in
  {| selectedNodeId := selectedNodeId st;
     isFancyMode := newMode;
     isFreeMove := if negb newMode then false else isFreeMove st |}.

(** [() => setIsFreeMove(!isFreeMove)] *)
Definition toggleFreeMove (st : AppState) : AppState :=
  {| selectedNodeId := selectedNodeId st;
     isFancyMode := isFancyMode st;
     isFreeMove := negb (isFreeMove st) |}.

(** The state resets at the head of [handleUpdateGraph]. *)
Definition handleUpdateGraph (st : AppState) : AppState :=
  {| selectedNodeId := None;
     isFancyMode := isFancyMode st;
     isFreeMove := false |}.

Definition handleNodeToggle (nodeName : option jsstring) (st : AppState)
  : AppState :=
  {| selectedNodeId := App.handleNodeToggle nodeName (selectedNodeId st);
     isFancyMode := isFancyMode st;
     isFreeMove := isFreeMove st |}.

(** [handleResetZoom], as far as the state of [App] goes. *)
Definition handleResetZoom (st : AppState) : AppState :=
  {| selectedNodeId := None;
     isFancyMode := isFancyMode st;
     isFreeMove := isFreeMove st |}.

Definition handle (a : Action) (st : AppState) : AppState :=
  match a with
  | ToggleFancy => toggleFancyMode st
  | ToggleFreeMove => toggleFreeMove st
  | UpdateGraph => handleUpdateGraph st
  | NodeToggle n => handleNodeToggle n st
  | ResetZoom => handleResetZoom st
  end.

(** A control that is not rendered cannot be used. *)
Definition dispatch (st : AppState) (a : Action) : AppState :=
  if offered st a then handle a st else st.

Definition run (actions : list Action) (st : AppState) : AppState :=
  fold_left dispatch actions st.

End Shell.

(** ** Sidebar: statistics, inspector and preset list *)

Module Sidebar.

(** [nodeDegrees.set(k, (nodeDegrees.get(k) || 0) + 1)] *)
Definition bump (k : jsstring) (m : gmap jsstring nat) : gmap jsstring nat :=
  <[k := (default 0%nat (m !! k) + 1)%nat]> m.

(** [graphData.nodes.forEach(n => nodeDegrees.set(n.id, 0))] *)
Definition initDegrees (ns : list GraphNode) : gmap jsstring nat :=
  fold_left (fun m n => <[n_id n := 0%nat]> m) ns ∅.

(** The degree part of the body of [graphData.edges.forEach]. *)
Definition countDegrees (m : gmap jsstring nat) (e : GraphEdge)
  : gmap jsstring nat :=
  bump (e_target e) (bump (e_source e) m).

Definition nodeDegrees (gd : GraphData) : gmap jsstring nat :=
  fold_left countDegrees (gd_edges gd) (initDegrees (gd_nodes gd)).

(** [nodeDegrees.get(n.id) || 0], the degree shown for a node. *)
Definition degreeShown (gd : GraphData) (n : GraphNode) : nat :=
  default 0%nat (nodeDegrees gd !! n_id n).










Record ExampleGraph := {
  ex_name : jsstring;
  ex_description : jsstring;
  ex_code : jsstring;
}.

(** The update of the preset list when the server answers: remote
    presets whose name is not yet listed are appended. *)
Definition mergePresets (prev remotePresets : list ExampleGraph)
  : list ExampleGraph :=
  let existingNames : gset jsstring := list_to_set (map ex_name prev) in
  let newItems :=
    List.filter (fun p => negb (bool_decide (ex_name p ∈ existingNames)))
                remotePresets in
  match newItems with
  | [] => prev
  | _ :: _ => prev ++ newItems
  end.

(** The legend: the distinct fill (else outline) colours of the nodes in
    order of first appearance, each with the number of nodes bearing it;
    ['none'] and ['black'] are left out. *)
Definition legendColor (n : GraphNode) : option jsstring :=
  let c := if truthy (n_fillcolor n) then n_fillcolor n else n_color n in
  if truthy c
     && negb (bool_decide (orEmpty c = str "none"))
     && negb (bool_decide (orEmpty c = str "black"))
  then c else None.

Definition legendStep (acc : list jsstring * gmap jsstring nat) (n : GraphNode)
  : list jsstring * gmap jsstring nat :=
  match legendColor n with
  | Some c =>
      ((if bool_decide (c ∈ fst acc) then fst acc else fst acc ++ [c]),
       <[c := (default 0%nat (snd acc !! c) + 1)%nat]> (snd acc))
  | None => acc
  end.

Definition legendColors (ns : list GraphNode) : list (jsstring * option nat) :=
  let '(colors, counts) := fold_left legendStep ns ([], ∅) in
  map (fun c => (c, counts !! c)) colors.

End Sidebar.

(** ** Vocabulary of the statements about the sidebar *)

Module Counts.

(** The number of edge ends at [id]: edges leaving it plus edges
    entering it (a loop counts twice). *)
Definition degreeOf (es : list GraphEdge) (id : jsstring) : nat :=
  (length (List.filter (fun e => bool_decide (e_source e = id)) es)
   + length (List.filter (fun e => bool_decide (e_target e = id)) es))%nat.

(** [id] is an end of some edge. *)
Definition isEndpoint (es : list GraphEdge) (id : jsstring) : Prop :=
  exists e, In e es /\ (e_source e = id \/ e_target e = id).

(** The sum of all degrees held in the map. *)
Definition totalDegree (m : gmap jsstring nat) : nat :=
  map_fold (fun _ d acc => (d + acc)%nat) 0%nat m.


(** The number of nodes that enter the legend under the colour [c]. *)
Definition nodesOfColor (ns : list GraphNode) (c : jsstring) : nat :=
  length (List.filter (fun n => bool_decide (Sidebar.legendColor n = Some c)) ns).

Definition preset (name : string) : Sidebar.ExampleGraph :=
  {| Sidebar.ex_name := str name;
     Sidebar.ex_description := [];
     Sidebar.ex_code := [] |}.

Definition edgeFromTo (source target : string) : GraphEdge :=
  {| e_id := str source ++ str "->" ++ str target;
     e_source := str source;
     e_target := str target;
     e_label := None;
     e_displayColor := Some Color.UNTYPED |}.

End Counts.

(** ** Fancy mode: neighbours and the drag protocol

    The simulation nodes are objects shared by the simulation, the links
    and the handlers; here they sit in a list and are referred to by
    position.  Pointer events reach the handlers through d3-drag, which
    runs one gesture per pointer.  Timers, animation frames and
    simulation ticks are events that arrive from outside; a frame or a
    tick carries the values it writes. *)

Module Simulation.

Import Parser Fancy.

(** The id of the node at a position. *)
Definition idAt (ns : list SimNode) (j : nat) : jsstring :=
  match ns !! j with
  | Some d => n_id (sn_node d)
  | None => []
  end.

(** [getNeighbors(d)] *)
Definition getNeighbors (ns : list SimNode) (ls : list Link) (d : nat)
  : list nat :=
  flat_map
    (fun l =>
       if decide (idAt ns (l_source l) = idAt ns d) then [l_target l]
       else if decide (idAt ns (l_target l) = idAt ns d) then [l_source l]
       else [])
    ls.

(** [new Set([d, ...neighbors].map(n => n.id))] *)
Definition affectedIds (ns : list SimNode) (ls : list Link) (d : nat)
  : gset jsstring :=
  list_to_set (map (idAt ns) (d :: getNeighbors ns ls d)).

(** The two return animations. *)
Inductive Tween := returnToOrigin | returnToOriginGlobal.

(** A pointer d3-drag follows: the mouse, or a touch by its identifier.
    Each pointer has a gesture of its own, and the gestures of
    different touches can overlap. *)
Inductive Pointer := Mouse | Touch (identifier : nat).

#[global] Instance Pointer_eq_dec : EqDecision Pointer.
Proof. solve_decision. Defined.

Definition isMouse (p : Pointer) : bool :=
  match p with
  | Mouse => true
  | Touch _ => false
  end.

(** The state the handlers of the fancy render share.  [isDragging],
    [dragEnabled] and [dragTimer] are the three variables of the render
    effect, one set for all gestures; [dragTimer] holds the id the last
    [setTimeout] returned.  [timers] are the arm timers still pending,
    each with the node of the press that set it, and [nextTimer] is the
    id the next [setTimeout] returns.  [gestures] are d3-drag's gestures
    in progress, newest first, each pointer with its subject.
    [mousemoving] and [noclick] are d3-drag's own: whether the mouse
    left the position of the press, and whether the click that ends a
    mouse gesture is withheld.  [transitions] holds the animation
    running on each node element, at most one. *)
Record Sim := {
  nodes : list SimNode;
  links : list Link;
  isDragging : bool;
  dragEnabled : bool;
  dragTimer : option nat;
  timers : gmap nat nat;
  nextTimer : nat;
  gestures : list (Pointer * nat);
  mousemoving : bool;
  noclick : bool;
  transitions : gmap nat Tween;
  isFreeMove : bool;
}.

Definition withNodes (ns : list SimNode) (st : Sim) : Sim :=
  {| nodes := ns;
     links := links st;
     isDragging := isDragging st;
     dragEnabled := dragEnabled st;
     dragTimer := dragTimer st;
     timers := timers st;
     nextTimer := nextTimer st;
     gestures := gestures st;
     mousemoving := mousemoving st;
     noclick := noclick st;
     transitions := transitions st;
     isFreeMove := isFreeMove st |}.

Definition withTransitions (ts : gmap nat Tween) (st : Sim) : Sim :=
  {| nodes := nodes st;
     links := links st;
     isDragging := isDragging st;
     dragEnabled := dragEnabled st;
     dragTimer := dragTimer st;
     timers := timers st;
     nextTimer := nextTimer st;
     gestures := gestures st;
     mousemoving := mousemoving st;
     noclick := noclick st;
     transitions := ts;
     isFreeMove := isFreeMove st |}.

Definition withFlags (dragging enabled : bool) (st : Sim) : Sim :=
  {| nodes := nodes st;
     links := links st;
     isDragging := dragging;
     dragEnabled := enabled;
     dragTimer := dragTimer st;
     timers := timers st;
     nextTimer := nextTimer st;
     gestures := gestures st;
     mousemoving := mousemoving st;
     noclick := noclick st;
     transitions := transitions st;
     isFreeMove := isFreeMove st |}.

Definition withTimers (last : option nat) (pending : gmap nat nat)
    (next : nat) (st : Sim) : Sim :=
  {| nodes := nodes st;
     links := links st;
     isDragging := isDragging st;
     dragEnabled := dragEnabled st;
     dragTimer := last;
     timers := pending;
     nextTimer := next;
     gestures := gestures st;
     mousemoving := mousemoving st;
     noclick := noclick st;
     transitions := transitions st;
     isFreeMove := isFreeMove st |}.

Definition withGestures (gs : list (Pointer * nat)) (st : Sim) : Sim :=
  {| nodes := nodes st;
     links := links st;
     isDragging := isDragging st;
     dragEnabled := dragEnabled st;
     dragTimer := dragTimer st;
     timers := timers st;
     nextTimer := nextTimer st;
     gestures := gs;
     mousemoving := mousemoving st;
     noclick := noclick st;
     transitions := transitions st;
     isFreeMove := isFreeMove st |}.

Definition withMouse (moving withheld : bool) (st : Sim) : Sim :=
  {| nodes := nodes st;
     links := links st;
     isDragging := isDragging st;
     dragEnabled := dragEnabled st;
     dragTimer := dragTimer st;
     timers := timers st;
     nextTimer := nextTimer st;
     gestures := gestures st;
     mousemoving := moving;
     noclick := withheld;
     transitions := transitions st;
     isFreeMove := isFreeMove st |}.

Definition withFreeMove (b : bool) (st : Sim) : Sim :=
  {| nodes := nodes st;
     links := links st;
     isDragging := isDragging st;
     dragEnabled := dragEnabled st;
     dragTimer := dragTimer st;
     timers := timers st;
     nextTimer := nextTimer st;
     gestures := gestures st;
     mousemoving := mousemoving st;
     noclick := noclick st;
     transitions := transitions st;
     isFreeMove := b |}.

(** [d.fx = fx; d.fy = fy] *)
Definition setPin (fx fy : option number) (d : SimNode) : SimNode :=
  {| sn_node := sn_node d;
     sn_x := sn_x d;
     sn_y := sn_y d;
     sn_fx := fx;
     sn_fy := fy;
     sn_originX := sn_originX d;
     sn_originY := sn_originY d |}.

Definition setPosition (x y : number) (d : SimNode) : SimNode :=
  {| sn_node := sn_node d;
     sn_x := x;
     sn_y := y;
     sn_fx := sn_fx d;
     sn_fy := sn_fy d;
     sn_originX := sn_originX d;
     sn_originY := sn_originY d |}.

(** The node elements [.filter(n => ids.has(n.id))] keeps. *)
Definition elementsOf (ns : list SimNode) (ids : gset jsstring) : list nat :=
  List.filter (fun j => bool_decide (idAt ns j ∈ ids)) (seq 0 (length ns)).

(** Reads of a field through the updates above. *)
Ltac sim_cbn :=
  cbn [nodes links isDragging dragEnabled dragTimer timers nextTimer gestures
       mousemoving noclick transitions isFreeMove
       withNodes withTransitions withFlags withTimers withGestures withMouse
       withFreeMove].

(** The subject of the gesture of a pointer, if it has one. *)
Fixpoint subjectOf (p : Pointer) (gs : list (Pointer * nat)) : option nat :=
  match gs with
  | [] => None
  | (q, d) :: gs' => if decide (q = p) then Some d else subjectOf p gs'
  end.

(** The gestures left when the gesture of [p] ends. *)
Definition release (p : Pointer) (gs : list (Pointer * nat))
  : list (Pointer * nat) :=
  List.filter (fun g => negb (bool_decide (fst g = p))) gs.

(** The simulation as the render effect leaves it. *)
Definition mounted (ns : list SimNode) (ls : list Link) (freeMove : bool) : Sim :=
  {| nodes := ns;
     links := ls;
     isDragging := false;
     dragEnabled := false;
     dragTimer := None;
     timers := ∅;
     nextTimer := 0;
     gestures := [];
     mousemoving := false;
     noclick := false;
     transitions := ∅;
     isFreeMove := freeMove |}.

(** [dragstarted]: the flags are reset and a new arm timer is set; an
    earlier timer that is still pending stays pending. *)
Definition dragstarted (d : nat) (st : Sim) : Sim :=
  let t := nextTimer st in
  withTimers (Some t) (<[t := d]> (timers st)) (S t)
    (withFlags false false st).

(** The callback of an arm timer, 300 ms after the [dragstarted] that
    set it; [d] is the node of that press. *)
Definition timerFired (t : nat) (st : Sim) : Sim :=
  match timers st !! t with
  | None => st
  | Some d =>
      let ns := nodes st in
      let ns1 :=
        alter (fun n => setPin (Some (sn_x n)) (Some (sn_y n)) n) d ns in
      let neighbors := getNeighbors ns (links st) d in
      let ids := affectedIds ns (links st) d in
      let ts := foldr (fun j ts => delete j ts) (transitions st)
                      (elementsOf ns ids) in
      let ns2 := foldr (fun j acc => alter (setPin None None) j acc)
                       ns1 neighbors in
      withTimers (dragTimer st) (delete t (timers st)) (nextTimer st)
        (withFlags (isDragging st) true
           (withTransitions ts (withNodes ns2 st)))
  end.

(** [dragged] on the node [d] *)
Definition dragged (d : nat) (ex ey : number) (st : Sim) : Sim :=
  if dragEnabled st then
    withFlags true (dragEnabled st)
      (withNodes (alter (setPin (Some ex) (Some ey)) d (nodes st)) st)
  else st.

(** [clearTimeout(dragTimer)] *)
Definition clearTimer (st : Sim) : Sim :=
  match dragTimer st with
  | Some t => withTimers (dragTimer st) (delete t (timers st)) (nextTimer st) st
  | None => st
  end.

(** [dragended] on the node [d] *)
Definition dragended (d : nat) (st : Sim) : Sim :=
  let st1 := clearTimer st in
  if negb (dragEnabled st) then st1
  else if isFreeMove st then
    withNodes (alter (setPin None None) d (nodes st)) st1
  else
    let ids := affectedIds (nodes st) (links st) d in
    withTransitions
      (foldr (fun j ts => <[j := returnToOrigin]> ts) (transitions st)
             (elementsOf (nodes st) ids))
      st1.

(** One frame of a running return animation: the pin follows the
    interpolated point ([cx], [cy]); the global animation moves the node
    as well. *)
Definition frame (j : nat) (cx cy : number) (st : Sim) : Sim :=
  match transitions st !! j with
  | Some returnToOrigin =>
      withNodes (alter (setPin (Some cx) (Some cy)) j (nodes st)) st
  | Some returnToOriginGlobal =>
      withNodes
        (alter (fun n => setPin (Some cx) (Some cy) (setPosition cx cy n)) j
               (nodes st)) st
  | None => st
  end.

(** The end of a return animation: the node is pinned at its origin. *)
Definition transitionEnd (j : nat) (st : Sim) : Sim :=
  match transitions st !! j with
  | Some _ =>
      withTransitions (delete j (transitions st))
        (withNodes
           (alter (fun n => setPin (Some (sn_originX n)) (Some (sn_originY n)) n)
                  j (nodes st)) st)
  | None => st
  end.

(** The effect on [isFreeMove]: switched on, every pin is released;
    switched off, every node starts the global return animation. *)
Definition setFreeMove (b : bool) (st : Sim) : Sim :=
  if b then
    withFreeMove true (withNodes (map (setPin None None) (nodes st)) st)
  else
    withFreeMove false
      (withTransitions
         (foldr (fun j ts => <[j := returnToOriginGlobal]> ts) (transitions st)
                (seq 0 (length (nodes st))))
         st).

(** A tick of the simulation: a pinned coordinate is taken from the pin,
    a free one from the forces. *)
Definition tick (forces : nat -> number * number) (st : Sim) : Sim :=
  withNodes
    (imap (fun j n =>
             setPosition
               (match sn_fx n with Some v => v | None => fst (forces j) end)
               (match sn_fy n with Some v => v | None => snd (forces j) end)
               n)
          (nodes st)) st.


(** What reaches the handlers.  A move carries the coordinates d3-drag
    hands to the listener and tells whether the pointer is away from the
    position of the press (for the mouse, what d3-drag's click-distance
    test reads). *)
Inductive Event : Type :=
| PointerDown (p : Pointer) (d : nat)
| ArmTimer (t : nat)
| PointerMove (p : Pointer) (displaced : bool) (ex ey : number)
| PointerUp (p : Pointer)
| Frame (j : nat) (cx cy : number)
| TransitionEnd (j : nat)
| FreeMove (b : bool)
| Tick (forces : nat -> number * number).

(** d3-drag starts a gesture for a pointer that goes down on an existing
    node and has no gesture yet, whatever the other pointers do; a move
    or a release reaches the handlers of the gesture of its pointer.
    For the mouse d3-drag resets [mousemoving] at the press, sets it at
    the first move away from the press, and at the release withholds
    the click when it is set. *)
Definition deliver (st : Sim) (ev : Event) : Sim :=
  match ev with
  | PointerDown p d =>
      match subjectOf p (gestures st) with
      | None =>
          if decide (d < length (nodes st))%nat then
            withMouse (if isMouse p then false else mousemoving st)
                      (if isMouse p then false else noclick st)
                      (withGestures ((p, d) :: gestures st) (dragstarted d st))
          else st
      | Some _ => st
      end
  | ArmTimer t => timerFired t st
  | PointerMove p displaced ex ey =>
      match subjectOf p (gestures st) with
      | Some d =>
          withMouse (if isMouse p then mousemoving st || displaced
                     else mousemoving st)
                    (noclick st)
                    (dragged d ex ey st)
      | None => st
      end
  | PointerUp p =>
      match subjectOf p (gestures st) with
      | Some d =>
          withMouse (mousemoving st)
                    (if isMouse p then mousemoving st else noclick st)
                    (withGestures (release p (gestures st)) (dragended d st))
      | None => st
      end
  | Frame j cx cy => frame j cx cy st
  | TransitionEnd j => transitionEnd j st
  | FreeMove b => setFreeMove b st
  | Tick forces => tick forces st
  end.

Definition run (evs : list Event) (st : Sim) : Sim := fold_left deliver evs st.

(** Every press of the sequence arrives while no gesture is in
    progress: one pointer at a time. *)
Fixpoint sequential (evs : list Event) (st : Sim) : bool :=
  match evs with
  | [] => true
  | ev :: evs' =>
      match ev, gestures st with
      | PointerDown _ _, _ :: _ => false
      | _, _ => sequential evs' (deliver st ev)
      end
  end.

(** The node is pinned at its origin. *)
Definition pinnedAtOrigin (d : SimNode) : Prop :=
  sn_fx d = Some (sn_originX d) /\ sn_fy d = Some (sn_originY d).

(** The node sits at its origin. *)
Definition atOrigin (d : SimNode) : Prop :=
  sn_x d = sn_originX d /\ sn_y d = sn_originY d.

Definition nodeIds (ns : list SimNode) : list jsstring :=
  map (fun d => n_id (sn_node d)) ns.

(** The node at [j] is held by the one armed gesture: the gesture's node
    or one of its neighbours, by id. *)
Definition heldByGesture (st : Sim) (j : nat) : Prop :=
  dragEnabled st = true /\
  exists p s, gestures st = [(p, s)] /\
              idAt (nodes st) j ∈ affectedIds (nodes st) (links st) s.

(** What the handlers maintain while the pointers come one at a time:
    there is at most one gesture; a pending arm timer is the last one
    set and belongs to the gesture in progress, which is not armed yet;
    and with free move off every node is pinned at its origin, or on
    its way there, or held by the armed gesture. *)
Definition anchored (st : Sim) : Prop :=
  (gestures st = [] \/ exists p d, gestures st = [(p, d)]) /\
  (forall t d, timers st !! t = Some d ->
     dragTimer st = Some t /\ dragEnabled st = false /\
     exists p, gestures st = [(p, d)]) /\
  (isFreeMove st = false ->
   forall j n, nodes st !! j = Some n ->
     pinnedAtOrigin n \/ is_Some (transitions st !! j) \/ heldByGesture st j).

(** The resolved links of a layout whose edges name nodes. *)
Definition linksOf (L : ParsedLayout) : list Link :=
  match simLinks L with
  | Ok ls => ls
  | Throw _ => []
  end.



End Simulation.

(** ** Selection highlighting: the edge elements *)

Module EdgeHighlight.

Import Parser Fancy Selection Simulation.

(** An edge element of the mounted svg: a [line] bound to its link, or a
    [g.edge] of the diagram's own markup. *)
Inductive EdgeElem : Type :=
| FancyLine (l : Link)
| StaticEdge (g : EdgeGroup).

(** [strokeWidth] is the attribute set on a fancy line; [None] leaves
    the element as rendered. *)
Record EdgeStyle := {
  ecls_connected : bool;
  e_opacity : option Q;
  e_strokeWidth : option Q;
}.

Record RenderedEdge := {
  re_el : EdgeElem;
  re_style : EdgeStyle;
}.

Definition rendered (el : EdgeElem) : RenderedEdge :=
  {| re_el := el;
     re_style := {| ecls_connected := false; e_opacity := None;
                    e_strokeWidth := None |} |}.

(** [svg.selectAll(edgeSelector)]: [line] or [.edge]. *)
Definition matchesEdgeSelector (isFancyMode : bool) (el : EdgeElem) : bool :=
  match el, isFancyMode with
  | FancyLine _, true | StaticEdge _, false => true
  | _, _ => false
  end.

(** The filter of the connected edges: in fancy mode
    [d.source.id === selectedNodeId || d.target.id === selectedNodeId];
    in static mode [title.split(/-+>|--/).includes(selectedNodeId)], the
    title read through d3's [text()]. *)
Definition edgeHit (isFancyMode : bool) (ns : list SimNode) (sel : jsstring)
    (el : EdgeElem) : result bool :=
  match el with
  | FancyLine l =>
      Ok (bool_decide (idAt ns (l_source l) = sel)
          || bool_decide (idAt ns (l_target l) = sel))
  | StaticEdge g =>
      match eg_title g with
      | Some title => Ok (bool_decide (sel ∈ splitTitle title))
      | None => Throw "TypeError: null has no textContent"
      end
  end.

Fixpoint restyleEdges (isFancyMode : bool) (p : EdgeElem -> result bool)
    (f : EdgeStyle -> EdgeStyle) (rs : list RenderedEdge)
  : result (list RenderedEdge) :=
  match rs with
  | [] => Ok []
  | r :: rs' =>
      bind (if matchesEdgeSelector isFancyMode (re_el r) then p (re_el r)
            else Ok false)
        (fun hit =>
           bind (restyleEdges isFancyMode p f rs')
             (fun out =>
                Ok ((if hit then {| re_el := re_el r; re_style := f (re_style r) |}
                     else r) :: out)))
  end.

(** The edge part of the highlighting effect, on the edge elements of
    the mounted svg; [ns] are the simulation nodes the links point
    into. *)
Definition highlightEdges (isFancyMode : bool) (selectedNodeId : option jsstring)
    (ns : list SimNode) (rs : list RenderedEdge) : result (list RenderedEdge) :=
  (* clear styles *)
  bind (restyleEdges isFancyMode (fun _ => Ok true)
          (fun s => {| ecls_connected := false; e_opacity := None;
                       e_strokeWidth := e_strokeWidth s |}) rs) (fun rs0 =>
  if truthy selectedNodeId then
    let sel := orEmpty selectedNodeId in
    (* dim everything first *)
    bind (restyleEdges isFancyMode (fun _ => Ok true)
            (fun s => {| ecls_connected := ecls_connected s;
                         e_opacity := Some 0.1%Q;
                         e_strokeWidth := e_strokeWidth s |}) rs0) (fun rs1 =>
    (* highlight connected edges *)
    restyleEdges isFancyMode (edgeHit isFancyMode ns sel)
      (fun s => {| ecls_connected := true;
                   e_opacity := Some 1%Q;
                   e_strokeWidth := if isFancyMode then Some 3%Q
                                    else e_strokeWidth s |}) rs1)
  else if isFancyMode then
    (* reset edge stroke width in fancy mode *)
    restyleEdges isFancyMode (fun _ => Ok true)
      (fun s => {| ecls_connected := ecls_connected s;
                   e_opacity := e_opacity s;
                   e_strokeWidth := Some 2%Q |}) rs0
  else Ok rs0).

(** The edge elements the render effect puts in the svg. *)
Definition renderEdges (isFancyMode : bool) (doc : Document) (ls : list Link)
  : list RenderedEdge :=
  if isFancyMode then map (fun l => rendered (FancyLine l)) ls
  else map (fun g => rendered (StaticEdge g)) (doc_edges doc).

(** The ids at the two ends of an edge element, where it has exactly
    two: the ends of a link, or the two pieces of a title with a single
    separator. *)
Definition edgeEnds (ns : list SimNode) (el : EdgeElem)
  : option (jsstring * jsstring) :=
  match el with
  | FancyLine l => Some (idAt ns (l_source l), idAt ns (l_target l))
  | StaticEdge g =>
      match splitTitle (orEmpty (eg_title g)) with
      | [a; b] => Some (a, b)
      | _ => None
      end
  end.

(** The filter of the connected edges, where it does not raise. *)
Definition hitOr (fancy : bool) (ns : list SimNode) (S : jsstring)
    (el : EdgeElem) : bool :=
  match edgeHit fancy ns S el with
  | Ok b => b
  | Throw _ => false
  end.

End EdgeHighlight.

(** * Properties *)

(** ** Colour classifier *)

Section ColorProps.

Import Color Hashing.

Lemma toInt32_range z : - 2 ^ 31 <= toInt32 z < 2 ^ 31.
Proof.
  unfold toInt32.
  pose proof (Z.mod_pos_bound (z + 2 ^ 31) (2 ^ 32) ltac:(lia)). lia.
Qed.

Lemma toInt32_small z : - 2 ^ 31 <= z < 2 ^ 31 -> toInt32 z = z.
Proof.
  intros Hz. unfold toInt32.
  rewrite Z.mod_small by lia. lia.
Qed.

(** While [32 * hash] fits 32 bits the mixing step is [c + 31 * hash]. *)
Lemma hashStep_no_wrap hash c :
  - 2 ^ 26 <= hash < 2 ^ 26 -> hashStep hash c = charCode c + 31 * hash.
Proof.
  intros Hh. unfold hashStep, shl.
  rewrite (toInt32_small hash) by lia.
  change (5 mod 32) with 5. rewrite Z.shiftl_mul_pow2 by lia.
  rewrite toInt32_small by lia. lia.
Qed.

(** Each round moves the hash by less than [2^31 + 2^16] in magnitude. *)
Lemma hashStep_bound hash c :
  wf_unit c -> Z.abs (hashStep hash c) <= Z.abs hash + 2 ^ 31 + 65535.
Proof.
  unfold wf_unit, hashStep, shl, charCode. intros Hc.
  pose proof (toInt32_range (Z.shiftl (toInt32 hash) (5 mod 32))). lia.
Qed.

Lemma fold_hash_bound s : forall h,
  wf_string s ->
  Z.abs (fold_left hashStep s h)
    <= Z.abs h + Z.of_nat (length s) * (2 ^ 31 + 65535).
Proof.
  induction s as [|c s IH]; intros h Hs; cbn [fold_left length].
  - lia.
  - inversion Hs as [|? ? Hc Hs']; subst.
    specialize (IH (hashStep h c) Hs').
    pose proof (hashStep_bound h c Hc). lia.
Qed.

(** Labels of up to [2^21] code units keep the hash below [2^53]: the
    numbers the loop handles are integers a double holds exactly, so the
    arithmetic in [Z] is the arithmetic of the source. *)
Lemma typeHash_exact s :
  wf_string s -> (length s <= 2 ^ 21)%nat -> Z.abs (typeHash s) < 2 ^ 53.
Proof.
  intros Hs Hl. unfold typeHash.
  pose proof (fold_hash_bound s 0 Hs).
  assert (Z.of_nat (length s) <= 2 ^ 21).
  { change (2 ^ 21) with (Z.of_nat (2 ^ 21)). lia. }
  nia.
Qed.









End ColorProps.

(** ** Selection toggle *)

Section ToggleProps.

Import App.

Lemma toggle_twice (X : jsstring) (sel : option jsstring) :
  handleNodeToggle (Some X) (handleNodeToggle (Some X) sel)
  = if decide (sel = Some X) then Some X else None.
Proof.
  unfold handleNodeToggle.
  repeat case_decide; congruence.
Qed.

(** The handler, relative to the selection it compares with: a report
    of the selected id clears the selection, a report of another id
    selects it. *)
Lemma handleNodeToggle_cases (X : jsstring) (sel : option jsstring) :
  handleNodeToggle (Some X) sel
  = if decide (sel = Some X) then None else Some X.
Proof.
  unfold handleNodeToggle. repeat case_decide; congruence.
Qed.

(** C7, as the code has it.  Clicks on a node [X] in the viewer reach
    the handler the listeners were bound to when the diagram was
    rendered, which compares with the selection of that moment
    ([sel0]), not with the current one.  Rendered while [X] was not
    selected, the first click selects [X] and the second click leaves
    [X] selected, where the toggle should clear the selection; rendered
    while [X] was selected, every click on [X] clears the selection and
    none selects it.  Through the sidebar, which calls the current
    handler, the second report does clear the selection. *)
Theorem viewer_click_does_not_toggle (X : jsstring) (sel0 : option jsstring) :
  let st1 := viewerClick (Some X) (rendered sel0) in
  let st2 := viewerClick (Some X) st1 in
  cs_selected st1 = (if decide (sel0 = Some X) then None else Some X) /\
  cs_selected st2 = cs_selected st1 /\
  cs_selected (viewerClick (Some X) (viewerClick (Some X) (rendered None)))
  = Some X /\
  cs_selected (sidebarSelect (Some X) (viewerClick (Some X) (rendered None)))
  = None.
Proof.
  cbv zeta. unfold viewerClick, sidebarSelect, rendered.
  cbn [cs_selected cs_bound].
  rewrite !handleNodeToggle_cases.
  split; [reflexivity |]. split; [reflexivity |].
  split; repeat case_decide; congruence.
Qed.

End ToggleProps.

(** ** Diagram parser: edge titles *)

Section SplitProps.

Import Parser Titles.

Lemma dashes_spec s :
  s = repeat DASH (fst (dashes s)) ++ snd (dashes s) /\
  (forall c r, snd (dashes s) = c :: r -> c <> DASH).
Proof.
  induction s as [|c s [IH1 IH2]]; cbn [dashes].
  - split; [reflexivity | discriminate].
  - destruct (N.eqb_spec c DASH) as [->|Hc].
    + destruct (dashes s) as [k r]. cbn [fst snd] in *. split.
      * cbn [repeat app]. f_equal. exact IH1.
      * exact IH2.
    + cbn [fst snd repeat app]. split; [reflexivity |].
      intros c' r' Heq. injection Heq as <- _. exact Hc.
Qed.

Lemma dashes_repeat n r :
  (forall c r', r = c :: r' -> c <> DASH) ->
  dashes (repeat DASH n ++ r) = (n, r).
Proof.
  intros Hr. induction n as [|n IH]; cbn [repeat app].
  - destruct r as [|c r']; [reflexivity |]. cbn [dashes].
    destruct (N.eqb_spec c DASH) as [->|_]; [|reflexivity].
    exfalso. exact (Hr _ _ eq_refl eq_refl).
  - cbn [dashes]. rewrite N.eqb_refl, IH. reflexivity.
Qed.

(** A match is a separator at the head of the text. *)
Lemma matchSeparator_sound s m :
  matchSeparator s = Some m ->
  exists sep post, s = sep ++ post /\ length sep = m /\ IsSeparator sep.
Proof.
  unfold matchSeparator.
  destruct (dashes_spec s) as [Hs _]. revert Hs.
  destruct (dashes s) as [n r]. cbn [fst snd]. intros Hs.
  destruct (Nat.leb_spec 1 n) as [H1|H1]; cbn [andb].
  - destruct r as [|c r].
    + destruct (Nat.leb_spec 2 n) as [H2|H2]; [|discriminate].
      intros [= <-]. destruct n as [|[|n]]; try lia.
      exists [DASH; DASH], (repeat DASH n ++ []).
      split; [exact Hs |]. split; [reflexivity | constructor].
    + destruct (N.eqb_spec c GT) as [->|Hc].
      * intros [= <-]. destruct n as [|n]; [lia |].
        exists (repeat DASH (S n) ++ [GT]), r. split; [|split].
        -- rewrite <- app_assoc. exact Hs.
        -- rewrite length_app, repeat_length. cbn. lia.
        -- constructor.
      * destruct (Nat.leb_spec 2 n) as [H2|H2]; [|discriminate].
        intros [= <-]. destruct n as [|[|n]]; try lia.
        exists [DASH; DASH], (repeat DASH n ++ c :: r).
        split; [exact Hs |]. split; [reflexivity | constructor].
  - destruct (Nat.leb_spec 2 n) as [H2|H2]; [lia | discriminate].
Qed.

(** The directed form wins where it applies. *)
Lemma matchSeparator_directed n post :
  matchSeparator (repeat DASH (S n) ++ [GT] ++ post) = Some (S (S n)).
Proof.
  unfold matchSeparator.
  rewrite dashes_repeat.
  - reflexivity.
  - intros c r' Heq. injection Heq as <- _. discriminate.
Qed.

(** Two dashes at the head always match. *)
Lemma matchSeparator_two_dashes post :
  exists m, matchSeparator (DASH :: DASH :: post) = Some m.
Proof.
  unfold matchSeparator.
  destruct (dashes_spec (DASH :: DASH :: post)) as [Hs Hr]. revert Hs Hr.
  destruct (dashes (DASH :: DASH :: post)) as [n r]. cbn [fst snd].
  intros Hs Hr.
  destruct n as [|[|n]].
  - cbn in Hs. destruct r as [|c r]; [discriminate |].
    injection Hs as <- _. exfalso. exact (Hr _ _ eq_refl eq_refl).
  - cbn in Hs. injection Hs as Hs. destruct r as [|c r]; [discriminate |].
    injection Hs as <- _. exfalso. exact (Hr _ _ eq_refl eq_refl).
  - destruct (Nat.leb 1 (S (S n)) && _); eauto.
Qed.

Lemma matchSeparator_complete sep post :
  IsSeparator sep -> exists m, matchSeparator (sep ++ post) = Some m.
Proof.
  intros [n|].
  - rewrite <- app_assoc. eexists. apply matchSeparator_directed.
  - apply matchSeparator_two_dashes.
Qed.

(** Passing over [n] code units is dropping them. *)
Lemma splitFrom_skip s : forall n cur,
  splitFrom n cur s = splitFrom O cur (drop n s).
Proof.
  induction s as [|c s IH]; intros n cur.
  - destruct n; reflexivity.
  - destruct n as [|n]; [reflexivity |]. cbn [splitFrom drop]. apply IH.
Qed.

(** No match anywhere: one piece, the whole text. *)
Lemma splitFrom_no_match s : forall cur,
  (forall a b, s = a ++ b -> matchSeparator b = None) ->
  splitFrom O cur s = [rev cur ++ s].
Proof.
  induction s as [|c s IH]; intros cur Hno.
  - cbn. rewrite app_nil_r. reflexivity.
  - cbn [splitFrom]. rewrite (Hno [] (c :: s) eq_refl).
    rewrite IH.
    + cbn [rev]. rewrite <- app_assoc. reflexivity.
    + intros a b ->. apply (Hno (c :: a) b). reflexivity.
Qed.

(** First match after [pre]: the piece [pre] is closed and the scan
    resumes after the match. *)
Lemma splitFrom_first_match pre : forall cur rest m,
  (forall a b, pre = a ++ b -> b <> [] -> matchSeparator (b ++ rest) = None) ->
  matchSeparator rest = Some m ->
  splitFrom O cur (pre ++ rest) = (rev cur ++ pre) :: splitFrom O [] (drop m rest).
Proof.
  induction pre as [|c pre IH]; intros cur rest m Hno Hm.
  - cbn [app]. rewrite app_nil_r.
    destruct rest as [|c rest]; [discriminate |].
    cbn [splitFrom]. rewrite Hm. rewrite splitFrom_skip.
    destruct m as [|m]; [|reflexivity].
    apply matchSeparator_sound in Hm as (sep & post & _ & Hlen & Hsep).
    destruct Hsep; discriminate.
  - pose proof (Hno [] (c :: pre) eq_refl ltac:(discriminate)) as H0.
    cbn [app] in H0. cbn [app splitFrom]. rewrite H0.
    rewrite (IH (c :: cur) rest m).
    + cbn [rev]. rewrite <- app_assoc. reflexivity.
    + intros a b -> Hb. apply (Hno (c :: a) b); [reflexivity | exact Hb].
    + exact Hm.
Qed.

Lemma no_separator_no_match s :
  ~ HasSeparator s -> forall a b, s = a ++ b -> matchSeparator b = None.
Proof.
  intros Hno a b ->.
  destruct (matchSeparator b) as [m|] eqn:Hm; [|reflexivity].
  exfalso. apply Hno.
  apply matchSeparator_sound in Hm as (sep & post & -> & _ & Hsep).
  exists a, sep, post. split; [reflexivity | exact Hsep].
Qed.

(** A text either has no match at any position or has a first one. *)
Lemma first_match_dec s :
  (forall a b, s = a ++ b -> matchSeparator b = None) \/
  (exists pre sep post, FirstSeparator s pre sep post).
Proof.
  induction s as [|c s IH].
  - left. intros a b Heq. symmetry in Heq.
    apply app_eq_nil in Heq as [_ ->]. reflexivity.
  - destruct (matchSeparator (c :: s)) as [m|] eqn:Hm.
    + right. pose proof Hm as Hm'.
      apply matchSeparator_sound in Hm' as (sep & post & Heq & Hlen & _).
      exists [], sep, post. split; [exact Heq |]. split.
      * rewrite <- Heq, Hlen. exact Hm.
      * intros a b Hab Hb. symmetry in Hab.
        apply app_eq_nil in Hab as [_ ->]. congruence.
    + destruct IH as [Hno | (pre & sep & post & Heq & Hmatch & Hbefore)].
      * left. intros a b Heq. destruct a as [|c' a].
        -- cbn in Heq. subst b. exact Hm.
        -- injection Heq as _ ->. apply (Hno a b). reflexivity.
      * right. exists (c :: pre), sep, post. split; [|split].
        -- cbn. f_equal. exact Heq.
        -- exact Hmatch.
        -- intros a b Hab Hb. destruct a as [|c' a].
           ++ cbn in Hab. subst b. cbn. rewrite <- Heq. exact Hm.
           ++ injection Hab as _ ->. apply (Hbefore a b); [reflexivity | exact Hb].
Qed.

Lemma FirstSeparator_separator s pre sep post :
  FirstSeparator s pre sep post -> IsSeparator sep.
Proof.
  intros (_ & Hm & _).
  apply matchSeparator_sound in Hm as (sep' & post' & Heq & Hlen & Hsep).
  assert (sep' = sep) as <-; [|exact Hsep].
  apply (f_equal (take (length sep))) in Heq.
  rewrite take_app_length in Heq.
  rewrite <- Hlen in Heq at 1. rewrite take_app_length in Heq. congruence.
Qed.

Lemma FirstSeparator_has s pre sep post :
  FirstSeparator s pre sep post -> HasSeparator s.
Proof.
  intros H. pose proof (FirstSeparator_separator _ _ _ _ H) as Hsep.
  destruct H as (Heq & _). exists pre, sep, post. split; assumption.
Qed.

Lemma has_separator_first s :
  HasSeparator s -> exists pre sep post, FirstSeparator s pre sep post.
Proof.
  intros (pre & sep & post & -> & Hsep).
  destruct (first_match_dec (pre ++ sep ++ post)) as [Hno | H]; [|exact H].
  destruct (matchSeparator_complete sep post Hsep) as [m Hm].
  rewrite (Hno pre (sep ++ post) eq_refl) in Hm. discriminate.
Qed.

(** The first separator is determined by the title. *)
Lemma FirstSeparator_unique s p1 s1 q1 p2 s2 q2 :
  FirstSeparator s p1 s1 q1 -> FirstSeparator s p2 s2 q2 ->
  p1 = p2 /\ s1 = s2 /\ q1 = q2.
Proof.
  intros (E1 & M1 & B1) (E2 & M2 & B2).
  assert (Hp : p1 = p2).
  { rewrite E1 in E2. apply List.app_eq_app in E2 as [b [[Ha Hb] | [Ha Hb]]].
    - destruct b as [|c b]; [rewrite app_nil_r in Ha; exact Ha |].
      specialize (B1 p2 (c :: b) Ha ltac:(discriminate)).
      rewrite <- Hb in B1. congruence.
    - destruct b as [|c b]; [rewrite app_nil_r in Ha; symmetry; exact Ha |].
      specialize (B2 p1 (c :: b) Ha ltac:(discriminate)).
      rewrite <- Hb in B2. congruence. }
  subst p2. split; [reflexivity |].
  rewrite E1 in E2. apply app_inv_head in E2.
  rewrite E2 in M1. rewrite M1 in M2. injection M2 as Hlen.
  apply app_inj_1 in E2 as [-> ->]; [auto | exact Hlen].
Qed.

(** [split] on a title without separator returns the title alone. *)
Lemma splitTitle_no_separator s : ~ HasSeparator s -> splitTitle s = [s].
Proof.
  intros Hno. unfold splitTitle.
  rewrite splitFrom_no_match; [reflexivity |].
  apply no_separator_no_match. exact Hno.
Qed.

(** [split] at the first separator: the text before it, then the pieces
    of the text after it. *)
Lemma splitTitle_first s pre sep post :
  FirstSeparator s pre sep post -> splitTitle s = pre :: splitTitle post.
Proof.
  intros (-> & Hm & Hbefore). unfold splitTitle.
  rewrite (splitFrom_first_match pre [] (sep ++ post) (length sep) Hbefore Hm).
  rewrite drop_app_length. reflexivity.
Qed.

Lemma splitTitle_nonempty s : exists p ps, splitTitle s = p :: ps.
Proof.
  destruct (first_match_dec s) as [Hno | (pre & sep & post & H)].
  - unfold splitTitle. rewrite splitFrom_no_match by exact Hno. eauto.
  - rewrite (splitTitle_first _ _ _ _ H). eauto.
Qed.

End SplitProps.

(** ** Diagram parser: edges and nodes *)

Section ParserProps.

Import Parser Titles.

(** What one edge group yields, by cases on its title. *)
Lemma parseEdge_cases (el : EdgeGroup) :
  let title := orEmpty (eg_title el) in
  (~ HasSeparator title /\ parseEdge el = None) \/
  (exists pre sep post t ts,
      FirstSeparator title pre sep post /\
      splitTitle post = t :: ts /\
      parseEdge el =
        Some {| e_id := title;
                e_source := pre;
                e_target := t;
                e_label := edgeLabel el;
                e_displayColor :=
                  Color.getTypeColor (Some (orEmpty (edgeLabel el))) |}).
Proof.
  intros title.
  destruct (first_match_dec title) as [Hno | (pre & sep & post & H)].
  - left. split.
    + intros Hhas. apply has_separator_first in Hhas as (pre & sep & post & H).
      destruct H as (Heq & Hm & _).
      rewrite (Hno pre (sep ++ post) Heq) in Hm. discriminate.
    + unfold parseEdge. fold title. unfold splitTitle.
      rewrite splitFrom_no_match by exact Hno. reflexivity.
  - right. destruct (splitTitle_nonempty post) as (t & ts & Hpost).
    exists pre, sep, post, t, ts. split; [exact H |]. split; [exact Hpost |].
    unfold parseEdge. fold title.
    rewrite (splitTitle_first _ _ _ _ H), Hpost. reflexivity.
Qed.

Lemma parseEdge_none_iff (el : EdgeGroup) :
  parseEdge el = None <-> ~ HasSeparator (orEmpty (eg_title el)).
Proof.
  destruct (parseEdge_cases el) as [[Hno Hp] | (pre & sep & post & t & ts & H & _ & Hp)].
  - split; intros _; assumption.
  - rewrite Hp. split; [discriminate |].
    intros Hno. exfalso. apply Hno. exact (FirstSeparator_has _ _ _ _ H).
Qed.

Lemma in_parseEdges e els :
  In e (parseEdges els) <-> exists el, In el els /\ parseEdge el = Some e.
Proof.
  induction els as [|el els IH]; cbn [parseEdges].
  - split; [intros [] | intros (el & [] & _)].
  - destruct (parseEdge el) as [e'|] eqn:Hp.
    + cbn [In]. rewrite IH. split.
      * intros [<- | (el' & Hin & Hp')]; [exists el | exists el']; cbn; auto.
      * intros (el' & [<- | Hin] & Hp'); [left; congruence | right; eauto].
    + rewrite IH. split.
      * intros (el' & Hin & Hp'). exists el'. cbn. auto.
      * intros (el' & [<- | Hin] & Hp'); [congruence | eauto].
Qed.

Lemma first_separator_example (a sep b : jsstring) (c : N) :
  a = [c] -> matchSeparator (c :: sep ++ b) = None ->
  matchSeparator (sep ++ b) = Some (length sep) ->
  FirstSeparator (a ++ sep ++ b) a sep b.
Proof.
  intros -> Hc Hm. split; [reflexivity |]. split; [exact Hm |].
  intros x y Hxy Hy. destruct x as [|c' x].
  - cbn in Hxy. subst y. exact Hc.
  - injection Hxy as _ Hxy. symmetry in Hxy.
    apply app_eq_nil in Hxy as [_ ->]. congruence.
Qed.

(** C1, as the code has it.  An edge group whose title has no separator
    yields no edge.  One whose title has a separator yields exactly one
    edge: its source is the text before the first separator, its target
    is the text after that separator up to the next separator, or to the
    end of the title when there is none.  ["A->B"] and ["A--B"] both
    give source ["A"] and target ["B"]. *)
Theorem parseEdge_first_separator :
  (forall el : EdgeGroup,
      ~ HasSeparator (orEmpty (eg_title el)) -> parseEdges [el] = []) /\
  (forall el : EdgeGroup,
      HasSeparator (orEmpty (eg_title el)) ->
      exists pre sep post e,
        FirstSeparator (orEmpty (eg_title el)) pre sep post /\
        IsSeparator sep /\
        parseEdges [el] = [e] /\
        e_source e = pre /\
        (~ HasSeparator post -> e_target e = post) /\
        (forall t sep' rest, FirstSeparator post t sep' rest -> e_target e = t)) /\
  (exists e, parseEdges [edgeTitled "A->B"] = [e] /\
             e_source e = str "A" /\ e_target e = str "B") /\
  (exists e, parseEdges [edgeTitled "A--B"] = [e] /\
             e_source e = str "A" /\ e_target e = str "B").
Proof.
  split; [|split; [|split]].
  - intros el Hno. apply parseEdge_none_iff in Hno.
    cbn [parseEdges]. rewrite Hno. reflexivity.
  - intros el Hhas.
    destruct (parseEdge_cases el)
      as [[Hno _] | (pre & sep & post & t & ts & H & Hpost & Hp)];
      [contradiction |].
    eexists pre, sep, post, _. split; [exact H |].
    split; [exact (FirstSeparator_separator _ _ _ _ H) |].
    split; [cbn [parseEdges]; rewrite Hp; reflexivity |].
    split; [reflexivity |]. cbn [e_target]. split.
    + intros Hno. rewrite (splitTitle_no_separator _ Hno) in Hpost. congruence.
    + intros t' sep' rest H'.
      rewrite (splitTitle_first _ _ _ _ H') in Hpost. congruence.
  - eexists. split; [vm_compute; reflexivity |]. split; reflexivity.
  - eexists. split; [vm_compute; reflexivity |]. split; reflexivity.
Qed.

Lemma parseEdge_first_separator_witness :
  parseEdges [edgeTitled "A"] = [] /\
  exists e, parseEdges [edgeTitled "A->B"] = [e] /\ e_source e = str "A".
Proof.
  destruct parseEdge_first_separator as (Hnone & Hsome & _).
  split.
  - apply Hnone. intros Hhas. apply parseEdge_none_iff in Hhas; [exact Hhas |].
    vm_compute. reflexivity.
  - destruct (Hsome (edgeTitled "A->B")) as (pre & sep & post & e & H & _ & He & Hs & _).
    + exists (str "A"), (str "->"), (str "B"). split; [reflexivity |].
      apply (sep_directed 0).
    + exists e. split; [exact He |].
      vm_compute in He. injection He as <-. reflexivity.
Defined.

(** C1, as stated, fails on a title with two separators: the target is
    cut at the second one and is not the whole text after the first. *)
Lemma parseEdge_target_not_remainder :
  FirstSeparator (str "A->B->C") (str "A") (str "->") (str "B->C") /\
  exists e, parseEdges [edgeTitled "A->B->C"] = [e] /\
            e_source e = str "A" /\
            e_target e = str "B" /\
            e_target e <> str "B->C".
Proof.
  split.
  - apply (first_separator_example (str "A") (str "->") (str "B->C") 65%N);
      reflexivity.
  - eexists. split; [vm_compute; reflexivity |].
    split; [reflexivity |]. split; [reflexivity | discriminate].
Qed.

(** C10. The edges of the layout depend on the edge groups alone; a
    group whose title has a separator contributes its edge whatever the
    end points are (for ["->"] both are empty, and no node is named), and
    a group contributes nothing only when its title has no separator. *)
Theorem parseEdges_not_validated :
  (forall doc : Document,
      edges (parseLayout doc) = parseEdges (doc_edges doc)) /\
  (forall (doc : Document) (el : EdgeGroup),
      In el (doc_edges doc) ->
      HasSeparator (orEmpty (eg_title el)) ->
      exists e, parseEdge el = Some e /\
                e_id e = orEmpty (eg_title el) /\
                In e (gd_edges (graphData (parseLayout doc)))) /\
  (forall el : EdgeGroup,
      parseEdge el = None <-> ~ HasSeparator (orEmpty (eg_title el))) /\
  (exists e, gd_edges (graphData (parseLayout (diagram ["A"%string] ["->"%string]))) = [e] /\
             e_source e = [] /\ e_target e = [] /\
             ~ In [] (map n_id (nodes (parseLayout (diagram ["A"%string] ["->"%string]))))).
Proof.
  split; [reflexivity |]. split; [|split; [exact parseEdge_none_iff |]].
  - intros doc el Hin Hhas.
    destruct (parseEdge_cases el)
      as [[Hno _] | (pre & sep & post & t & ts & _ & _ & Hp)];
      [contradiction |].
    eexists. split; [exact Hp |]. split; [reflexivity |].
    cbn [graphData gd_edges parseLayout edges].
    apply in_parseEdges. exists el. split; assumption.
  - eexists. split; [vm_compute; reflexivity |].
    split; [reflexivity |]. split; [reflexivity |].
    vm_compute. intros [H | []]. discriminate.
Qed.

Lemma parseEdges_not_validated_witness :
  exists e, parseEdge (edgeTitled "X->Y") = Some e /\
            e_id e = str "X->Y" /\
            In e (gd_edges (graphData (parseLayout (diagram ["A"%string] ["X->Y"%string])))).
Proof.
  destruct parseEdges_not_validated as (_ & H & _).
  apply (H (diagram ["A"%string] ["X->Y"%string]) (edgeTitled "X->Y")).
  - left. reflexivity.
  - exists (str "X"), (str "->"), (str "Y"). split; [reflexivity |].
    apply (sep_directed 0).
Defined.

Lemma parseNode_id (g : NodeGroup) : n_id (parseNode g) = orEmpty (ng_title g).
Proof.
  unfold parseNode.
  destruct (ng_text g), (ng_ellipse g), (ng_polygon g); reflexivity.
Qed.

Lemma parseNode_name (g : NodeGroup) : n_name (parseNode g) = orEmpty (ng_title g).
Proof.
  unfold parseNode.
  destruct (ng_text g), (ng_ellipse g), (ng_polygon g); reflexivity.
Qed.

(** C9, as the code has it.  The parser pushes one node per node group,
    in document order, whose id and name are the group's title text
    (empty when the group has none); it merges nothing, so the ids are
    pairwise distinct exactly when the titles of the groups are. *)
Theorem parseLayout_node_per_group (doc : Document) :
  let ns := gd_nodes (graphData (parseLayout doc)) in
  let titles := map (fun g => orEmpty (ng_title g)) (doc_nodes doc) in
  length ns = length (doc_nodes doc) /\
  map n_id ns = titles /\
  map n_name ns = titles /\
  (NoDup (map n_id ns) <-> NoDup titles).
Proof.
  cbn [graphData gd_nodes parseLayout nodes].
  assert (Hid : map n_id (map parseNode (doc_nodes doc))
                = map (fun g => orEmpty (ng_title g)) (doc_nodes doc)).
  { rewrite map_map. apply map_ext. exact parseNode_id. }
  split; [apply length_map |]. split; [exact Hid |]. split.
  - rewrite map_map. apply map_ext. exact parseNode_name.
  - rewrite Hid. reflexivity.
Qed.

(** C9, as stated, fails on a diagram with two node groups of the same
    title: both are kept, with the same id. *)
Lemma parseLayout_duplicate_ids :
  map n_id (gd_nodes (graphData (parseLayout (diagram ["A"%string; "A"%string] []))))
    = [str "A"; str "A"] /\
  ~ NoDup (map n_id (gd_nodes (graphData (parseLayout (diagram ["A"%string; "A"%string] []))))).
Proof.
  split; [reflexivity |].
  intros Hnd. vm_compute in Hnd.
  inversion Hnd as [|? ? Hnotin _]. apply Hnotin. left.
Qed.

End ParserProps.

(** ** Selection highlighting *)

Section SelectionProps.

Import Parser Fancy Selection Titles Neighbors.

Lemma connectStep_spec S cn e id :
  id ∈ connectStep S cn e <->
  id ∈ cn \/ (e_source e = S /\ e_target e = id)
          \/ (e_target e = S /\ e_source e = id).
Proof.
  unfold connectStep.
  destruct (decide (e_source e = S)) as [Hs|Hs],
           (decide (e_target e = S)) as [Ht|Ht];
    rewrite ?elem_of_union, ?elem_of_singleton; intuition congruence.
Qed.

Lemma fold_connect_spec S es : forall cn id,
  id ∈ fold_left (connectStep S) es cn <-> id ∈ cn \/ sharesEdge es S id.
Proof.
  unfold sharesEdge.
  induction es as [|e es IH]; intros cn id; cbn [fold_left].
  - split; [auto | intros [H | (e & [] & _)]; exact H].
  - rewrite IH, connectStep_spec. split.
    + intros [[H | H] | (e' & Hin & H)]; [auto | | ].
      * right. exists e. cbn. auto.
      * right. exists e'. cbn. auto.
    + intros [H | (e' & [<- | Hin] & H)]; [auto | auto |].
      right. exists e'. auto.
Qed.

(** The set the effect builds holds exactly the other end points of the
    edges at [S]. *)
Lemma connectedNodes_spec S es id :
  id ∈ connectedNodes S es <-> sharesEdge es S id.
Proof.
  unfold connectedNodes. rewrite fold_connect_spec. split.
  - intros [H | H]; [exfalso; exact (not_elem_of_empty _ H) | exact H].
  - auto.
Qed.

(** A pass over elements that all answer the selector, with a filter
    that raises on none of them, is a map. *)
Lemma restyle_map fancy p (q : NodeElem -> bool) f g rs :
  (forall r, In r rs -> matchesSelector fancy (r_el r) = true) ->
  (forall r, In r rs -> p (r_el r) = Ok (q (r_el r))) ->
  (forall r, g r = if q (r_el r)
                   then {| r_el := r_el r; r_style := f (r_style r) |}
                   else r) ->
  restyle fancy p f rs = Ok (map g rs).
Proof.
  intros Hm Hp Hg.
  induction rs as [|r rs IH]; [reflexivity |].
  cbn [restyle map].
  rewrite IH;
    [| intros r' Hin; apply Hm; right; exact Hin
     | intros r' Hin; apply Hp; right; exact Hin].
  rewrite (Hm r (or_introl eq_refl)), (Hp r (or_introl eq_refl)), Hg.
  reflexivity.
Qed.

Lemma in_map_same_el (g : Rendered -> Rendered) rs r' :
  (forall r, r_el (g r) = r_el r) ->
  In r' (map g rs) -> exists r, In r rs /\ r_el r' = r_el r.
Proof.
  intros Hg Hin. apply in_map_iff in Hin as (r & <- & Hin).
  exists r. split; [exact Hin | apply Hg].
Qed.

Lemma nodeElements_matches fancy doc L r :
  In r (nodeElements fancy doc L) -> matchesSelector fancy (r_el r) = true.
Proof.
  unfold nodeElements. destruct fancy; intros Hin;
    apply in_map_iff in Hin as (? & <- & _); reflexivity.
Qed.

Lemma nodeElements_elemId fancy doc L r :
  (fancy = false -> Forall (fun g => ng_title g <> None) (doc_nodes doc)) ->
  In r (nodeElements fancy doc L) -> exists id, elemId fancy (r_el r) = Ok id.
Proof.
  unfold nodeElements. intros Ht Hin. destruct fancy.
  - apply in_map_iff in Hin as (d & <- & _). cbn. eauto.
  - apply in_map_iff in Hin as (g & <- & Hg). cbn.
    specialize (Ht eq_refl). rewrite List.Forall_forall in Ht.
    specialize (Ht g Hg). destruct (ng_title g); [eauto | contradiction].
Qed.

(** A render effect that completed left the node elements, and in fancy
    mode it resolved the links. *)
Lemma renderNodes_Ok fancy doc L rs :
  renderNodes fancy doc L = Ok rs ->
  rs = nodeElements fancy doc L /\
  (fancy = true -> exists ls, simLinks L = Ok ls).
Proof.
  unfold renderNodes. destruct fancy.
  - destruct (simLinks L) as [ls|m]; cbn [bind]; [|discriminate].
    intros [= <-]. split; [reflexivity | eauto].
  - destruct (colorEdges doc L); cbn [bind]; [|discriminate].
    intros [= <-]. split; [reflexivity | discriminate].
Qed.

(** The fancy render completes exactly when the links resolve. *)
Lemma renderNodes_fancy doc L ls :
  simLinks L = Ok ls -> renderNodes true doc L = Ok (nodeElements true doc L).
Proof. unfold renderNodes. intros ->. reflexivity. Qed.

(** The static render completes when every edge group has a title. *)
Lemma renderNodes_static doc L :
  Forall (fun g => eg_title g <> None) (doc_edges doc) ->
  renderNodes false doc L = Ok (nodeElements false doc L).
Proof.
  intros Ht. unfold renderNodes, colorEdges.
  assert (H : forallb hasTitle (doc_edges doc) = true).
  { apply forallb_forall. intros g Hg. rewrite List.Forall_forall in Ht.
    specialize (Ht g Hg). unfold hasTitle. destruct (eg_title g); congruence. }
  rewrite H, andb_false_r. reflexivity.
Qed.

(** The four passes of the effect over elements whose ids can be read. *)
Lemma highlight_pure fancy S L rs :
  S <> [] ->
  (forall r, In r rs -> matchesSelector fancy (r_el r) = true) ->
  (forall r, In r rs -> exists id, elemId fancy (r_el r) = Ok id) ->
  highlight fancy (Some S) (Some L) rs =
  Ok (map (fun r =>
             let id := idOr fancy (r_el r) in
             {| r_el := r_el r;
                r_style :=
                  let s2 :=
                    if bool_decide (id = S)
                    then {| cls_selected := true; cls_connected := false;
                            opacity := Some 1%Q |}
                    else {| cls_selected := false; cls_connected := false;
                            opacity := Some 0.1%Q |} in
                  if bool_decide (id ∈ connectedNodes S (edges L))
                  then {| cls_selected := cls_selected s2;
                          cls_connected := true;
                          opacity := Some 1%Q |}
                  else s2 |}) rs).
Proof.
  intros HS Hm Hid. unfold highlight.
  assert (Htr : truthy (Some S) = true)
    by (destruct S; [contradiction | reflexivity]).
  rewrite Htr. cbn [orEmpty].
  set (g1 := fun r => {| r_el := r_el r; r_style := plain |}).
  set (g2 := fun r =>
               {| r_el := r_el r;
                  r_style := {| cls_selected := cls_selected (r_style r);
                                cls_connected := cls_connected (r_style r);
                                opacity := Some 0.1%Q |} |}).
  set (g3 := fun r =>
               if bool_decide (idOr fancy (r_el r) = S)
               then {| r_el := r_el r;
                       r_style := {| cls_selected := true;
                                     cls_connected := cls_connected (r_style r);
                                     opacity := Some 1%Q |} |}
               else r).
  set (g4 := fun r =>
               if bool_decide (idOr fancy (r_el r) ∈ connectedNodes S (edges L))
               then {| r_el := r_el r;
                       r_style := {| cls_selected := cls_selected (r_style r);
                                     cls_connected := true;
                                     opacity := Some 1%Q |} |}
               else r).
  assert (E1 : forall r, r_el (g1 r) = r_el r) by reflexivity.
  assert (E2 : forall r, r_el (g2 r) = r_el r) by reflexivity.
  assert (E3 : forall r, r_el (g3 r) = r_el r).
  { intros r. unfold g3. destruct (bool_decide _); reflexivity. }
  assert (Hread : forall el id, elemId fancy el = Ok id ->
            forall P : jsstring -> bool,
              bind (elemId fancy el) (fun id => Ok (P id)) = Ok (P (idOr fancy el))).
  { intros el id Hel P. unfold idOr. rewrite Hel. reflexivity. }
  rewrite (restyle_map fancy always (fun _ => true) _ g1 rs);
    [| exact Hm | reflexivity | reflexivity].
  cbn [bind].
  assert (Hm1 : forall r, In r (map g1 rs) ->
                  matchesSelector fancy (r_el r) = true
                  /\ exists id, elemId fancy (r_el r) = Ok id).
  { intros r Hin. apply (in_map_same_el g1 _ _ E1) in Hin as (r0 & Hin & ->). auto. }
  rewrite (restyle_map fancy always (fun _ => true) _ g2 (map g1 rs));
    [| apply Hm1 | reflexivity | reflexivity].
  cbn [bind].
  assert (Hm2 : forall r, In r (map g2 (map g1 rs)) ->
                  matchesSelector fancy (r_el r) = true
                  /\ exists id, elemId fancy (r_el r) = Ok id).
  { intros r Hin. apply (in_map_same_el g2 _ _ E2) in Hin as (r0 & Hin & ->).
    apply Hm1. exact Hin. }
  rewrite (restyle_map fancy _ (fun el => bool_decide (idOr fancy el = S)) _ g3
             (map g2 (map g1 rs)));
    [| apply Hm2
     | intros r Hin; destruct (Hm2 r Hin) as [_ [id Hel]];
       exact (Hread _ _ Hel (fun id => bool_decide (id = S)))
     | reflexivity].
  cbn [bind].
  assert (Hm3 : forall r, In r (map g3 (map g2 (map g1 rs))) ->
                  matchesSelector fancy (r_el r) = true
                  /\ exists id, elemId fancy (r_el r) = Ok id).
  { intros r Hin. apply (in_map_same_el g3 _ _ E3) in Hin as (r0 & Hin & ->).
    apply Hm2. exact Hin. }
  rewrite (restyle_map fancy _
             (fun el => bool_decide (idOr fancy el ∈ connectedNodes S (edges L)))
             _ g4 (map g3 (map g2 (map g1 rs))));
    [| apply Hm3
     | intros r Hin; destruct (Hm3 r Hin) as [_ [id Hel]];
       exact (Hread _ _ Hel
                (fun id => bool_decide (id ∈ connectedNodes S (edges L))))
     | reflexivity].
  rewrite !map_map. f_equal. apply map_ext. intros r.
  unfold g4, g3, g2, g1. cbn [r_el r_style].
  destruct (bool_decide (idOr fancy (r_el r) = S)); cbn [r_el r_style];
    destruct (bool_decide (idOr fancy (r_el r) ∈ connectedNodes S (edges L)));
    reflexivity.
Qed.

(** Without a selection the effect only clears the styles. *)
Lemma highlight_unselected fancy S L rs :
  truthy S = false ->
  (forall r, In r rs -> matchesSelector fancy (r_el r) = true) ->
  highlight fancy S L rs
  = Ok (map (fun r => {| r_el := r_el r; r_style := plain |}) rs).
Proof.
  intros HS Hm. unfold highlight.
  rewrite (restyle_map fancy always (fun _ => true) _
             (fun r => {| r_el := r_el r; r_style := plain |}) rs);
    [| exact Hm | reflexivity | reflexivity].
  cbn [bind]. rewrite HS. reflexivity.
Qed.

(** C3, as the code has it.  On a diagram whose render effect completed
    (in fancy mode: every edge names nodes, so that the links resolve),
    in either render mode, the highlighting completes (in static mode:
    when every node group carries a title, which the effect reads), and
    the node elements it marks [connected] are exactly those whose id is
    the other end of an edge at the selected id, when that id is not
    empty; with no selection, or the empty string selected, it marks
    none. *)
Theorem highlight_connected_neighbors
    (doc : Document) (fancy : bool) (S : option jsstring) (rs : list Rendered) :
  renderNodes fancy doc (parseLayout doc) = Ok rs ->
  (fancy = false -> Forall (fun g => ng_title g <> None) (doc_nodes doc)) ->
  exists out,
    highlight fancy S (Some (parseLayout doc)) rs = Ok out /\
    map r_el out = map r_el rs /\
    forall r, In r out ->
      exists id, elemId fancy (r_el r) = Ok id /\
        (cls_connected (r_style r) = true
         <-> truthy S = true /\
             sharesEdge (edges (parseLayout doc)) (orEmpty S) id).
Proof.
  intros Hrs Ht. apply renderNodes_Ok in Hrs as [-> _].
  set (L := parseLayout doc).
  destruct (truthy S) eqn:HS.
  - destruct S as [[|c S]|]; try discriminate. cbn [orEmpty].
    eexists. split.
    + apply highlight_pure; [discriminate | apply nodeElements_matches |].
      intros r Hin. exact (nodeElements_elemId fancy doc L r Ht Hin).
    + split; [rewrite map_map; reflexivity |].
      intros r Hin. apply in_map_iff in Hin as (r0 & <- & Hin0).
      destruct (nodeElements_elemId fancy doc L r0 Ht Hin0) as [id Hid].
      exists id. cbn [r_el r_style]. split; [exact Hid |].
      unfold idOr. rewrite Hid. rewrite <- connectedNodes_spec.
      destruct (bool_decide_reflect (id ∈ connectedNodes (c :: S) (edges L)))
        as [Hc|Hc].
      * cbn. split; auto.
      * destruct (bool_decide (id = c :: S)); cbn; split;
          [ discriminate | intros [_ H]; contradiction
          | discriminate | intros [_ H]; contradiction ].
  - eexists. split.
    + apply highlight_unselected; [exact HS | apply nodeElements_matches].
    + split; [rewrite map_map; reflexivity |].
      intros r Hin. apply in_map_iff in Hin as (r0 & <- & Hin0).
      destruct (nodeElements_elemId fancy doc L r0 Ht Hin0) as [id Hid].
      exists id. cbn [r_el r_style plain cls_connected].
      split; [exact Hid |]. split; [discriminate | intros [H _]; discriminate].
Qed.

Lemma highlight_connected_neighbors_witness :
  exists rs out,
    renderNodes true
      (diagram ["A"%string; "B"%string; "C"%string] ["A->B"%string])
      (parseLayout (diagram ["A"%string; "B"%string; "C"%string]
                            ["A->B"%string])) = Ok rs /\
    highlight true (Some (str "A"))
      (Some (parseLayout (diagram ["A"%string; "B"%string; "C"%string]
                                  ["A->B"%string]))) rs = Ok out /\
    map (fun r => cls_connected (r_style r)) out = [false; true; false].
Proof.
  eexists. 
  destruct (highlight_connected_neighbors
              (diagram ["A"%string; "B"%string; "C"%string] ["A->B"%string])
              true (Some (str "A")) _ eq_refl)
    as (out & Hout & _).
  - discriminate.
  - exists out. split; [reflexivity |]. split; [exact Hout |].
    vm_compute in Hout. injection Hout as <-. reflexivity.
Defined.

(** C3, as stated, fails when the selected id is the empty string (the
    id of a node whose title is empty): the diagram renders in either
    mode, the effect treats the empty id as no selection and marks
    nothing, although the node ["B"] shares an edge with it. *)
Lemma highlight_empty_id_marks_nothing :
  let doc := diagram [""%string; "B"%string] ["->B"%string] in
  let L := parseLayout doc in
  sharesEdge (edges L) [] (str "B") /\
  forall fancy : bool,
    exists rs out,
      renderNodes fancy doc L = Ok rs /\
      highlight fancy (Some []) (Some L) rs = Ok out /\
      Forall (fun r => cls_connected (r_style r) = false) out /\
      exists r, In r out /\ elemId fancy (r_el r) = Ok (str "B").
Proof.
  intros doc L. split.
  - eexists. split; [left; reflexivity |]. left. split; reflexivity.
  - intros fancy. destruct fancy.
    + eexists. eexists. split; [vm_compute; reflexivity |].
      split; [vm_compute; reflexivity |]. split.
      * repeat constructor.
      * eexists. split; [right; left; reflexivity | reflexivity].
    + eexists. eexists. split; [vm_compute; reflexivity |].
      split; [vm_compute; reflexivity |]. split.
      * repeat constructor.
      * eexists. split; [right; left; reflexivity | reflexivity].
Qed.

End SelectionProps.

(** ** Fancy mode set-up *)

Section FancyProps.

Import Parser Fancy Geometry.
Import PrimFloat SpecFloat FloatOps FloatAxioms.

#[local] Set Warnings "-inexact-float".

(** *** The order of doubles *)

Lemma lex_Lt e1 m1 e2 m2 :
  match (e1 ?= e2)%Z with
  | Lt => Lt | Gt => Gt | Eq => Pos.compare_cont Eq m1 m2
  end = Lt <-> (e1 < e2)%Z \/ (e1 = e2 /\ (m1 < m2)%positive).
Proof.
  change (Pos.compare_cont Eq m1 m2) with (Pos.compare m1 m2).
  destruct (Z.compare_spec e1 e2); destruct (Pos.compare_spec m1 m2);
    split; intros H'; try discriminate; try reflexivity; lia.
Qed.

Lemma lex_neg_Lt e1 m1 e2 m2 :
  match (e1 ?= e2)%Z with
  | Lt => Gt | Gt => Lt | Eq => CompOpp (Pos.compare_cont Eq m1 m2)
  end = Lt <-> (e2 < e1)%Z \/ (e1 = e2 /\ (m2 < m1)%positive).
Proof.
  change (Pos.compare_cont Eq m1 m2) with (Pos.compare m1 m2).
  destruct (Z.compare_spec e1 e2); destruct (Pos.compare_spec m1 m2);
    split; cbn; intros H'; try discriminate; try reflexivity; lia.
Qed.

(** [<] between finite non-zero doubles: by sign, then exponent, then
    mantissa. *)
Lemma SFltb_finite s1 m1 e1 s2 m2 e2 :
  SFltb (S754_finite s1 m1 e1) (S754_finite s2 m2 e2) = true <->
  match s1, s2 with
  | true, false => True
  | false, true => False
  | false, false => (e1 < e2)%Z \/ (e1 = e2 /\ (m1 < m2)%positive)
  | true, true => (e2 < e1)%Z \/ (e1 = e2 /\ (m2 < m1)%positive)
  end.
Proof.
  unfold SFltb, SFcompare. destruct s1, s2.
  - rewrite <- lex_neg_Lt.
    destruct (match (e1 ?= e2)%Z with Lt => Gt | Gt => Lt | Eq => _ end);
      split; intros; congruence.
  - tauto.
  - split; [discriminate | tauto].
  - rewrite <- lex_Lt.
    destruct (match (e1 ?= e2)%Z with Lt => Lt | Gt => Gt | Eq => _ end);
      split; intros; congruence.
Qed.

Lemma SFltb_irrefl a : SFltb a a = false.
Proof.
  destruct a as [s|s| |s m e]; try (destruct s; reflexivity); try reflexivity.
  apply not_true_is_false. rewrite SFltb_finite. destruct s; lia.
Qed.

Lemma SFltb_trans a b c :
  SFltb a b = true -> SFltb b c = true -> SFltb a c = true.
Proof.
  destruct a as [sa|sa| |sa ma ea], b as [sb|sb| |sb mb eb],
           c as [sc|sc| |sc mc ec];
    try (rewrite !SFltb_finite; destruct sa, sb, sc; lia);
    unfold SFltb, SFcompare;
    repeat match goal with s : bool |- _ => destruct s end;
    try discriminate; try reflexivity.
Qed.

Lemma ltb_irrefl x : (x <? x)%float = false.
Proof. rewrite ltb_spec. apply SFltb_irrefl. Qed.

Lemma ltb_trans x y z :
  (x <? y)%float = true -> (y <? z)%float = true -> (x <? z)%float = true.
Proof. rewrite !ltb_spec. apply SFltb_trans. Qed.

Lemma is_nan_spec x : is_nan x = true <-> Prim2SF x = S754_nan.
Proof.
  unfold is_nan. rewrite eqb_spec. unfold SFeqb.
  destruct (Prim2SF x) as [s|s| |s m e] eqn:E; cbn.
  - split; discriminate.
  - destruct s; split; discriminate.
  - tauto.
  - split; [|discriminate]. intros H. exfalso. revert H.
    destruct s; rewrite Z.compare_refl;
      change (Pos.compare_cont Eq m m) with (Pos.compare m m);
      rewrite Pos.compare_refl; cbn; discriminate.
Qed.

(** Among doubles that are not NaN, [a <= b] is the negation of [b < a]. *)
Lemma SFleb_not_ltb a b :
  a <> S754_nan -> b <> S754_nan -> SFltb b a = false -> SFleb a b = true.
Proof.
  intros Ha Hb.
  destruct a as [sa|sa| |sa ma ea], b as [sb|sb| |sb mb eb];
    try contradiction;
    try (unfold SFltb, SFleb, SFcompare;
         repeat match goal with s : bool |- _ => destruct s end;
         try discriminate; reflexivity).
  intros H. apply not_true_iff_false in H. rewrite SFltb_finite in H.
  unfold SFleb, SFcompare.
  change (Pos.compare_cont Eq ma mb) with (Pos.compare ma mb).
  destruct sa, sb; try reflexivity; try tauto;
    destruct (Z.compare_spec ea eb); destruct (Pos.compare_spec ma mb);
    cbn; try reflexivity; exfalso; lia.
Qed.

Lemma leb_of_not_ltb x y :
  is_nan x = false -> is_nan y = false ->
  (y <? x)%float = false -> (x <=? y)%float = true.
Proof.
  intros Hx Hy. rewrite ltb_spec, leb_spec. apply SFleb_not_ltb.
  - intros E. apply is_nan_spec in E. congruence.
  - intros E. apply is_nan_spec in E. congruence.
Qed.

Lemma not_below_infinity x :
  is_nan x = false -> (x <? infinity)%float = false -> x = infinity.
Proof.
  intros Hn. rewrite ltb_spec. intros H.
  apply Prim2SF_inj.
  change (Prim2SF infinity) with (S754_infinity false) in *.
  destruct (Prim2SF x) as [s|s| |s m e] eqn:E.
  - discriminate.
  - destruct s; [discriminate | reflexivity].
  - apply is_nan_spec in E. congruence.
  - destruct s; discriminate.
Qed.

Lemma not_above_neg_infinity x :
  is_nan x = false -> (neg_infinity <? x)%float = false -> x = neg_infinity.
Proof.
  intros Hn. rewrite ltb_spec. intros H.
  apply Prim2SF_inj.
  change (Prim2SF neg_infinity) with (S754_infinity true) in *.
  destruct (Prim2SF x) as [s|s| |s m e] eqn:E.
  - discriminate.
  - destruct s; [reflexivity | discriminate].
  - apply is_nan_spec in E. congruence.
  - destruct s; discriminate.
Qed.

(** [n.x || 0] is never NaN. *)
Lemma orZero_not_nan x : is_nan (orZero x) = false.
Proof.
  unfold orZero. destruct x as [v|]; [|reflexivity].
  destruct (is_zero v); [reflexivity |]. cbn [orb].
  destruct (is_nan v) eqn:E; [reflexivity | exact E].
Qed.

(** *** The box *)

Lemma bbox_fold_minX ns : forall b,
  minX (fold_left bboxStep ns b) = fold_left stepMin (map rawX ns) (minX b).
Proof. induction ns as [|n ns IH]; intros b; [reflexivity | apply IH]. Qed.

Lemma bbox_fold_maxX ns : forall b,
  maxX (fold_left bboxStep ns b) = fold_left stepMax (map rawX ns) (maxX b).
Proof. induction ns as [|n ns IH]; intros b; [reflexivity | apply IH]. Qed.

Lemma bbox_fold_minY ns : forall b,
  minY (fold_left bboxStep ns b) = fold_left stepMin (map rawY ns) (minY b).
Proof. induction ns as [|n ns IH]; intros b; [reflexivity | apply IH]. Qed.

Lemma bbox_fold_maxY ns : forall b,
  maxY (fold_left bboxStep ns b) = fold_left stepMax (map rawY ns) (maxY b).
Proof. induction ns as [|n ns IH]; intros b; [reflexivity | apply IH]. Qed.

(** The running minimum is its start or one of the values. *)
Lemma fold_stepMin_attained xs : forall m,
  fold_left stepMin xs m = m \/ In (fold_left stepMin xs m) xs.
Proof.
  induction xs as [|x xs IH]; intros m; cbn [fold_left]; [left; reflexivity |].
  destruct (IH (stepMin m x)) as [H | H]; [| right; right; exact H].
  rewrite H. unfold stepMin. destruct (x <? m)%float; [right; left |]; auto.
Qed.

Lemma fold_stepMax_attained xs : forall m,
  fold_left stepMax xs m = m \/ In (fold_left stepMax xs m) xs.
Proof.
  induction xs as [|x xs IH]; intros m; cbn [fold_left]; [left; reflexivity |].
  destruct (IH (stepMax m x)) as [H | H]; [| right; right; exact H].
  rewrite H. unfold stepMax. destruct (m <? x)%float; [right; left |]; auto.
Qed.

(** No value seen lies below the running minimum. *)
Lemma fold_stepMin_below xs : forall m (seen : list number),
  (forall v, In v seen -> (v <? m)%float = false) ->
  forall v, In v (seen ++ xs) -> (v <? fold_left stepMin xs m)%float = false.
Proof.
  induction xs as [|x xs IH]; intros m seen Hseen v Hv; cbn [fold_left].
  - rewrite app_nil_r in Hv. apply Hseen. exact Hv.
  - apply (IH (stepMin m x) (seen ++ [x])).
    + intros w Hw. apply in_app_or in Hw as [Hw | [<- | []]]; unfold stepMin.
      * destruct (x <? m)%float eqn:Hxm; [| apply Hseen; exact Hw].
        destruct (w <? x)%float eqn:Hwx; [|reflexivity].
        rewrite <- (Hseen w Hw). symmetry. exact (ltb_trans _ _ _ Hwx Hxm).
      * destruct (x <? m)%float eqn:Hxm; [apply ltb_irrefl | exact Hxm].
    + rewrite <- app_assoc. exact Hv.
Qed.

Lemma fold_stepMax_above xs : forall m (seen : list number),
  (forall v, In v seen -> (m <? v)%float = false) ->
  forall v, In v (seen ++ xs) -> (fold_left stepMax xs m <? v)%float = false.
Proof.
  induction xs as [|x xs IH]; intros m seen Hseen v Hv; cbn [fold_left].
  - rewrite app_nil_r in Hv. apply Hseen. exact Hv.
  - apply (IH (stepMax m x) (seen ++ [x])).
    + intros w Hw. apply in_app_or in Hw as [Hw | [<- | []]]; unfold stepMax.
      * destruct (m <? x)%float eqn:Hmx; [| apply Hseen; exact Hw].
        destruct (x <? w)%float eqn:Hxw; [|reflexivity].
        rewrite <- (Hseen w Hw). symmetry. exact (ltb_trans _ _ _ Hmx Hxw).
      * destruct (m <? x)%float eqn:Hmx; [apply ltb_irrefl | exact Hmx].
    + rewrite <- app_assoc. exact Hv.
Qed.

(** One side of the box, for a coordinate [f] that is never NaN: over a
    non-empty list of nodes the running minimum from [Infinity] and the
    running maximum from [-Infinity] are coordinates of nodes, and every
    coordinate lies between them. *)
Lemma bbox_side (f : GraphNode -> number) ns :
  ns <> [] ->
  (forall n, is_nan (f n) = false) ->
  let lo := fold_left stepMin (map f ns) infinity in
  let hi := fold_left stepMax (map f ns) neg_infinity in
  (exists n, In n ns /\ f n = lo) /\
  (exists n, In n ns /\ f n = hi) /\
  (forall n, In n ns -> (lo <=? f n)%float = true /\ (f n <=? hi)%float = true).
Proof.
  intros Hne Hnan lo hi.
  assert (Hlow : forall n, In n ns -> (f n <? lo)%float = false).
  { intros n Hn. apply (fold_stepMin_below (map f ns) infinity []).
    - intros v [].
    - cbn [app]. apply in_map. exact Hn. }
  assert (Hhigh : forall n, In n ns -> (hi <? f n)%float = false).
  { intros n Hn. apply (fold_stepMax_above (map f ns) neg_infinity []).
    - intros v [].
    - cbn [app]. apply in_map. exact Hn. }
  assert (Alo : exists n, In n ns /\ f n = lo).
  { destruct (fold_stepMin_attained (map f ns) infinity) as [H | H].
    - destruct ns as [|n ns']; [contradiction |]. exists n.
      split; [left; reflexivity |]. fold lo in H. rewrite H.
      apply not_below_infinity; [apply Hnan |].
      rewrite <- H. apply Hlow. left. reflexivity.
    - apply in_map_iff in H as (n & Hn & Hin). exists n. auto. }
  assert (Ahi : exists n, In n ns /\ f n = hi).
  { destruct (fold_stepMax_attained (map f ns) neg_infinity) as [H | H].
    - destruct ns as [|n ns']; [contradiction |]. exists n.
      split; [left; reflexivity |]. fold hi in H. rewrite H.
      apply not_above_neg_infinity; [apply Hnan |].
      rewrite <- H. apply Hhigh. left. reflexivity.
    - apply in_map_iff in H as (n & Hn & Hin). exists n. auto. }
  split; [exact Alo |]. split; [exact Ahi |].
  intros n Hn.
  destruct Alo as (a & _ & Ha). destruct Ahi as (c & _ & Hc).
  split; apply leb_of_not_ltb;
    rewrite <- ?Ha, <- ?Hc; auto.
  - rewrite Ha. auto.
  - rewrite Hc. auto.
Qed.

(** C4, as the code has it.  Fancy-mode set-up gives every node of the
    parsed graph, in order, a simulation node whose origin is the double
    [center + (raw - center) * 0.5], every operation rounding as doubles
    do; [raw] is the node's static coordinate ([0] when it is zero, NaN
    or missing) and [center = (min + max) / 2] comes from the box of the
    raw coordinates.  Position and pin ([x], [y], [fx], [fy]) equal
    that origin.  For a graph with a node, the four sides of the box are
    coordinates of nodes and every node lies within them. *)
Theorem simNodes_compaction (L : ParsedLayout) :
  let b := bbox (nodes L) in
  let cx := ((minX b + maxX b) / 2)%float in
  let cy := ((minY b + maxY b) / 2)%float in
  map sn_node (simNodes L) = nodes L /\
  (forall d, In d (simNodes L) ->
     sn_originX d = (cx + (rawX (sn_node d) - cx) * 0.5)%float /\
     sn_originY d = (cy + (rawY (sn_node d) - cy) * 0.5)%float /\
     sn_x d = sn_originX d /\ sn_y d = sn_originY d /\
     sn_fx d = Some (sn_originX d) /\ sn_fy d = Some (sn_originY d)) /\
  (nodes L <> [] ->
   (exists n, In n (nodes L) /\ rawX n = minX b) /\
   (exists n, In n (nodes L) /\ rawX n = maxX b) /\
   (exists n, In n (nodes L) /\ rawY n = minY b) /\
   (exists n, In n (nodes L) /\ rawY n = maxY b) /\
   forall n, In n (nodes L) ->
     (minX b <=? rawX n)%float = true /\ (rawX n <=? maxX b)%float = true /\
     (minY b <=? rawY n)%float = true /\ (rawY n <=? maxY b)%float = true).
Proof.
  intros b cx cy. split; [| split].
  - unfold simNodes. rewrite map_map. cbn [simNode sn_node]. apply map_id.
  - intros d Hd. unfold simNodes in Hd.
    apply in_map_iff in Hd as (n & <- & _).
    cbn [simNode sn_node sn_x sn_y sn_fx sn_fy sn_originX sn_originY].
    repeat split.
  - intros Hne.
    pose proof (bbox_fold_minX (nodes L) emptyBBox) as E1.
    pose proof (bbox_fold_maxX (nodes L) emptyBBox) as E2.
    pose proof (bbox_fold_minY (nodes L) emptyBBox) as E3.
    pose proof (bbox_fold_maxY (nodes L) emptyBBox) as E4.
    cbn [emptyBBox minX maxX minY maxY] in E1, E2, E3, E4.
    fold (bbox (nodes L)) in E1, E2, E3, E4. fold b in E1, E2, E3, E4.
    destruct (bbox_side rawX (nodes L) Hne (fun n => orZero_not_nan (n_x n)))
      as (Ax0 & Ax1 & Bx).
    destruct (bbox_side rawY (nodes L) Hne (fun n => orZero_not_nan (n_y n)))
      as (Ay0 & Ay1 & By).
    rewrite <- E1 in Ax0, Bx. rewrite <- E2 in Ax1, Bx.
    rewrite <- E3 in Ay0, By. rewrite <- E4 in Ay1, By.
    split; [exact Ax0 |]. split; [exact Ax1 |].
    split; [exact Ay0 |]. split; [exact Ay1 |].
    intros n Hn. destruct (Bx n Hn) as [Hx0 Hx1]. destruct (By n Hn) as [Hy0 Hy1].
    auto.
Qed.

Lemma simNodes_compaction_witness :
  exists n, In n (nodes (parseLayout spread)) /\
            rawX n = minX (bbox (nodes (parseLayout spread))) /\
            rawX n = 0.1%float.
Proof.
  destruct (simNodes_compaction (parseLayout spread)) as (_ & _ & H).
  destruct H as ((n & Hin & Hn) & _); [discriminate |].
  exists n. split; [exact Hin |]. split; [exact Hn |].
  rewrite Hn. vm_compute. reflexivity.
Defined.

(** C4, as stated, fails on doubles.  With nodes laid out at x = 0.1 and
    x = 0.7 the centre of the box is the double printed as
    0.39999999999999997 and the origins are 0.25 and the double printed
    as 0.5499999999999999, which lies below 0.55.  The centre, the raw
    positions and the origins are finite, and neither origin is at
    exactly half of the way from the centre to the raw position: the
    rounding of the operations moves it. *)
Lemma origin_not_exactly_halfway :
  let L := parseLayout spread in
  let c := centerX (bbox (nodes L)) in
  map rawX (nodes L) = [0.1; 0.7]%float /\
  c = 0x1.9999999999999p-2%float /\
  map sn_originX (simNodes L) = [0.25; 0x1.1999999999999p-1]%float /\
  (0x1.1999999999999p-1 <? 0.55)%float = true /\
  forall d, In d (simNodes L) ->
    (exists qc qr qo,
        exact c = Some qc /\ exact (rawX (sn_node d)) = Some qr /\
        exact (sn_originX d) = Some qo) /\
    ~ halfway c (rawX (sn_node d)) (sn_originX d).
Proof.
  intros L c. split; [vm_compute; reflexivity |].
  split; [vm_compute; reflexivity |].
  split; [vm_compute; reflexivity |].
  split; [vm_compute; reflexivity |].
  intros d [<- | [<- | []]].
  - split; [eexists _, _, _; repeat split; vm_compute; reflexivity |].
    intros (qc & qr & qo & Hc & Hr & Ho & Hh).
    vm_compute in Hc, Hr, Ho.
    injection Hc as <-. injection Hr as <-. injection Ho as <-.
    vm_compute in Hh. discriminate.
  - split; [eexists _, _, _; repeat split; vm_compute; reflexivity |].
    intros (qc & qr & qo & Hc & Hr & Ho & Hh).
    vm_compute in Hc, Hr, Ho.
    injection Hc as <-. injection Hr as <-. injection Ho as <-.
    vm_compute in Hh. discriminate.
Qed.

End FancyProps.

(** ** View transform *)

Section ZoomProps.

Import Parser Fancy Selection Zoom Samples.

Local Open Scope Q_scope.

Lemma clampScale_extent zb v :
  scaleExtent zb = (0.01, 200) -> inExtent (clampScale zb v).
Proof.
  intros Hzb. unfold clampScale, inExtent, qmax, qmin. rewrite Hzb. cbn [fst snd].
  destruct (Qlt_le_dec v 200); destruct (Qlt_le_dec 0.01 _); lra.
Qed.

Lemma qmax_cases a b :
  (a < b /\ qmax a b = b) \/ (b <= a /\ qmax a b = a).
Proof. unfold qmax. destruct (Qlt_le_dec a b); auto. Qed.

Lemma qmin_cases a b :
  (b < a /\ qmin a b = b) \/ (a <= b /\ qmin a b = a).
Proof. unfold qmin. destruct (Qlt_le_dec b a); auto. Qed.

Lemma clampScale_idem zb v :
  clampScale zb (clampScale zb v) == clampScale zb v.
Proof.
  unfold clampScale.
  destruct (scaleExtent zb) as [lo hi]. cbn [fst snd].
  destruct (qmin_cases hi v) as [[H1 ->] | [H1 ->]];
    destruct (qmax_cases lo v) as [[H2 E2] | [H2 E2]];
    destruct (qmax_cases lo hi) as [[H3 E3] | [H3 E3]];
    rewrite ?E2, ?E3;
    repeat (match goal with
            | |- context [qmin ?a ?b] =>
                destruct (qmin_cases a b) as [[? ->] | [? ->]]
            | |- context [qmax ?a ?b] =>
                destruct (qmax_cases a b) as [[? ->] | [? ->]]
            end); lra.
Qed.

(** [scale] lands on the clamped value. *)
Lemma scaleT_k zb t v : k (scaleT zb t v) == clampScale zb v.
Proof.
  unfold scaleT.
  destruct (Qeq_bool (clampScale zb v) (k t)) eqn:He; [|reflexivity].
  apply Qeq_bool_eq in He. symmetry. exact He.
Qed.

Lemma scaleT_extent zb t v :
  scaleExtent zb = (0.01, 200) -> inExtent (k (scaleT zb t v)).
Proof.
  intros Hzb. pose proof (clampScale_extent zb v Hzb) as H.
  pose proof (scaleT_k zb t v) as E. unfold inExtent in *. lra.
Qed.

Lemma scalesOk_emit st svg t :
  scalesOk st -> inExtent (k t) -> scalesOk (emitZoom st svg t).
Proof.
  intros (_ & _ & Hzb) Ht. split; [exact Ht |]. split.
  - intros svg' [= <-]. exact Ht.
  - exact Hzb.
Qed.

Lemma scalesOk_initial : scalesOk initial.
Proof.
  split; [unfold inExtent; cbn; lra |].
  split; intros ? [=].
Qed.

Lemma scalesOk_performZoom dir st st' :
  scalesOk st -> performZoom dir st = Ok st' -> scalesOk st'.
Proof.
  intros Hok. unfold performZoom.
  destruct (svgRef st) as [svg|] eqn:Hsvg; [|intros [= <-]; exact Hok].
  destruct (zoomBehaviorRef st) as [zb|] eqn:Hzb; [|intros [= <-]; exact Hok].
  destruct (focalPoint st svg) as [c|msg]; [|discriminate].
  intros [= <-]. apply scalesOk_emit; [exact Hok |].
  unfold scaleBy, translateT. cbn [k].
  apply scaleT_extent. destruct Hok as (_ & _ & Hext). apply Hext. exact Hzb.
Qed.

Section WithPow.

Variable pow2 : Q -> Q.

Lemma scalesOk_wheeled ev st :
  scalesOk st -> scalesOk (fst (wheeled pow2 ev st)).
Proof.
  intros Hok. unfold wheeled.
  destruct (svgRef st) as [svg|] eqn:Hsvg; [|exact Hok].
  destruct (zoomBehaviorRef st) as [zb|] eqn:Hzb; [|exact Hok].
  destruct (zoomFilter true 0 (selectedNodeId st)); [|exact Hok].
  destruct (Qeq_bool _ _); [exact Hok |].
  cbn [fst]. apply scalesOk_emit; [exact Hok |].
  unfold translateT. cbn [k].
  apply scaleT_extent. destruct Hok as (_ & _ & Hext). apply Hext. exact Hzb.
Qed.

Lemma scalesOk_step op st st' :
  scalesOk st -> step pow2 op st = Ok st' -> scalesOk st'.
Proof.
  intros Hok. destruct op; cbn [step].
  - apply scalesOk_performZoom. exact Hok.
  - apply scalesOk_performZoom. exact Hok.
  - unfold pan.
    destruct (svgRef st) as [svg|] eqn:Hsvg; [|intros [= <-]; exact Hok].
    destruct (zoomBehaviorRef st) as [zb|] eqn:Hzb; [|intros [= <-]; exact Hok].
    intros [= <-]. apply scalesOk_emit; [exact Hok |].
    cbn [translateBy k]. destruct Hok as (_ & Hs & _). apply Hs. exact Hsvg.
  - unfold resetZoom.
    destruct (svgRef st) as [svg|] eqn:Hsvg; [|intros [= <-]; exact Hok].
    destruct (zoomBehaviorRef st) as [zb|] eqn:Hzb; [|intros [= <-]; exact Hok].
    intros [= <-]. apply scalesOk_emit; [exact Hok |].
    unfold inExtent. cbn. lra.
  - unfold exportAsPng.
    destruct (svgRef st) as [svg|] eqn:Hsvg; intros [= <-]; [|exact Hok].
    destruct Hok as (H1 & H2 & H3). split; [exact H1 |]. cbn. split.
    + intros svg' [= <-]. apply H2. exact Hsvg.
    + exact H3.
  - unfold wheel.
    pose proof (scalesOk_wheeled ev st Hok) as Hw.
    destruct (wheeled pow2 ev st) as [st1 consumed]. cbn [fst] in Hw.
    destruct consumed; [intros [= <-]; exact Hw |].
    unfold handleWheel. destruct (truthy (selectedNodeId st1)).
    + destruct (Qlt_le_dec (deltaY ev) 0);
        apply scalesOk_performZoom; exact Hw.
    + intros [= <-]. exact Hw.
  - intros [= <-]. destruct Hok as (H1 & _ & _).
    split; [exact H1 |]. split.
    + intros svg' [= <-]. exact H1.
    + intros zb [= <-]. reflexivity.
  - intros [= <-]. exact Hok.
Qed.

Lemma scalesOk_after op st : scalesOk st -> scalesOk (after pow2 op st).
Proof.
  intros Hok. unfold after.
  destruct (step pow2 op st) as [st'|msg] eqn:Hs; [|exact Hok].
  exact (scalesOk_step op st st' Hok Hs).
Qed.

Lemma scalesOk_run ops : forall st, scalesOk st -> scalesOk (run pow2 ops st).
Proof.
  induction ops as [|op ops IH]; intros st Hok; [exact Hok |].
  cbn [run fold_left]. apply IH. apply scalesOk_after. exact Hok.
Qed.

Lemma scalesOk_viewScale st : scalesOk st -> inExtent (viewScale st).
Proof.
  intros (H1 & H2 & _). unfold viewScale.
  destruct (svgRef st) as [svg|] eqn:Hsvg; [apply H2; reflexivity | exact H1].
Qed.

End WithPow.

(** C6. Whatever [Math.pow] returns, after any sequence of operations on
    the viewer (zoomIn, zoomOut, wheel events, and also pan, reset,
    export, renders and selection changes) the scale of the view
    transform, mounted and saved, lies in [[0.01, 200]]; in particular
    no number of zoomIn calls takes it above 200 and no number of zoomOut
    calls below 0.01. *)
Theorem scale_within_extent :
  (forall (pow2 : Q -> Q) (ops : list Op),
      0.01 <= viewScale (run pow2 ops initial) <= 200 /\
      0.01 <= k (savedTransform (run pow2 ops initial)) <= 200) /\
  (forall (pow2 : Q -> Q) (ops : list Op) (n : nat),
      viewScale (run pow2 (ops ++ repeat OpZoomIn n) initial) <= 200 /\
      0.01 <= viewScale (run pow2 (ops ++ repeat OpZoomOut n) initial)).
Proof.
  split.
  - intros pow2 ops.
    pose proof (scalesOk_run pow2 ops initial scalesOk_initial) as Hok.
    split; [exact (scalesOk_viewScale _ Hok) | exact (proj1 Hok)].
  - intros pow2 ops n. split.
    + exact (proj2 (scalesOk_viewScale _
               (scalesOk_run pow2 _ initial scalesOk_initial))).
    + exact (proj1 (scalesOk_viewScale _
               (scalesOk_run pow2 _ initial scalesOk_initial))).
Qed.

(** C5, as the code has it.  On a mounted diagram a wheel event zooms in
    both states, by different routes.  With nothing selected the zoom
    filter admits the event, d3 rescales by [2 ^ wheelDelta] within the
    extent and [handleWheel] does nothing.  With a node selected the
    filter rejects the event for d3 and [handleWheel] zooms by the fixed
    step, in for a negative [deltaY] and out otherwise, within the
    extent. *)
Theorem wheel_zoom_by_selection
    (pow2 : Q -> Q) (ev : WheelEvent) (st : Viewer)
    (svg : SvgEl) (zb : ZoomBehavior) :
  svgRef st = Some svg ->
  zoomBehaviorRef st = Some zb ->
  (truthy (selectedNodeId st) = false ->
   zoomFilter true 0 (selectedNodeId st) = true /\
   handleWheel ev st = Ok st /\
   exists st', wheel pow2 ev st = Ok st' /\
               viewScale st'
               == clampScale zb (k (zoomT svg) * pow2 (wheelDelta ev))) /\
  (truthy (selectedNodeId st) = true ->
   zoomFilter true 0 (selectedNodeId st) = false /\
   wheeled pow2 ev st = (st, false) /\
   wheel pow2 ev st
   = performZoom (if Qlt_le_dec (deltaY ev) 0 then zoom_in else zoom_out) st /\
   forall c, focalPoint st svg = Ok c ->
     exists st', wheel pow2 ev st = Ok st' /\
                 viewScale st'
                 == clampScale zb
                      (k (zoomT svg)
                       * (if Qlt_le_dec (deltaY ev) 0 then 1.3 else 1 / 1.3))).
Proof.
  intros Hsvg Hzb. split; intros Hsel.
  - split; [unfold zoomFilter; rewrite Hsel; reflexivity |].
    split; [unfold handleWheel; rewrite Hsel; reflexivity |].
    unfold wheel, wheeled. rewrite Hsvg, Hzb.
    unfold zoomFilter. rewrite Hsel. cbn [negb].
    destruct (Qeq_bool (k (zoomT svg))
                (clampScale zb (k (zoomT svg) * pow2 (wheelDelta ev)))) eqn:He.
    + exists st. split; [unfold handleWheel; rewrite Hsel; reflexivity |].
      unfold viewScale. rewrite Hsvg. apply Qeq_bool_eq. exact He.
    + eexists. split; [reflexivity |].
      unfold viewScale. cbn [emitZoom svgRef zoomT translateT k].
      rewrite scaleT_k. apply clampScale_idem.
  - assert (Hw : wheeled pow2 ev st = (st, false)).
    { unfold wheeled. rewrite Hsvg, Hzb. unfold zoomFilter. rewrite Hsel.
      reflexivity. }
    assert (Hh : wheel pow2 ev st
                 = performZoom
                     (if Qlt_le_dec (deltaY ev) 0 then zoom_in else zoom_out) st).
    { unfold wheel. rewrite Hw. unfold handleWheel. rewrite Hsel.
      destruct (Qlt_le_dec (deltaY ev) 0); reflexivity. }
    split; [unfold zoomFilter; rewrite Hsel; reflexivity |].
    split; [exact Hw |]. split; [exact Hh |].
    intros c Hc. rewrite Hh. unfold performZoom. rewrite Hsvg, Hzb, Hc.
    eexists. split; [reflexivity |].
    unfold viewScale. cbn [bind emitZoom svgRef zoomT scaleBy translateT k].
    rewrite scaleT_k.
    destruct (Qlt_le_dec (deltaY ev) 0); reflexivity.
Qed.

Lemma wheel_zoom_by_selection_witness :
  (exists st', wheel pow2_lin wheelUp (viewerOf twoNodes false None) = Ok st' /\
               viewScale st' == 2) /\
  (exists st', wheel pow2_lin wheelUp
                 (viewerOf twoNodes false (Some (str "A"))) = Ok st' /\
               viewScale st' == 1.3).
Proof.
  split.
  - destruct (wheel_zoom_by_selection pow2_lin wheelUp
                (viewerOf twoNodes false None) _ _ eq_refl eq_refl)
      as [H _].
    destruct (H eq_refl) as (_ & _ & st' & Hst' & Hk).
    exists st'. split; [exact Hst' |]. rewrite Hk. vm_compute. reflexivity.
  - destruct (wheel_zoom_by_selection pow2_lin wheelUp
                (viewerOf twoNodes false (Some (str "A"))) _ _ eq_refl eq_refl)
      as [_ H].
    destruct (H eq_refl) as (_ & _ & _ & Hc).
    destruct (Hc _ eq_refl) as (st' & Hst' & Hk).
    exists st'. split; [exact Hst' |]. rewrite Hk. vm_compute. reflexivity.
Defined.

(** C5, as stated, fails with nothing selected: the filter admits the
    wheel event and the scale goes from 1 to 2. *)
Lemma wheel_zooms_without_selection :
  selectedNodeId (viewerOf twoNodes false None) = None /\
  zoomFilter true 0 (selectedNodeId (viewerOf twoNodes false None)) = true /\
  viewScale (viewerOf twoNodes false None) == 1 /\
  exists st', wheel pow2_lin wheelUp (viewerOf twoNodes false None) = Ok st' /\
              viewScale st' == 2 /\
              ~ viewScale st' == viewScale (viewerOf twoNodes false None).
Proof.
  split; [reflexivity |]. split; [reflexivity |]. split; [reflexivity |].
  eexists. split; [vm_compute; reflexivity |].
  split; [reflexivity |]. intros H. vm_compute in H. discriminate.
Qed.

(** The operations do nothing on a viewer without svg handle, and the
    four transform operations nothing without zoom behaviour. *)
Lemma operations_noop_unmounted (st : Viewer) (dx dy : Q) :
  svgRef st = None \/ zoomBehaviorRef st = None ->
  zoomIn st = Ok st /\ zoomOut st = Ok st /\
  pan dx dy st = Ok st /\ resetZoom st = Ok st /\
  (svgRef st = None -> exportAsPng st = Ok st).
Proof.
  intros H. unfold zoomIn, zoomOut, performZoom, pan, resetZoom, exportAsPng.
  destruct (svgRef st) as [svg|], (zoomBehaviorRef st) as [zb|];
    destruct H as [H | H]; try discriminate;
    repeat split; intros; try reflexivity; discriminate.
Qed.

(** In static mode a selected id that matches no node element leaves the
    focal point at the centre of the viewport. *)
Lemma focalPoint_static_miss (st : Viewer) (svg : SvgEl) (sel : jsstring) :
  isFancyMode st = false ->
  selectedNodeId st = Some sel ->
  firstMatch false
    (fun el => bind (titleText el) (fun t => Ok (bool_decide (t = sel))))
    (svg_nodes svg) = Ok None ->
  focalPoint st svg = Ok (clientWidth svg / 2, clientHeight svg / 2).
Proof.
  intros Hmode Hsel Hmiss. unfold focalPoint. rewrite Hmode, Hsel.
  cbn [orEmpty]. destruct (truthy (Some sel)); [|reflexivity].
  rewrite Hmiss. reflexivity.
Qed.

(** In fancy mode the same miss raises: [datum()] is called on the empty
    selection. *)
Lemma focalPoint_fancy_miss (st : Viewer) (svg : SvgEl) (c : N) (sel : jsstring) :
  isFancyMode st = true ->
  selectedNodeId st = Some (c :: sel) ->
  firstMatch true
    (fun el => bind (elemId true el) (fun id => Ok (bool_decide (id = c :: sel))))
    (svg_nodes svg) = Ok None ->
  focalPoint st svg = Throw "TypeError: null has no __data__".
Proof.
  intros Hmode Hsel Hmiss. unfold focalPoint. rewrite Hmode, Hsel.
  cbn [orEmpty truthy]. rewrite Hmiss. reflexivity.
Qed.

(** C8 at the failing input: the diagram of [A -> B] rendered in fancy
    mode while the selected id, ["ghost"], names no node.  [zoomIn] and
    [zoomOut] raise instead of zooming about the centre of the viewport;
    in static mode the same selection zooms about the centre (400, 300)
    of the 800 x 600 viewport. *)
Theorem zoom_fancy_lookup_miss_raises :
  ~ In (str "ghost") (map n_id (nodes (parseLayout twoNodes))) /\
  zoomIn (viewerOf twoNodes true (Some (str "ghost")))
    = Throw "TypeError: null has no __data__" /\
  zoomOut (viewerOf twoNodes true (Some (str "ghost")))
    = Throw "TypeError: null has no __data__" /\
  focalPoint (viewerOf twoNodes false (Some (str "ghost"))) (staticSvg twoNodes)
    = Ok (800 / 2, 600 / 2) /\
  exists st', zoomIn (viewerOf twoNodes false (Some (str "ghost"))) = Ok st' /\
              viewScale st' == 1.3.
Proof.
  split.
  { vm_compute. intros [H | [H | []]]; discriminate. }
  split; [vm_compute; reflexivity |].
  split; [vm_compute; reflexivity |].
  split; [vm_compute; reflexivity |].
  eexists. split; [vm_compute; reflexivity |]. reflexivity.
Qed.

End ZoomProps.

(** ** Application shell *)

Section ShellProps.

Import Shell.

Lemma dispatch_keeps_modes st a :
  implb (isFreeMove st) (isFancyMode st) = true ->
  implb (isFreeMove (dispatch st a)) (isFancyMode (dispatch st a)) = true.
Proof.
  unfold dispatch. destruct a; cbn [offered handle]; try (intros H; exact H).
  - destruct st as [sel [] []]; reflexivity.
  - destruct st as [sel [] []]; cbn; intros H; try reflexivity; discriminate.
  - intros _. cbn. reflexivity.
Qed.

Lemma run_keeps_modes actions : forall st,
  implb (isFreeMove st) (isFancyMode st) = true ->
  implb (isFreeMove (run actions st)) (isFancyMode (run actions st)) = true.
Proof.
  induction actions as [|a actions IH]; intros st H; [exact H |].
  cbn [run fold_left]. apply IH. apply dispatch_keeps_modes. exact H.
Qed.

(** X1. Whatever the user does (fancy-mode button, free-move button
    where the toolbar shows it, graph updates, selections, reset), free
    move is never on outside fancy mode; and switching fancy mode off
    and on again always comes back with free move off. *)
Theorem freeMove_only_in_fancy (actions : list Action) :
  implb (isFreeMove (run actions initial))
        (isFancyMode (run actions initial)) = true /\
  isFreeMove (run (actions ++ [ToggleFancy; ToggleFancy]) initial) = false.
Proof.
  pose proof (run_keeps_modes actions initial eq_refl) as H.
  split; [exact H |].
  unfold run in *. rewrite fold_left_app. cbn [fold_left].
  destruct (fold_left dispatch actions initial) as [sel [] []];
    cbn in *; try reflexivity; discriminate.
Qed.

End ShellProps.

(** ** Sidebar *)

Section SidebarProps.

Import Sidebar Counts.

Lemma bump_lookup (k : jsstring) (m : gmap jsstring nat) (j : jsstring) :
  default 0%nat (bump k m !! j)
  = (default 0%nat (m !! j) + if bool_decide (k = j) then 1 else 0)%nat.
Proof.
  unfold bump. destruct (bool_decide_reflect (k = j)) as [<-|Hne].
  - rewrite lookup_insert_eq. reflexivity.
  - rewrite lookup_insert_ne by exact Hne. lia.
Qed.

Lemma bump_is_Some (k : jsstring) (m : gmap jsstring nat) (j : jsstring) :
  is_Some (bump k m !! j) <-> k = j \/ is_Some (m !! j).
Proof.
  unfold bump. rewrite lookup_insert_is_Some.
  destruct (decide (k = j)); intuition.
Qed.

Lemma initDegrees_lookup ns : forall (m : gmap jsstring nat) (j : jsstring),
  default 0%nat (fold_left (fun m n => <[n_id n := 0%nat]> m) ns m !! j)
  = default 0%nat (m !! j) \/
  default 0%nat (fold_left (fun m n => <[n_id n := 0%nat]> m) ns m !! j) = 0%nat.
Proof.
  induction ns as [|n ns IH]; intros m j; cbn [fold_left]; [auto |].
  destruct (IH (<[n_id n := 0%nat]> m) j) as [H | H]; [|auto].
  rewrite H. destruct (decide (n_id n = j)) as [<-|Hne].
  - rewrite lookup_insert_eq. auto.
  - rewrite lookup_insert_ne by exact Hne. auto.
Qed.

Lemma initDegrees_is_Some ns : forall (m : gmap jsstring nat) (j : jsstring),
  is_Some (fold_left (fun m n => <[n_id n := 0%nat]> m) ns m !! j)
  <-> In j (map n_id ns) \/ is_Some (m !! j).
Proof.
  induction ns as [|n ns IH]; intros m j; cbn [fold_left map In].
  - intuition.
  - rewrite IH, lookup_insert_is_Some.
    destruct (decide (n_id n = j)); intuition.
Qed.

Lemma countDegrees_fold es : forall (m : gmap jsstring nat) (j : jsstring),
  default 0%nat (fold_left countDegrees es m !! j)
  = (default 0%nat (m !! j) + degreeOf es j)%nat.
Proof.
  unfold degreeOf.
  induction es as [|e es IH]; intros m j; cbn [fold_left List.filter length].
  - lia.
  - rewrite IH. unfold countDegrees. rewrite !bump_lookup.
    destruct (bool_decide (e_source e = j)), (bool_decide (e_target e = j));
      cbn [length]; lia.
Qed.

Lemma countDegrees_is_Some es : forall (m : gmap jsstring nat) (j : jsstring),
  is_Some (fold_left countDegrees es m !! j)
  <-> isEndpoint es j \/ is_Some (m !! j).
Proof.
  unfold isEndpoint.
  induction es as [|e es IH]; intros m j; cbn [fold_left].
  - split; [auto | intros [(e & [] & _) | H]; exact H].
  - rewrite IH. unfold countDegrees. rewrite !bump_is_Some. split.
    + intros [(e' & Hin & He') | [H | [H | H]]]; [| | |auto].
      * left. exists e'. cbn. auto.
      * left. exists e. cbn. auto.
      * left. exists e. cbn. auto.
    + intros [(e' & [<- | Hin] & He') | H]; [| |auto].
      * destruct He'; auto.
      * left. exists e'. auto.
Qed.

(** X2. The degree the statistics hold for an id is the number of edge
    ends at that id (edges leaving it plus edges entering it, a loop
    counting twice); the map has an entry exactly for the node ids and
    the edge ends, so an end that names no node is counted as well. *)
Theorem nodeDegrees_counts_edge_ends (gd : GraphData) (id : jsstring) :
  default 0%nat (nodeDegrees gd !! id) = degreeOf (gd_edges gd) id /\
  (is_Some (nodeDegrees gd !! id)
   <-> In id (map n_id (gd_nodes gd)) \/ isEndpoint (gd_edges gd) id) /\
  (forall n, In n (gd_nodes gd) ->
             degreeShown gd n = degreeOf (gd_edges gd) (n_id n)).
Proof.
  assert (H0 : forall j, default 0%nat (initDegrees (gd_nodes gd) !! j) = 0%nat).
  { intros j. unfold initDegrees.
    destruct (initDegrees_lookup (gd_nodes gd) ∅ j) as [H | H]; [|exact H].
    rewrite H, lookup_empty. reflexivity. }
  assert (Hd : forall j, default 0%nat (nodeDegrees gd !! j)
                         = degreeOf (gd_edges gd) j).
  { intros j. unfold nodeDegrees. rewrite countDegrees_fold, H0. reflexivity. }
  split; [apply Hd |]. split.
  - unfold nodeDegrees, initDegrees.
    rewrite countDegrees_is_Some, initDegrees_is_Some, lookup_empty.
    split; [intros [H | [H | H]] | intros [H | H]]; auto.
    destruct H as [? H]. discriminate.
  - intros n _. apply Hd.
Qed.

Lemma nodeDegrees_counts_edge_ends_witness :
  degreeShown
    {| gd_nodes := [Geometry.nodeNamed "A"; Geometry.nodeNamed "B"];
       gd_edges := [edgeFromTo "A" "B"; edgeFromTo "A" "A"] |}
    (Geometry.nodeNamed "A") = 3%nat.
Proof.
  destruct (nodeDegrees_counts_edge_ends
              {| gd_nodes := [Geometry.nodeNamed "A"; Geometry.nodeNamed "B"];
                 gd_edges := [edgeFromTo "A" "B"; edgeFromTo "A" "A"] |}
              (str "A")) as (_ & _ & H).
  rewrite (H (Geometry.nodeNamed "A")); [reflexivity | left; reflexivity].
Defined.

Lemma totalDegree_insert (m : gmap jsstring nat) (k : jsstring) (v : nat) :
  (totalDegree (<[k := v]> m) + default 0%nat (m !! k) = totalDegree m + v)%nat.
Proof.
  unfold totalDegree.
  assert (Hcomm : forall (m' : gmap jsstring nat) j1 j2 z1 z2 y,
             j1 <> j2 -> m' !! j1 = Some z1 -> m' !! j2 = Some z2 ->
             (z1 + (z2 + y) = z2 + (z1 + y))%nat) by (intros; lia).
  destruct (m !! k) as [x|] eqn:Hk.
  - rewrite (map_fold_delete_L _ _ k x m (Hcomm m) Hk).
    rewrite <- (insert_delete_eq m k v).
    rewrite (map_fold_insert_L _ _ k v (delete k m)
               (Hcomm (<[k:=v]> (delete k m))) (lookup_delete_eq m k)).
    cbn [default id]. cbv beta. lia.
  - rewrite (map_fold_insert_L _ _ k v m (Hcomm (<[k:=v]> m)) Hk).
    cbn [default id]. cbv beta. lia.
Qed.

Lemma totalDegree_bump (m : gmap jsstring nat) (k : jsstring) : totalDegree (bump k m) = S (totalDegree m).
Proof.
  unfold bump.
  pose proof (totalDegree_insert m k (default 0%nat (m !! k) + 1)%nat). lia.
Qed.

Lemma totalDegree_init ns : forall m : gmap jsstring nat,
  totalDegree m = 0%nat ->
  totalDegree (fold_left (fun m n => <[n_id n := 0%nat]> m) ns m) = 0%nat.
Proof.
  induction ns as [|n ns IH]; intros m Hm; cbn [fold_left]; [exact Hm |].
  apply IH. pose proof (totalDegree_insert m (n_id n) 0%nat). lia.
Qed.

Lemma totalDegree_fold es : forall m,
  totalDegree (fold_left countDegrees es m)
  = (totalDegree m + 2 * length es)%nat.
Proof.
  induction es as [|e es IH]; intros m; cbn [fold_left length]; [lia |].
  rewrite IH. unfold countDegrees. rewrite !totalDegree_bump. lia.
Qed.

(** X3. The degrees held by the statistics add up to twice the number
    of edges, for every graph, consistent or not. *)
Theorem nodeDegrees_handshake (gd : GraphData) :
  totalDegree (nodeDegrees gd) = (2 * length (gd_edges gd))%nat.
Proof.
  unfold nodeDegrees. rewrite totalDegree_fold.
  unfold initDegrees. rewrite totalDegree_init; [lia |].
  unfold totalDegree. apply map_fold_empty.
Qed.







Lemma merge_new_items (prev remote : list ExampleGraph) :
  mergePresets prev remote
  = prev ++ List.filter
              (fun p => negb (bool_decide
                 (ex_name p ∈ (list_to_set (map ex_name prev) : gset jsstring))))
              remote.
Proof.
  unfold mergePresets. destruct (List.filter _ remote); [|reflexivity].
  rewrite app_nil_r. reflexivity.
Qed.

Lemma filter_all_false {A} (f : A -> bool) (l : list A) :
  (forall x, In x l -> f x = false) -> List.filter f l = [].
Proof.
  induction l as [|x l IH]; intros H; [reflexivity |].
  cbn [List.filter]. rewrite (H x (or_introl eq_refl)).
  apply IH. intros y Hy. apply H. right. exact Hy.
Qed.

(** X6. Merging the presets the server sends keeps the presets already
    listed, in place, and appends exactly the remote presets whose name
    was not listed; afterwards every remote name is listed, and merging
    the same answer again changes nothing. *)
Theorem mergePresets_appends_new (prev remote : list ExampleGraph) :
  (exists extra,
      mergePresets prev remote = prev ++ extra /\
      forall p, In p extra
                <-> In p remote /\ ~ In (ex_name p) (map ex_name prev)) /\
  (forall p, In p remote ->
             In (ex_name p) (map ex_name (mergePresets prev remote))) /\
  mergePresets (mergePresets prev remote) remote = mergePresets prev remote.
Proof.
  assert (Hmem : forall (l : list ExampleGraph) p,
            negb (bool_decide
                    (ex_name p ∈ (list_to_set (map ex_name l) : gset jsstring)))
            = true <-> ~ In (ex_name p) (map ex_name l)).
  { intros l p. rewrite negb_true_iff, bool_decide_eq_false.
    rewrite elem_of_list_to_set, list_elem_of_In. reflexivity. }
  assert (Hall : forall p, In p remote ->
            In (ex_name p) (map ex_name (mergePresets prev remote))).
  { intros p Hp. rewrite merge_new_items, map_app, in_app_iff.
    destruct (decide (ex_name p ∈ map ex_name prev)) as [Hin | Hnot];
      rewrite list_elem_of_In in *; [left; exact Hin |].
    right. apply in_map. apply List.filter_In. split; [exact Hp |].
    apply Hmem. exact Hnot. }
  split; [|split; [exact Hall |]].
  - eexists. split; [apply merge_new_items |].
    intros p. rewrite List.filter_In, Hmem. reflexivity.
  - rewrite (merge_new_items (mergePresets prev remote) remote).
    rewrite filter_all_false; [apply app_nil_r |].
    intros p Hp. apply not_true_iff_false. rewrite Hmem.
    intros Hnot. apply Hnot. apply Hall. exact Hp.
Qed.

Lemma mergePresets_appends_new_witness :
  In (str "remote")
     (map ex_name (mergePresets [preset "local"] [preset "local"; preset "remote"])).
Proof.
  destruct (mergePresets_appends_new [preset "local"]
              [preset "local"; preset "remote"]) as (_ & H & _).
  apply (H (preset "remote")). right. left. reflexivity.
Defined.

Lemma nodesOfColor_snoc ns n c :
  nodesOfColor (ns ++ [n]) c
  = (nodesOfColor ns c
     + if bool_decide (legendColor n = Some c) then 1 else 0)%nat.
Proof.
  unfold nodesOfColor. rewrite List.filter_app, length_app.
  cbn [List.filter]. destruct (bool_decide _); reflexivity.
Qed.

(** What the loop of the legend has built after the nodes [ns]. *)
Lemma legend_fold_spec ns :
  let acc := fold_left legendStep ns ([], ∅) in
  NoDup (fst acc) /\
  forall c : jsstring,
    (In c (fst acc) <-> nodesOfColor ns c <> 0%nat) /\
    (snd acc !! c
     = if decide (nodesOfColor ns c = 0%nat) then None
       else Some (nodesOfColor ns c)).
Proof.
  induction ns as [|n ns IH] using rev_ind.
  - cbn. split; [constructor |]. intros c. split; [tauto |].
    rewrite lookup_empty. reflexivity.
  - cbn zeta in *. rewrite fold_left_app. cbn [fold_left].
    destruct (fold_left legendStep ns ([], ∅)) as [colors counts].
    cbn [fst snd] in IH. destruct IH as [Hnd Hc].
    unfold legendStep. cbn [fst snd].
    destruct (legendColor n) as [c0|] eqn:Hn.
    + cbn [fst snd]. split.
      * destruct (bool_decide_reflect (c0 ∈ colors)) as [Hin|Hnot]; [exact Hnd |].
        apply NoDup_app. split; [exact Hnd |]. split; [|repeat constructor; set_solver].
        intros x Hx Hx0. apply list_elem_of_singleton in Hx0. subst x.
        contradiction.
      * intros c. rewrite nodesOfColor_snoc, Hn.
        destruct (Hc c) as [Hin Hlook].
        destruct (bool_decide_reflect (Some c0 = Some c)) as [[= <-]|Hne].
        -- split.
           ++ split; [intros _; lia |]. intros _.
              destruct (bool_decide_reflect (c0 ∈ colors)) as [Hi|Hi].
              ** apply list_elem_of_In. exact Hi.
              ** apply in_or_app. right. left. reflexivity.
           ++ rewrite lookup_insert_eq, Hlook.
              destruct (decide (nodesOfColor ns c0 = 0%nat)) as [->|Hz];
                cbn [default id];
                destruct (decide _) as [Hz'|_]; try lia; f_equal; lia.
        -- assert (Hc0 : c0 <> c) by congruence.
           rewrite Nat.add_0_r. split.
           ++ rewrite <- Hin.
              destruct (bool_decide (c0 ∈ colors)); [reflexivity |].
              rewrite in_app_iff. cbn [In]. intuition.
           ++ rewrite lookup_insert_ne by exact Hc0. exact Hlook.
    + cbn [fst snd]. split; [exact Hnd |]. intros c.
      rewrite nodesOfColor_snoc, Hn.
      destruct (bool_decide_reflect (None = Some c)) as [Habs|_]; [discriminate |].
      rewrite Nat.add_0_r. apply Hc.
Qed.

Lemma legendColor_listed n c :
  legendColor n = Some c -> c <> [] /\ c <> str "none" /\ c <> str "black".
Proof.
  unfold legendColor.
  set (c0 := if truthy (n_fillcolor n) then n_fillcolor n else n_color n).
  destruct (truthy c0) eqn:Ht; cbn [andb]; [|discriminate].
  destruct (bool_decide_reflect (orEmpty c0 = str "none")) as [|Hn];
    cbn [negb andb]; [discriminate |].
  destruct (bool_decide_reflect (orEmpty c0 = str "black")) as [|Hb];
    cbn [negb]; [discriminate |].
  intros ->. cbn [orEmpty] in *. split; [|split; assumption].
  intros ->. discriminate.
Qed.

(** X7. The legend lists each colour once; a colour is listed exactly
    when some node bears it as fill colour (or, without fill colour, as
    outline colour), and its count is the number of those nodes; the
    empty colour, ["none"] and ["black"] are never listed. *)
Theorem legendColors_counts_nodes (ns : list GraphNode) :
  NoDup (map fst (legendColors ns)) /\
  (forall c k, In (c, k) (legendColors ns)
               <-> k = Some (nodesOfColor ns c) /\ nodesOfColor ns c <> 0%nat) /\
  (forall c k, In (c, k) (legendColors ns) ->
               c <> [] /\ c <> str "none" /\ c <> str "black").
Proof.
  pose proof (legend_fold_spec ns) as H. cbn zeta in H.
  unfold legendColors.
  destruct (fold_left legendStep ns ([], ∅)) as [colors counts].
  cbn [fst snd] in H. destruct H as [Hnd Hc].
  assert (Hin : forall c k, In (c, k) (map (fun c => (c, counts !! c)) colors)
                  <-> k = Some (nodesOfColor ns c) /\ nodesOfColor ns c <> 0%nat).
  { intros c k. rewrite in_map_iff. destruct (Hc c) as [Hcol Hlook]. split.
    - intros (c' & [= -> <-] & Hc'). apply Hcol in Hc'.
      rewrite Hlook. destruct (decide _); [contradiction | auto].
    - intros [-> Hnz]. exists c. split; [|apply Hcol; exact Hnz].
      rewrite Hlook. destruct (decide _); [contradiction | reflexivity]. }
  split; [|split; [exact Hin |]].
  - rewrite map_map. cbn [fst]. rewrite map_id. exact Hnd.
  - intros c k Hk. apply Hin in Hk as [_ Hnz].
    unfold nodesOfColor in Hnz.
    destruct (List.filter _ ns) as [|n l] eqn:Hf; [contradiction |].
    assert (Hn : In n (List.filter
                         (fun n => bool_decide (legendColor n = Some c)) ns))
      by (rewrite Hf; left; reflexivity).
    apply List.filter_In in Hn as [_ Hb]. apply bool_decide_eq_true in Hb.
    exact (legendColor_listed n c Hb).
Qed.

Lemma legendColors_counts_nodes_witness :
  str "red" <> str "black" /\
  In (str "red", Some 1%nat)
     (legendColors
        [ {| n_id := str "A"; n_name := str "A";
             n_color := Some (str "black"); n_fillcolor := Some (str "red");
             n_x := None; n_y := None; n_shapeType := ellipse |} ]).
Proof.
  destruct (legendColors_counts_nodes
              [ {| n_id := str "A"; n_name := str "A";
                   n_color := Some (str "black"); n_fillcolor := Some (str "red");
                   n_x := None; n_y := None; n_shapeType := ellipse |} ]) as (_ & Hiff & H).
  assert (Hin : In (str "red", Some 1%nat)
                  (legendColors
                     [ {| n_id := str "A"; n_name := str "A";
                          n_color := Some (str "black");
                          n_fillcolor := Some (str "red");
                          n_x := None; n_y := None; n_shapeType := ellipse |} ])).
  { apply Hiff. split; [reflexivity | discriminate]. }
  split; [exact (proj2 (proj2 (H _ _ Hin))) | exact Hin].
Defined.

End SidebarProps.

(** ** Fancy mode: links and neighbours *)

Section LinkProps.

Import Parser Fancy Selection Neighbors Simulation.

Lemma indexNodes_is_Some ns : forall (i : nat) (m : gmap jsstring nat) (id : jsstring),
  is_Some (indexNodes i ns m !! id)
  <-> In id (map (fun d => n_id (sn_node d)) ns) \/ is_Some (m !! id).
Proof.
  induction ns as [|d ns IH]; intros i m id; cbn [indexNodes map In].
  - intuition.
  - rewrite IH, lookup_insert_is_Some.
    destruct (decide (n_id (sn_node d) = id)); intuition.
Qed.

Lemma indexNodes_lookup ns : forall (i : nat) (m : gmap jsstring nat) (id : jsstring) k,
  indexNodes i ns m !! id = Some k ->
  (exists j d, k = (i + j)%nat /\ ns !! j = Some d /\ n_id (sn_node d) = id)
  \/ m !! id = Some k.
Proof.
  induction ns as [|d ns IH]; intros i m id k; cbn [indexNodes].
  - auto.
  - intros H. apply IH in H as [(j & d' & -> & Hj & Hid) | H].
    + left. exists (S j), d'. split; [lia |]. split; assumption.
    + destruct (decide (n_id (sn_node d) = id)) as [<-|Hne].
      * rewrite lookup_insert_eq in H. injection H as <-.
        left. exists 0%nat, d. split; [lia |]. split; reflexivity.
      * rewrite lookup_insert_ne in H by exact Hne. auto.
Qed.

Lemma nodeById_idAt ns id k : nodeById ns !! id = Some k -> idAt ns k = id.
Proof.
  intros H. apply indexNodes_lookup in H as [(j & d & -> & Hj & Hid) | H].
  - unfold idAt. cbn. rewrite Hj. exact Hid.
  - rewrite lookup_empty in H. discriminate.
Qed.

Lemma nodeById_is_Some ns id :
  is_Some (nodeById ns !! id) <-> In id (map (fun d => n_id (sn_node d)) ns).
Proof.
  unfold nodeById. rewrite indexNodes_is_Some, lookup_empty.
  split; [intros [H | [? H]]; [exact H | discriminate] | auto].
Qed.

Lemma find_Ok (m : gmap jsstring nat) id :
  (exists i, find m id = Ok i) <-> is_Some (m !! id).
Proof.
  unfold find. destruct (m !! id) as [i|].
  - split; eauto.
  - split; [intros [i H]; discriminate | intros [i H]; discriminate].
Qed.

Lemma resolveLinks_Ok (m : gmap jsstring nat) es :
  (exists ls, resolveLinks m es = Ok ls)
  <-> forall e, In e es -> is_Some (m !! e_source e) /\ is_Some (m !! e_target e).
Proof.
  induction es as [|e es IH]; cbn [resolveLinks].
  - split; [intros _ e [] | eauto].
  - unfold resolveLink, find. split.
    + intros [ls H] e' [<- | Hin].
      * destruct (m !! e_source e); [|discriminate].
        destruct (m !! e_target e); [|discriminate]. split; eauto.
      * destruct (m !! e_source e); [|discriminate].
        destruct (m !! e_target e); [|discriminate]. cbn [bind] in H.
        destruct (resolveLinks m es) as [ls'|] eqn:Hr; [|discriminate].
        apply (proj1 IH); eauto.
    + intros H. destruct (H e (or_introl eq_refl)) as [[s Hs] [t Ht]].
      rewrite Hs, Ht. cbn [bind].
      destruct (proj2 IH) as [ls Hls].
      { intros e' He'. apply H. right. exact He'. }
      rewrite Hls. eauto.
Qed.

Lemma resolveLinks_ends (m : gmap jsstring nat) es : forall ls,
  resolveLinks m es = Ok ls ->
  map l_edge ls = es /\
  forall l, In l ls ->
    m !! e_source (l_edge l) = Some (l_source l) /\
    m !! e_target (l_edge l) = Some (l_target l).
Proof.
  induction es as [|e es IH]; intros ls; cbn [resolveLinks].
  - intros [= <-]. split; [reflexivity | intros l []].
  - unfold resolveLink, find.
    destruct (m !! e_source e) as [s|] eqn:Hs; [|discriminate].
    destruct (m !! e_target e) as [t|] eqn:Ht; [|discriminate]. cbn [bind].
    destruct (resolveLinks m es) as [ls'|] eqn:Hr; [|discriminate].
    intros [= <-]. destruct (IH ls' eq_refl) as [Hmap Hall].
    split; [cbn; rewrite Hmap; reflexivity |].
    intros l [<- | Hl]; [cbn; auto | apply Hall; exact Hl].
Qed.

Lemma simNodes_ids L :
  map (fun d => n_id (sn_node d)) (simNodes L) = map n_id (Parser.nodes L).
Proof. unfold simNodes. rewrite map_map. reflexivity. Qed.

(** The links that were built: one per edge, in order, each end a node
    bearing the id the edge names. *)
Lemma simLinks_ends (L : Parser.ParsedLayout) ls :
  simLinks L = Ok ls ->
  map l_edge ls = edges L /\
  forall l, In l ls ->
    idAt (simNodes L) (l_source l) = e_source (l_edge l) /\
    idAt (simNodes L) (l_target l) = e_target (l_edge l).
Proof.
  unfold simLinks. intros H. apply resolveLinks_ends in H as [Hmap Hall].
  split; [exact Hmap |]. intros l Hl. destruct (Hall l Hl) as [Hs Ht].
  split; apply nodeById_idAt; assumption.
Qed.

(** X8. Fancy mode builds its links exactly when every edge of the
    graph names nodes at both ends; with one end that names no node the
    set-up raises ("node not found").  When it succeeds there is one
    link per edge, in order, and each end of a link is a node bearing
    the id the edge names. *)
Theorem simLinks_needs_known_ends (L : ParsedLayout) :
  ((exists ls, simLinks L = Ok ls)
   <-> forall e, In e (edges L) ->
         In (e_source e) (map n_id (Parser.nodes L)) /\
         In (e_target e) (map n_id (Parser.nodes L))) /\
  (forall ls, simLinks L = Ok ls ->
     map l_edge ls = edges L /\
     forall l, In l ls ->
       idAt (simNodes L) (l_source l) = e_source (l_edge l) /\
       idAt (simNodes L) (l_target l) = e_target (l_edge l)).
Proof.
  unfold simLinks. split.
  - rewrite resolveLinks_Ok.
    split; intros H e He; specialize (H e He);
      rewrite !nodeById_is_Some, simNodes_ids in *; exact H.
  - intros ls H. fold (simLinks L) in H. exact (simLinks_ends L ls H).
Qed.

Lemma simLinks_needs_known_ends_witness :
  exists ls,
    simLinks (parseLayout (Titles.diagram ["A"%string; "B"%string]
                                          ["A->B"%string])) = Ok ls /\
    length ls = 1%nat.
Proof.
  destruct (simLinks_needs_known_ends
              (parseLayout (Titles.diagram ["A"%string; "B"%string]
                                           ["A->B"%string]))) as [Hiff Hends].
  destruct (proj2 Hiff) as [ls Hls].
  - intros e [<- | []]. split; [left | right; left]; reflexivity.
  - exists ls. split; [exact Hls |].
    destruct (Hends ls Hls) as [Hmap _].
    apply (f_equal (@length _)) in Hmap. rewrite length_map in Hmap. exact Hmap.
Defined.

(** The nodes [getNeighbors] returns bear exactly the ids at the other
    end of an edge at the node. *)
Lemma getNeighbors_ids
    (L : ParsedLayout) (ls : list Link) (d : nat) (id : jsstring) :
  simLinks L = Ok ls ->
  (exists j, In j (getNeighbors (simNodes L) ls d) /\ idAt (simNodes L) j = id)
  <-> sharesEdge (edges L) (idAt (simNodes L) d) id.
Proof.
  intros Hls. apply simLinks_ends in Hls as [Hmap Hends].
  unfold sharesEdge, getNeighbors.
  rewrite <- Hmap. split.
  - intros (j & Hj & Hid). apply in_flat_map in Hj as (l & Hl & Hj).
    destruct (Hends l Hl) as [Hs Ht]. rewrite Hs, Ht in Hj.
    exists (l_edge l). split; [apply in_map; exact Hl |].
    destruct (decide (e_source (l_edge l) = idAt (simNodes L) d)) as [Hsd|Hsd].
    + destruct Hj as [<- | []]. left. split; [exact Hsd | congruence].
    + destruct (decide (e_target (l_edge l) = idAt (simNodes L) d)) as [Htd|Htd];
        [|destruct Hj].
      destruct Hj as [<- | []]. right. split; [exact Htd | congruence].
  - intros (e & He & Hcase). apply in_map_iff in He as (l & <- & Hl).
    destruct (Hends l Hl) as [Hs Ht].
    destruct (decide (e_source (l_edge l) = idAt (simNodes L) d)) as [Hsd|Hsd].
    + exists (l_target l). split.
      * apply in_flat_map. exists l. split; [exact Hl |].
        rewrite Hs. rewrite decide_True by exact Hsd. left. reflexivity.
      * rewrite Ht. destruct Hcase as [[_ H] | [H1 H2]]; congruence.
    + destruct Hcase as [[H _] | [Htd Hid]]; [contradiction |].
      exists (l_source l). split.
      * apply in_flat_map. exists l. split; [exact Hl |].
        rewrite Hs, Ht. rewrite decide_False by exact Hsd.
        rewrite decide_True by exact Htd. left. reflexivity.
      * rewrite Hs. exact Hid.
Qed.

(** X9. With the links resolved, select a node whose id is not empty:
    the fancy render and the highlighting complete, and the node
    elements the highlighting marks as connected are exactly those
    bearing the id of a node that [getNeighbors] returns for the
    selected node (the nodes a drag releases and a release sends
    home). *)
Theorem getNeighbors_matches_highlight
    (doc : Document) (L : ParsedLayout) (ls : list Link) (d : nat) :
  simLinks L = Ok ls ->
  idAt (simNodes L) d <> [] ->
  exists rs out,
    renderNodes true doc L = Ok rs /\
    highlight true (Some (idAt (simNodes L) d)) (Some L) rs = Ok out /\
    map r_el out = map r_el rs /\
    forall r, In r out ->
      (cls_connected (r_style r) = true
       <-> exists j, In j (getNeighbors (simNodes L) ls d) /\
                     idAt (simNodes L) j = idOr true (r_el r)).
Proof.
  intros Hls Hne.
  exists (nodeElements true doc L). eexists.
  split; [exact (renderNodes_fancy doc L ls Hls) |]. split.
  - apply highlight_pure; [exact Hne | apply nodeElements_matches |].
    intros r Hin. apply (nodeElements_elemId true doc L r); [discriminate | exact Hin].
  - split; [rewrite map_map; reflexivity |].
    intros r Hin. apply in_map_iff in Hin as (r0 & <- & _).
    cbn [r_el r_style].
    rewrite (getNeighbors_ids L ls d _ Hls), <- connectedNodes_spec.
    destruct (bool_decide_reflect
                (idOr true (r_el r0)
                   ∈ connectedNodes (idAt (simNodes L) d) (edges L)))
      as [Hc|Hc].
    + cbn. split; auto.
    + destruct (bool_decide (idOr true (r_el r0) = idAt (simNodes L) d));
        cbn; split; intros H; try discriminate; contradiction.
Qed.

Lemma getNeighbors_matches_highlight_witness :
  exists rs out,
    renderNodes true Samples.twoNodes (parseLayout Samples.twoNodes) = Ok rs /\
    highlight true (Some (str "A")) (Some (parseLayout Samples.twoNodes)) rs
    = Ok out /\
    map (fun r => cls_connected (r_style r)) out = [false; true].
Proof.
  destruct (getNeighbors_matches_highlight Samples.twoNodes
              (parseLayout Samples.twoNodes) _ 0%nat eq_refl)
    as (rs & out & Hr & Hout & _).
  - discriminate.
  - exists rs, out. split; [exact Hr |]. split; [exact Hout |].
    vm_compute in Hr. injection Hr as <-.
    vm_compute in Hout. injection Hout as <-. reflexivity.
Defined.

End LinkProps.

(** ** Fancy mode: the drag protocol *)

Section GestureProps.

Import Fancy Simulation.
Import PrimFloat.

Lemma nodeIds_alter (f : SimNode -> SimNode) ns : forall j,
  (forall n, sn_node (f n) = sn_node n) ->
  nodeIds (alter f j ns) = nodeIds ns.
Proof.
  unfold nodeIds. induction ns as [|n ns IH]; intros j Hf; [reflexivity |].
  destruct j as [|j]; cbn.
  - rewrite Hf. reflexivity.
  - f_equal. apply IH. exact Hf.
Qed.

Lemma nodeIds_foldr_alter (f : SimNode -> SimNode) (js : list nat) :
  forall ns : list SimNode,
  (forall n, sn_node (f n) = sn_node n) ->
  nodeIds (foldr (fun j acc => alter f j acc) ns js) = nodeIds ns.
Proof.
  induction js as [|j js IH]; intros ns Hf; [reflexivity |].
  cbn [foldr]. rewrite nodeIds_alter by exact Hf. apply IH. exact Hf.
Qed.

Lemma nodeIds_map (f : SimNode -> SimNode) ns :
  (forall n, sn_node (f n) = sn_node n) -> nodeIds (map f ns) = nodeIds ns.
Proof.
  intros Hf. unfold nodeIds. rewrite map_map. apply map_ext.
  intros n. rewrite Hf. reflexivity.
Qed.

Lemma nodeIds_imap (f : nat -> SimNode -> SimNode) ns :
  (forall j n, sn_node (f j n) = sn_node n) -> nodeIds (imap f ns) = nodeIds ns.
Proof.
  unfold nodeIds. revert f.
  induction ns as [|n ns IH]; intros f Hf; [reflexivity |].
  cbn. rewrite Hf. f_equal. apply IH. intros j n'. apply Hf.
Qed.

Lemma idAt_nodeIds ns j : idAt ns j = default [] (nodeIds ns !! j).
Proof.
  unfold idAt, nodeIds. change (map ?f ns) with (f <$> ns).
  rewrite list_lookup_fmap. destruct (ns !! j); reflexivity.
Qed.

Lemma idAt_ext ns ns' : nodeIds ns = nodeIds ns' -> forall j, idAt ns j = idAt ns' j.
Proof. intros H j. rewrite !idAt_nodeIds, H. reflexivity. Qed.

Lemma getNeighbors_ext ns ns' ls d :
  nodeIds ns = nodeIds ns' -> getNeighbors ns ls d = getNeighbors ns' ls d.
Proof.
  intros H. unfold getNeighbors.
  induction ls as [|l ls IH]; [reflexivity |].
  cbn [flat_map]. rewrite IH, !(idAt_ext ns ns' H). reflexivity.
Qed.

Lemma affectedIds_ext ns ns' ls d :
  nodeIds ns = nodeIds ns' -> affectedIds ns ls d = affectedIds ns' ls d.
Proof.
  intros H. unfold affectedIds. rewrite (getNeighbors_ext ns ns' ls d H).
  f_equal. apply map_ext. intros j. apply idAt_ext. exact H.
Qed.

Lemma in_affectedIds ns ls d j :
  In j (d :: getNeighbors ns ls d) -> idAt ns j ∈ affectedIds ns ls d.
Proof.
  intros Hj. unfold affectedIds. apply elem_of_list_to_set.
  apply list_elem_of_In. apply in_map. exact Hj.
Qed.

Lemma in_elementsOf ns ids j n :
  ns !! j = Some n -> idAt ns j ∈ ids -> In j (elementsOf ns ids).
Proof.
  intros Hj Hid. unfold elementsOf. apply List.filter_In. split.
  - apply in_seq. apply lookup_lt_Some in Hj. lia.
  - apply bool_decide_eq_true. exact Hid.
Qed.

Lemma elementsOf_ids ns ids j : In j (elementsOf ns ids) -> idAt ns j ∈ ids.
Proof.
  unfold elementsOf. intros H. apply List.filter_In in H as [_ H].
  apply bool_decide_eq_true in H. exact H.
Qed.

Lemma foldr_alter_other (f : SimNode -> SimNode) (js : list nat) :
  forall (ns : list SimNode) (j : nat),
  ~ In j js -> foldr (fun j acc => alter f j acc) ns js !! j = ns !! j.
Proof.
  induction js as [|k js IH]; intros ns j Hj; [reflexivity |].
  cbn [foldr]. rewrite list_lookup_alter_ne by (intros ->; apply Hj; left; reflexivity).
  apply IH. intros H. apply Hj. right. exact H.
Qed.

Lemma foldr_delete_other (js : list nat) (ts : gmap nat Tween) j :
  ~ In j js -> foldr (fun j ts => delete j ts) ts js !! j = ts !! j.
Proof.
  induction js as [|k js IH]; intros Hj; [reflexivity |].
  cbn [foldr]. rewrite lookup_delete_ne by (intros ->; apply Hj; left; reflexivity).
  apply IH. intros H. apply Hj. right. exact H.
Qed.

Lemma foldr_insert_is_Some (tw : Tween) (js : list nat) (ts : gmap nat Tween) j :
  is_Some (foldr (fun j ts => <[j := tw]> ts) ts js !! j)
  <-> In j js \/ is_Some (ts !! j).
Proof.
  induction js as [|k js IH]; cbn [foldr In]; [intuition |].
  rewrite lookup_insert_is_Some, IH.
  destruct (decide (k = j)); intuition.
Qed.

Lemma held_transport st st' j :
  nodeIds (nodes st') = nodeIds (nodes st) ->
  links st' = links st ->
  dragEnabled st' = dragEnabled st ->
  gestures st' = gestures st ->
  heldByGesture st j -> heldByGesture st' j.
Proof.
  intros Hids Hl He Hg (Hen & p & s & Hsub & Hin).
  split; [congruence |]. exists p, s. split; [congruence |].
  rewrite Hl, (affectedIds_ext _ _ _ _ Hids), (idAt_ext _ _ Hids). exact Hin.
Qed.

Lemma setPin_node fx fy n : sn_node (setPin fx fy n) = sn_node n.
Proof. reflexivity. Qed.

(** With one gesture in progress, the pointer that has a subject is the
    pointer of that gesture. *)
Lemma subjectOf_single p q d s :
  subjectOf p [(q, s)] = Some d -> q = p /\ s = d.
Proof.
  cbn [subjectOf]. destruct (decide (q = p)) as [->|Hne]; [|discriminate].
  intros [= <-]. auto.
Qed.

Lemma release_single p d : release p [(p, d)] = [].
Proof.
  unfold release. cbn [List.filter fst].
  rewrite bool_decide_eq_true_2 by reflexivity. reflexivity.
Qed.

Lemma anchored_mounted (L : Parser.ParsedLayout) ls :
  anchored (mounted (simNodes L) ls false).
Proof.
  split; [left; reflexivity |]. split.
  - intros t d H. cbn in H. rewrite lookup_empty in H. discriminate.
  - intros _ j n Hn. left. unfold mounted in Hn. cbn [nodes] in Hn.
    unfold simNodes in Hn. change (map ?f ?l) with (f <$> l) in Hn.
    rewrite list_lookup_fmap in Hn.
    destruct (Parser.nodes L !! j) as [g|]; [|discriminate].
    injection Hn as <-. split; reflexivity.
Qed.

(** A press while no gesture is in progress. *)
Lemma anchored_withMouse moving withheld st :
  anchored st -> anchored (withMouse moving withheld st).
Proof.
  intros (H1 & H2 & H3). split; [exact H1 |]. split; [exact H2 |].
  sim_cbn. intros Hfm j n Hn.
  destruct (H3 Hfm j n Hn) as [H | [H | H]]; [auto | auto |].
  right. right. revert H. apply held_transport; reflexivity.
Qed.

Lemma anchored_press p d st :
  gestures st = [] -> anchored st ->
  anchored (withGestures ((p, d) :: gestures st) (dragstarted d st)).
Proof.
  intros Hg (_ & H2 & H3).
  assert (Hnone : forall t, timers st !! t = None).
  { intros t. destruct (timers st !! t) as [d'|] eqn:Ht; [|reflexivity].
    destruct (H2 t d' Ht) as (_ & _ & q & Hq). congruence. }
  unfold dragstarted. rewrite Hg. split; [right; eauto |]. split.
  - sim_cbn. intros t d' Ht.
    destruct (decide (nextTimer st = t)) as [<-|Hne].
    + rewrite lookup_insert_eq in Ht. injection Ht as <-. eauto.
    + rewrite lookup_insert_ne, Hnone in Ht by exact Hne. discriminate.
  - sim_cbn. intros Hfm j n Hn.
    destruct (H3 Hfm j n Hn) as [H | [H | (_ & q & s & Hs & _)]];
      [auto | auto | congruence].
Qed.

Lemma anchored_timerFired t st : anchored st -> anchored (timerFired t st).
Proof.
  intros Hinv. unfold timerFired.
  destruct (timers st !! t) as [d|] eqn:Ht; [|exact Hinv].
  destruct Hinv as (H1 & H2 & H3).
  destruct (H2 t d Ht) as (Hlast & Hen & p & Hg).
  set (ns := nodes st).
  set (ns1 := alter (fun n => setPin (Some (sn_x n)) (Some (sn_y n)) n) d ns).
  set (nb := getNeighbors ns (links st) d).
  set (ns2 := foldr (fun j acc => alter (setPin None None) j acc) ns1 nb).
  assert (Hids : nodeIds ns2 = nodeIds ns).
  { unfold ns2. rewrite nodeIds_foldr_alter by reflexivity.
    unfold ns1. apply nodeIds_alter. reflexivity. }
  split; [exact H1 |]. split.
  - sim_cbn. intros t' d' Ht'.
    destruct (decide (t = t')) as [<-|Hne].
    + rewrite lookup_delete_eq in Ht'. discriminate.
    + rewrite lookup_delete_ne in Ht' by exact Hne.
      destruct (H2 t' d' Ht') as (Hlast' & _). congruence.
  - sim_cbn. intros Hfm j n Hn.
    destruct (decide (idAt ns j ∈ affectedIds ns (links st) d)) as [Hin|Hout].
    + right. right. split; [reflexivity |]. exists p, d.
      sim_cbn. split; [exact Hg |].
      fold ns. fold ns1. fold nb. fold ns2.
      rewrite (affectedIds_ext _ _ _ _ Hids), (idAt_ext _ _ Hids). exact Hin.
    + assert (Hnot : ~ In j (d :: nb)).
      { intros Hj. apply Hout. apply in_affectedIds. exact Hj. }
      assert (Hsame : ns2 !! j = ns !! j).
      { unfold ns2.
        rewrite foldr_alter_other by (intros Hj; apply Hnot; right; exact Hj).
        unfold ns1. apply list_lookup_alter_ne. intros ->. apply Hnot.
        left. reflexivity. }
      fold ns in Hn. fold ns1 in Hn. fold nb in Hn. fold ns2 in Hn.
      rewrite Hsame in Hn.
      destruct (H3 Hfm j n Hn) as [H | [H | (Hen' & _)]]; [auto | | congruence].
      right. left. rewrite foldr_delete_other; [exact H |].
      intros Hj. apply Hout. exact (elementsOf_ids _ _ _ Hj).
Qed.

(** A move of the pointer of the gesture in progress. *)
Lemma anchored_move p d ex ey st :
  subjectOf p (gestures st) = Some d -> anchored st ->
  anchored (dragged d ex ey st).
Proof.
  intros Hsub Hinv. unfold dragged.
  destruct (dragEnabled st) eqn:Hen; [|exact Hinv].
  destruct Hinv as (H1 & H2 & H3).
  assert (Hg : gestures st = [(p, d)]).
  { destruct H1 as [H1 | (q & s & H1)]; rewrite H1 in Hsub; [discriminate |].
    apply subjectOf_single in Hsub as [-> ->]. exact H1. }
  assert (Hids : nodeIds (alter (setPin (Some ex) (Some ey)) d (nodes st))
                 = nodeIds (nodes st)) by (apply nodeIds_alter; reflexivity).
  split; [exact H1 |]. split.
  - sim_cbn. intros t d' Ht. destruct (H2 t d' Ht) as (_ & Hf & _). congruence.
  - sim_cbn. intros Hfm j n Hn.
    destruct (decide (j = d)) as [->|Hne].
    + right. right. split; [reflexivity |]. exists p, d. sim_cbn.
      split; [exact Hg |].
      rewrite (affectedIds_ext _ _ _ _ Hids), (idAt_ext _ _ Hids).
      apply in_affectedIds. left. reflexivity.
    + rewrite list_lookup_alter_ne in Hn by congruence.
      destruct (H3 Hfm j n Hn) as [H | [H | H]]; [auto | auto |].
      right. right. revert H. apply held_transport; try reflexivity.
      * exact Hids.
      * sim_cbn. congruence.
Qed.

Lemma clearTimer_fields st :
  nodes (clearTimer st) = nodes st /\
  links (clearTimer st) = links st /\
  dragEnabled (clearTimer st) = dragEnabled st /\
  gestures (clearTimer st) = gestures st /\
  transitions (clearTimer st) = transitions st /\
  isFreeMove (clearTimer st) = isFreeMove st /\
  isDragging (clearTimer st) = isDragging st /\
  mousemoving (clearTimer st) = mousemoving st /\
  noclick (clearTimer st) = noclick st.
Proof. unfold clearTimer. destruct (dragTimer st); repeat split. Qed.

(** After [clearTimeout(dragTimer)] no timer is pending, when a pending
    timer can only be the last one set. *)
Lemma clearTimer_none st t :
  (forall t d, timers st !! t = Some d -> dragTimer st = Some t) ->
  timers (clearTimer st) !! t = None.
Proof.
  intros H. unfold clearTimer.
  destruct (dragTimer st) as [t0|] eqn:Hlast.
  - cbn. destruct (decide (t0 = t)) as [->|Hne].
    + apply lookup_delete_eq.
    + rewrite lookup_delete_ne by exact Hne.
      destruct (timers st !! t) as [d|] eqn:Ht; [|reflexivity].
      specialize (H t d Ht). congruence.
  - destruct (timers st !! t) as [d|] eqn:Ht; [|reflexivity].
    specialize (H t d Ht). congruence.
Qed.

(** The release of the pointer of the gesture in progress. *)
Lemma anchored_release p d st :
  subjectOf p (gestures st) = Some d -> anchored st ->
  anchored (withGestures (release p (gestures st)) (dragended d st)).
Proof.
  intros Hsub (H1 & H2 & H3).
  assert (Hg : gestures st = [(p, d)]).
  { destruct H1 as [H1 | (q & s & H1)]; rewrite H1 in Hsub; [discriminate |].
    apply subjectOf_single in Hsub as [-> ->]. exact H1. }
  assert (Hnone : forall t, timers (clearTimer st) !! t = None).
  { intros t. apply clearTimer_none. intros t' d' Ht'.
    destruct (H2 t' d' Ht') as (Hl & _). exact Hl. }
  destruct (clearTimer_fields st)
    as (Cn & Cl & Ce & Cg & Ct & Cf & _).
  rewrite Hg, release_single.
  unfold dragended.
  destruct (dragEnabled st) eqn:Hen; cbn [negb].
  - destruct (isFreeMove st) eqn:Hfm.
    + split; [left; reflexivity |]. split.
      * sim_cbn. intros t d' Ht. rewrite Hnone in Ht. discriminate.
      * sim_cbn. rewrite Cf. intros [=].
    + split; [left; reflexivity |]. split.
      * sim_cbn. intros t d' Ht. rewrite Hnone in Ht. discriminate.
      * sim_cbn. rewrite Cn. intros _ j n Hn.
        destruct (H3 eq_refl j n Hn) as [H | [H | (_ & q & s & Hs & Hin)]];
          [auto | |].
        -- right. left. apply foldr_insert_is_Some. right. exact H.
        -- right. left. apply foldr_insert_is_Some. left.
           apply (in_elementsOf _ _ _ n Hn).
           rewrite Hg in Hs. injection Hs as _ <-. exact Hin.
  - split; [left; reflexivity |]. split.
    + sim_cbn. intros t d' Ht. rewrite Hnone in Ht. discriminate.
    + sim_cbn. rewrite Cn, Ct, Cf. intros Hfm j n Hn.
      destruct (H3 Hfm j n Hn) as [H | [H | (Hen' & _)]];
        [auto | auto | congruence].
Qed.

Lemma anchored_alter_in_transition (f : SimNode -> SimNode) j st :
  (forall n, sn_node (f n) = sn_node n) ->
  is_Some (transitions st !! j) ->
  anchored st -> anchored (withNodes (alter f j (nodes st)) st).
Proof.
  intros Hf Htr (H1 & H2 & H3).
  assert (Hids : nodeIds (alter f j (nodes st)) = nodeIds (nodes st))
    by (apply nodeIds_alter; exact Hf).
  split; [exact H1 |]. split; [exact H2 |].
  sim_cbn. intros Hfm i n Hn.
  destruct (decide (i = j)) as [->|Hne]; [auto |].
  rewrite list_lookup_alter_ne in Hn by congruence.
  destruct (H3 Hfm i n Hn) as [H | [H | H]]; [auto | auto |].
  right. right. revert H. apply held_transport; try reflexivity. exact Hids.
Qed.

Lemma anchored_frame j cx cy st : anchored st -> anchored (frame j cx cy st).
Proof.
  intros Hinv. unfold frame.
  destruct (transitions st !! j) as [[|]|] eqn:Htr; [| |exact Hinv];
    apply anchored_alter_in_transition; try exact Hinv;
    try reflexivity; rewrite Htr; eauto.
Qed.

Lemma anchored_transitionEnd j st : anchored st -> anchored (transitionEnd j st).
Proof.
  intros (H1 & H2 & H3). unfold transitionEnd.
  destruct (transitions st !! j) as [tw|] eqn:Htr; [|split; [|split]; assumption].
  set (f := fun n => setPin (Some (sn_originX n)) (Some (sn_originY n)) n).
  assert (Hids : nodeIds (alter f j (nodes st)) = nodeIds (nodes st))
    by (apply nodeIds_alter; reflexivity).
  split; [exact H1 |]. split; [exact H2 |].
  sim_cbn. intros Hfm i n Hn.
  destruct (decide (i = j)) as [->|Hne].
  - left. fold f in Hn. rewrite list_lookup_alter_eq in Hn.
    revert Hn. destruct (nodes st !! j) as [n0|]; cbn; [|discriminate].
    intros [= <-]. split; reflexivity.
  - fold f in Hn. rewrite list_lookup_alter_ne in Hn by congruence.
    destruct (H3 Hfm i n Hn) as [H | [H | H]]; [auto | |].
    + right. left. rewrite lookup_delete_ne by congruence. exact H.
    + right. right. revert H. apply held_transport; try reflexivity. exact Hids.
Qed.

Lemma anchored_setFreeMove b st : anchored st -> anchored (setFreeMove b st).
Proof.
  intros (H1 & H2 & H3). unfold setFreeMove. destruct b.
  - split; [exact H1 |]. split; [exact H2 |]. cbn. intros [=].
  - split; [exact H1 |]. split; [exact H2 |].
    sim_cbn. intros _ j n Hn.
    right. left. apply foldr_insert_is_Some. left.
    apply in_seq. apply lookup_lt_Some in Hn. lia.
Qed.

Lemma anchored_tick forces st : anchored st -> anchored (tick forces st).
Proof.
  intros (H1 & H2 & H3). unfold tick.
  set (f := fun (j : nat) n =>
              setPosition
                (match sn_fx n with Some v => v | None => fst (forces j) end)
                (match sn_fy n with Some v => v | None => snd (forces j) end) n).
  assert (Hids : nodeIds (imap f (nodes st)) = nodeIds (nodes st))
    by (apply nodeIds_imap; reflexivity).
  split; [exact H1 |]. split; [exact H2 |].
  sim_cbn. intros Hfm j n Hn. fold f in Hn.
  rewrite list_lookup_imap in Hn.
  revert Hn. destruct (nodes st !! j) as [n0|] eqn:Hn0; cbn; [|discriminate].
  intros [= <-].
  destruct (H3 Hfm j n0 Hn0) as [H | [H | H]]; [left; exact H | auto |].
  right. right. revert H. apply held_transport; try reflexivity. exact Hids.
Qed.

Lemma anchored_deliver st ev :
  (forall p d, ev = PointerDown p d -> gestures st = []) ->
  anchored st -> anchored (deliver st ev).
Proof.
  intros Hseq Hinv. destruct ev; cbn [deliver].
  - destruct (subjectOf p (gestures st)) eqn:Hs; [exact Hinv |].
    destruct (decide _); [|exact Hinv].
    apply anchored_withMouse.
    apply anchored_press; [exact (Hseq p d eq_refl) | exact Hinv].
  - apply anchored_timerFired. exact Hinv.
  - destruct (subjectOf p (gestures st)) as [d|] eqn:Hs; [|exact Hinv].
    apply anchored_withMouse. exact (anchored_move p d ex ey st Hs Hinv).
  - destruct (subjectOf p (gestures st)) as [d|] eqn:Hs; [|exact Hinv].
    apply anchored_withMouse. exact (anchored_release p d st Hs Hinv).
  - apply anchored_frame. exact Hinv.
  - apply anchored_transitionEnd. exact Hinv.
  - apply anchored_setFreeMove. exact Hinv.
  - apply anchored_tick. exact Hinv.
Qed.

Lemma anchored_run evs : forall st,
  sequential evs st = true -> anchored st -> anchored (run evs st).
Proof.
  induction evs as [|ev evs IH]; intros st Hseq H; [exact H |].
  cbn [run fold_left]. cbn [sequential] in Hseq.
  apply IH.
  - destruct ev, (gestures st); try exact Hseq; discriminate.
  - apply anchored_deliver; [|exact H].
    intros p d ->. destruct (gestures st); [reflexivity | discriminate].
Qed.

(** X10. In fancy mode, let presses, arm-timer firings, pointer moves,
    releases, animation frames and ends, free-move switches and
    simulation ticks arrive in any order, as long as the pointers come
    one at a time (no press while a gesture is in progress).  Then
    whenever free move is off, no gesture is in progress and no return
    animation is running, every node is pinned at its origin, and the
    next tick of the simulation puts every node exactly there. *)
Theorem drag_settles_at_origin
    (L : Parser.ParsedLayout) (ls : list Link) (evs : list Event) :
  let st := run evs (mounted (simNodes L) ls false) in
  sequential evs (mounted (simNodes L) ls false) = true ->
  isFreeMove st = false ->
  gestures st = [] ->
  transitions st = ∅ ->
  Forall pinnedAtOrigin (nodes st) /\
  forall forces, Forall atOrigin (nodes (tick forces st)).
Proof.
  intros st Hseq Hfm Hsub Htr.
  destruct (anchored_run evs _ Hseq (anchored_mounted L ls)) as (_ & _ & H3).
  fold st in H3.
  assert (Hp : forall j n, nodes st !! j = Some n -> pinnedAtOrigin n).
  { intros j n Hn.
    destruct (H3 Hfm j n Hn) as [H | [[tw H] | (_ & p & s & Hs & _)]];
      [exact H | |].
    - rewrite Htr, lookup_empty in H. discriminate.
    - congruence. }
  split.
  - apply List.Forall_forall. intros n Hn.
    apply list_elem_of_In, list_elem_of_lookup in Hn as [j Hj]. exact (Hp j n Hj).
  - intros forces. apply List.Forall_forall. intros n Hn.
    apply list_elem_of_In, list_elem_of_lookup in Hn as [j Hj].
    unfold tick in Hj. cbn [withNodes nodes] in Hj.
    rewrite list_lookup_imap in Hj.
    revert Hj. destruct (nodes st !! j) as [n0|] eqn:Hn0; cbn; [|discriminate].
    intros [= <-]. destruct (Hp j n0 Hn0) as [Hx Hy].
    split; cbn; [rewrite Hx | rewrite Hy]; reflexivity.
Qed.

Lemma drag_settles_at_origin_witness :
  Forall pinnedAtOrigin
    (nodes (run [PointerDown Mouse 0; ArmTimer 0;
                 PointerMove Mouse true 5%float 6%float;
                 PointerUp Mouse; TransitionEnd 1; TransitionEnd 0]
              (mounted (simNodes (Parser.parseLayout Samples.twoNodes))
                       (linksOf (Parser.parseLayout Samples.twoNodes))
                       false))).
Proof.
  apply (drag_settles_at_origin
           (Parser.parseLayout Samples.twoNodes)
           (linksOf (Parser.parseLayout Samples.twoNodes))
           [PointerDown Mouse 0; ArmTimer 0;
            PointerMove Mouse true 5%float 6%float;
            PointerUp Mouse; TransitionEnd 1; TransitionEnd 0]);
    vm_compute; reflexivity.
Defined.

Lemma foldr_unpin_in (js : list nat) : forall (ns : list SimNode) (j : nat),
  In j js -> (j < length ns)%nat ->
  exists n, foldr (fun j acc => alter (setPin None None) j acc) ns js !! j
            = Some n /\ sn_fx n = None /\ sn_fy n = None.
Proof.
  induction js as [|k js IH]; intros ns j Hj Hlen; [destruct Hj |].
  cbn [foldr].
  set (acc := foldr (fun j acc => alter (setPin None None) j acc) ns js).
  assert (Hacc : length acc = length ns).
  { unfold acc. clear. induction js as [|i js IH]; [reflexivity |].
    cbn [foldr]. rewrite length_alter. exact IH. }
  destruct (decide (k = j)) as [->|Hne].
  - rewrite list_lookup_alter_eq.
    destruct (lookup_lt_is_Some_2 acc j ltac:(lia)) as [n Hn].
    rewrite Hn. cbn. eexists. split; [reflexivity |]. split; reflexivity.
  - rewrite list_lookup_alter_ne by exact Hne.
    destruct Hj as [Hj | Hj]; [contradiction |].
    exact (IH ns j Hj Hlen).
Qed.

(** X15. Two touches that overlap leave a node free.  In fancy mode,
    with free move off, let a touch go down on a node [a], its arm timer
    fire, a second touch go down on a neighbour [b] of [a], and both
    touches lift: the second press resets the flags the first gesture
    was armed by and its own timer is cleared by the first release, so
    neither release starts a return animation.  No gesture is in
    progress, no animation is running and no timer is pending, and [b]
    is left without pin. *)
Theorem overlapping_touches_leave_neighbour_free
    (L : Parser.ParsedLayout) (ls : list Link) (a b : nat) (p q : Pointer) :
  p <> q ->
  (a < length (simNodes L))%nat ->
  (b < length (simNodes L))%nat ->
  In b (getNeighbors (simNodes L) ls a) ->
  let st := run [PointerDown p a; ArmTimer 0; PointerDown q b;
                 PointerUp p; PointerUp q]
                (mounted (simNodes L) ls false) in
  isFreeMove st = false /\
  gestures st = [] /\
  transitions st = ∅ /\
  timers st = ∅ /\
  exists n, nodes st !! b = Some n /\ sn_fx n = None /\ sn_fy n = None /\
            ~ pinnedAtOrigin n.
Proof.
  intros Hpq Ha Hb Hnb st.
  set (ns := simNodes L) in *.
  set (ns1 := alter (fun n => setPin (Some (sn_x n)) (Some (sn_y n)) n) a ns).
  set (ns2 := foldr (fun j acc => alter (setPin None None) j acc) ns1
                    (getNeighbors ns ls a)).
  assert (Hlen1 : length ns1 = length ns) by apply length_alter.
  destruct (foldr_unpin_in (getNeighbors ns ls a) ns1 b Hnb ltac:(lia))
    as (n & Hn & Hfx & Hfy).
  fold ns2 in Hn.
  assert (Hlen2 : length ns2 = length ns).
  { apply lookup_lt_Some in Hn.
    unfold ns2. clear Hn. generalize (getNeighbors ns ls a) as js.
    induction js as [|i js IH]; [exact Hlen1 |].
    cbn [foldr]. rewrite length_alter. exact IH. }
  set (T := foldr (fun j ts => delete j ts) (∅ : gmap nat Tween)
                  (elementsOf ns (affectedIds ns ls a))).
  set (R1 := {| nodes := ns; links := ls; isDragging := false;
                dragEnabled := false; dragTimer := Some 0%nat;
                timers := <[0%nat := a]> ∅; nextTimer := 1;
                gestures := [(p, a)]; mousemoving := false; noclick := false;
                transitions := ∅; isFreeMove := false |}).
  set (R2 := {| nodes := ns2; links := ls; isDragging := false;
                dragEnabled := true; dragTimer := Some 0%nat;
                timers := ∅; nextTimer := 1;
                gestures := [(p, a)]; mousemoving := false; noclick := false;
                transitions := T; isFreeMove := false |}).
  set (R3 := {| nodes := ns2; links := ls; isDragging := false;
                dragEnabled := false; dragTimer := Some 1%nat;
                timers := <[1%nat := b]> ∅; nextTimer := 2;
                gestures := [(q, b); (p, a)];
                mousemoving := false; noclick := false;
                transitions := T; isFreeMove := false |}).
  set (R4 := {| nodes := ns2; links := ls; isDragging := false;
                dragEnabled := false; dragTimer := Some 1%nat;
                timers := ∅; nextTimer := 2;
                gestures := [(q, b)];
                mousemoving := false; noclick := false;
                transitions := T; isFreeMove := false |}).
  set (R5 := {| nodes := ns2; links := ls; isDragging := false;
                dragEnabled := false; dragTimer := Some 1%nat;
                timers := ∅; nextTimer := 2;
                gestures := [];
                mousemoving := false; noclick := false;
                transitions := T; isFreeMove := false |}).
  assert (E1 : deliver (mounted ns ls false) (PointerDown p a) = R1).
  { cbn [deliver mounted gestures subjectOf nodes].
    rewrite decide_True by exact Ha.
    destruct (isMouse p); reflexivity. }
  assert (E2 : deliver R1 (ArmTimer 0) = R2).
  { cbn [deliver]. unfold timerFired. cbn [timers R1].
    rewrite lookup_insert_eq. unfold R2, withTimers, withFlags,
      withTransitions, withNodes. cbn [nodes links isDragging dragEnabled
      dragTimer timers nextTimer gestures mousemoving noclick transitions
      isFreeMove R1].
    fold ns1. fold ns2. fold T.
    rewrite delete_insert_eq, delete_empty. reflexivity. }
  assert (E3 : deliver R2 (PointerDown q b) = R3).
  { cbn [deliver gestures R2 subjectOf nodes].
    rewrite decide_False by exact Hpq.
    rewrite decide_True by (rewrite Hlen2; exact Hb).
    destruct (isMouse q); reflexivity. }
  assert (E4 : deliver R3 (PointerUp p) = R4).
  { cbn [deliver gestures R3 subjectOf].
    rewrite decide_False by congruence.
    rewrite decide_True by reflexivity.
    unfold dragended, clearTimer, release.
    cbn [dragEnabled dragTimer R3 negb List.filter fst gestures].
    rewrite bool_decide_eq_false_2 by congruence.
    rewrite bool_decide_eq_true_2 by reflexivity.
    unfold R4, withMouse, withGestures, withTimers. cbn [nodes links
      isDragging dragEnabled dragTimer timers nextTimer gestures mousemoving
      noclick transitions isFreeMove R3 negb].
    rewrite delete_insert_eq, delete_empty.
    destruct (isMouse p); reflexivity. }
  assert (E5 : deliver R4 (PointerUp q) = R5).
  { cbn [deliver gestures R4 subjectOf].
    rewrite decide_True by reflexivity.
    unfold dragended, clearTimer, release.
    cbn [dragEnabled dragTimer R4 negb List.filter fst gestures].
    rewrite bool_decide_eq_true_2 by reflexivity.
    unfold R5, withMouse, withGestures, withTimers. cbn [nodes links
      isDragging dragEnabled dragTimer timers nextTimer gestures mousemoving
      noclick transitions isFreeMove R4 negb].
    rewrite delete_empty.
    destruct (isMouse q); reflexivity. }
  assert (Hst : st = R5).
  { unfold st. cbn [run fold_left]. rewrite E1, E2, E3, E4, E5. reflexivity. }
  rewrite Hst. cbn [isFreeMove gestures transitions timers nodes R5].
  split; [reflexivity |]. split; [reflexivity |]. split.
  - unfold T. generalize (elementsOf ns (affectedIds ns ls a)) as js.
    induction js as [|j js IH]; [reflexivity |].
    cbn [foldr]. rewrite IH. apply delete_empty.
  - split; [reflexivity |]. exists n. split; [exact Hn |].
    split; [exact Hfx |]. split; [exact Hfy |].
    intros [H _]. congruence.
Qed.

Lemma overlapping_touches_leave_neighbour_free_witness :
  exists n,
    nodes (run [PointerDown (Touch 1) 0; ArmTimer 0; PointerDown (Touch 2) 1;
                PointerUp (Touch 1); PointerUp (Touch 2)]
             (mounted (simNodes (Parser.parseLayout Samples.twoNodes))
                      (linksOf (Parser.parseLayout Samples.twoNodes))
                      false)) !! 1%nat = Some n /\
    sn_fx n = None.
Proof.
  destruct (overlapping_touches_leave_neighbour_free
              (Parser.parseLayout Samples.twoNodes)
              (linksOf (Parser.parseLayout Samples.twoNodes))
              0%nat 1%nat (Touch 1) (Touch 2))
    as (_ & _ & _ & _ & n & Hn & Hfx & _).
  - discriminate.
  - vm_compute. lia.
  - vm_compute. lia.
  - left. reflexivity.
  - exists n. split; [exact Hn | exact Hfx].
Defined.





End GestureProps.

(** ** View transform: the focal point *)

Section ViewProps.

Import Zoom.

Local Open Scope Q_scope.

Lemma translateT_fixes (t : Transform) (p q : Q * Q) :
  ~ k t == 0 ->
  fst (invert (translateT t p q) p) == fst q /\
  snd (invert (translateT t p q) p) == snd q.
Proof.
  intros Hk. unfold invert, translateT. cbn [fst snd k x y].
  split; field; exact Hk.
Qed.

Lemma inExtent_nonzero q : inExtent q -> ~ q == 0.
Proof. unfold inExtent. intros [H _] Hz. rewrite Hz in H. lra. Qed.

(** X12. Zooming keeps the focal point in place.  On a mounted viewer
    whose scales are within the extent, [zoomIn] and [zoomOut] that find
    the focal point [c] end on a transform under which the diagram point
    that was under [c] is still under [c]; the saved transform is the
    one shown, and its scale is the old one times the step, clamped. *)
Theorem performZoom_keeps_focal_point
    (direction : Direction) (st : Viewer) (svg : SvgEl) (zb : ZoomBehavior)
    (c : Q * Q) :
  scalesOk st ->
  svgRef st = Some svg ->
  zoomBehaviorRef st = Some zb ->
  focalPoint st svg = Ok c ->
  exists st' svg',
    performZoom direction st = Ok st' /\
    svgRef st' = Some svg' /\
    savedTransform st' = zoomT svg' /\
    k (zoomT svg') == clampScale zb (k (zoomT svg) * scaleFactor direction) /\
    fst (invert (zoomT svg') c) == fst (invert (zoomT svg) c) /\
    snd (invert (zoomT svg') c) == snd (invert (zoomT svg) c).
Proof.
  intros (_ & Hs & Hext) Hsvg Hzb Hc.
  unfold performZoom. rewrite Hsvg, Hzb, Hc. cbn [bind].
  eexists _, _. split; [reflexivity |].
  split; [reflexivity |]. cbn [emitZoom savedTransform zoomT].
  split; [reflexivity |]. split.
  - unfold scaleBy, translateT. cbn [k]. apply scaleT_k.
  - unfold scaleBy. apply translateT_fixes.
    apply inExtent_nonzero. apply scaleT_extent. apply Hext. exact Hzb.
Qed.

Lemma sample_scalesOk sel :
  scalesOk (Samples.viewerOf Samples.twoNodes false sel).
Proof.
  split; [unfold inExtent; cbn; lra |]. split.
  - intros svg [= <-]. unfold inExtent. cbn. lra.
  - intros zb [= <-]. reflexivity.
Qed.

Lemma performZoom_keeps_focal_point_witness :
  exists st' svg',
    performZoom zoom_in
      (Samples.viewerOf Samples.twoNodes false (Some (str "A"))) = Ok st' /\
    svgRef st' = Some svg' /\
    k (zoomT svg') == 1.3.
Proof.
  destruct (performZoom_keeps_focal_point zoom_in
              (Samples.viewerOf Samples.twoNodes false (Some (str "A")))
              _ _ _ (sample_scalesOk _) eq_refl eq_refl eq_refl)
    as (st' & svg' & H1 & H2 & _ & H4 & _).
  exists st', svg'. split; [exact H1 |]. split; [exact H2 |].
  rewrite H4. vm_compute. reflexivity.
Defined.

End ViewProps.

(** ** Selection highlighting: edges *)

Section EdgeHighlightProps.

Import Parser Fancy Selection Neighbors Simulation EdgeHighlight Titles.

Lemma restyleEdges_map fancy p (q : EdgeElem -> bool) f g rs :
  (forall r, In r rs -> matchesEdgeSelector fancy (re_el r) = true) ->
  (forall r, In r rs -> p (re_el r) = Ok (q (re_el r))) ->
  (forall r, g r = if q (re_el r)
                   then {| re_el := re_el r; re_style := f (re_style r) |}
                   else r) ->
  restyleEdges fancy p f rs = Ok (map g rs).
Proof.
  intros Hm Hp Hg.
  induction rs as [|r rs IH]; [reflexivity |].
  cbn [restyleEdges map].
  rewrite IH;
    [| intros r' Hin; apply Hm; right; exact Hin
     | intros r' Hin; apply Hp; right; exact Hin].
  rewrite (Hm r (or_introl eq_refl)), (Hp r (or_introl eq_refl)), Hg.
  reflexivity.
Qed.

(** The three passes over edge elements whose filter raises nowhere:
    each element ends up connected and opaque when the filter keeps it,
    dimmed otherwise. *)
Lemma highlightEdges_pure fancy S ns (q : EdgeElem -> bool) rs :
  S <> [] ->
  (forall r, In r rs -> matchesEdgeSelector fancy (re_el r) = true) ->
  (forall r, In r rs -> edgeHit fancy ns S (re_el r) = Ok (q (re_el r))) ->
  highlightEdges fancy (Some S) ns rs =
  Ok (map (fun r =>
             {| re_el := re_el r;
                re_style :=
                  if q (re_el r)
                  then {| ecls_connected := true; e_opacity := Some 1%Q;
                          e_strokeWidth :=
                            if fancy then Some 3%Q
                            else e_strokeWidth (re_style r) |}
                  else {| ecls_connected := false; e_opacity := Some 0.1%Q;
                          e_strokeWidth := e_strokeWidth (re_style r) |} |})
          rs).
Proof.
  intros HS Hm Hq. unfold highlightEdges.
  assert (Htr : truthy (Some S) = true)
    by (destruct S; [contradiction | reflexivity]).
  rewrite Htr. cbn [orEmpty].
  set (g1 := fun r =>
               {| re_el := re_el r;
                  re_style := {| ecls_connected := false; e_opacity := None;
                                 e_strokeWidth := e_strokeWidth (re_style r) |} |}).
  set (g2 := fun r =>
               {| re_el := re_el r;
                  re_style := {| ecls_connected := ecls_connected (re_style r);
                                 e_opacity := Some 0.1%Q;
                                 e_strokeWidth := e_strokeWidth (re_style r) |} |}).
  set (g3 := fun r =>
               if q (re_el r)
               then {| re_el := re_el r;
                       re_style :=
                         {| ecls_connected := true; e_opacity := Some 1%Q;
                            e_strokeWidth :=
                              if fancy then Some 3%Q
                              else e_strokeWidth (re_style r) |} |}
               else r).
  rewrite (restyleEdges_map fancy _ (fun _ => true) _ g1 rs);
    [| exact Hm | reflexivity | reflexivity].
  cbn [bind].
  assert (H1 : forall r, In r (map g1 rs) ->
                 matchesEdgeSelector fancy (re_el r) = true /\
                 edgeHit fancy ns S (re_el r) = Ok (q (re_el r))).
  { intros r Hin. apply in_map_iff in Hin as (r0 & <- & Hin). cbn [g1 re_el]. auto. }
  rewrite (restyleEdges_map fancy _ (fun _ => true) _ g2 (map g1 rs));
    [| apply H1 | reflexivity | reflexivity].
  cbn [bind].
  assert (H2 : forall r, In r (map g2 (map g1 rs)) ->
                 matchesEdgeSelector fancy (re_el r) = true /\
                 edgeHit fancy ns S (re_el r) = Ok (q (re_el r))).
  { intros r Hin. apply in_map_iff in Hin as (r0 & <- & Hin). cbn [g2 re_el].
    apply H1. exact Hin. }
  rewrite (restyleEdges_map fancy _ q _ g3 (map g2 (map g1 rs)));
    [| apply H2 | apply H2 | reflexivity].
  rewrite !map_map. f_equal. apply map_ext. intros r.
  unfold g3, g2, g1. cbn [re_el re_style].
  destruct (q (re_el r)); reflexivity.
Qed.

Lemma renderEdges_matches fancy doc ls r :
  In r (renderEdges fancy doc ls) -> matchesEdgeSelector fancy (re_el r) = true.
Proof.
  unfold renderEdges. destruct fancy; intros Hin;
    apply in_map_iff in Hin as (? & <- & _); reflexivity.
Qed.

Lemma renderEdges_hit fancy doc ls ns S r :
  (fancy = false -> Forall (fun g => eg_title g <> None) (doc_edges doc)) ->
  In r (renderEdges fancy doc ls) ->
  edgeHit fancy ns S (re_el r) = Ok (hitOr fancy ns S (re_el r)).
Proof.
  unfold renderEdges, hitOr. intros Ht Hin. destruct fancy.
  - apply in_map_iff in Hin as (l & <- & _). reflexivity.
  - apply in_map_iff in Hin as (g & <- & Hg). cbn.
    specialize (Ht eq_refl). rewrite List.Forall_forall in Ht.
    specialize (Ht g Hg). destruct (eg_title g); [reflexivity | contradiction].
Qed.

(** An edge element with two ends, among those rendered, is one edge of
    the parsed graph with the same ends, and the filter keeps it exactly
    when one of the ends is the selected id. *)
Lemma renderEdges_ends fancy doc ls S r a b :
  (fancy = true -> simLinks (parseLayout doc) = Ok ls) ->
  (fancy = false -> Forall (fun g => eg_title g <> None) (doc_edges doc)) ->
  In r (renderEdges fancy doc ls) ->
  edgeEnds (simNodes (parseLayout doc)) (re_el r) = Some (a, b) ->
  (hitOr fancy (simNodes (parseLayout doc)) S (re_el r) = true
   <-> a = S \/ b = S) /\
  exists e, In e (edges (parseLayout doc)) /\ e_source e = a /\ e_target e = b.
Proof.
  unfold renderEdges, hitOr. intros Hls Ht Hin Hends. destruct fancy.
  - apply in_map_iff in Hin as (l & <- & Hl).
    cbn [edgeEnds re_el rendered] in Hends. injection Hends as <- <-.
    cbn [re_el rendered edgeHit].
    split.
    + rewrite orb_true_iff, !bool_decide_eq_true. reflexivity.
    + apply simLinks_ends in Hls as [Hmap Hall]; [|reflexivity].
      exists (l_edge l). split; [rewrite <- Hmap; apply in_map; exact Hl |].
      destruct (Hall l Hl) as [Hs Hd]. split; congruence.
  - apply in_map_iff in Hin as (g & <- & Hg).
    cbn [re_el rendered edgeHit edgeEnds] in *.
    specialize (Ht eq_refl). rewrite List.Forall_forall in Ht.
    specialize (Ht g Hg).
    destruct (eg_title g) as [title|] eqn:Htitle; [|contradiction].
    cbn [orEmpty] in Hends.
    destruct (splitTitle title) as [|a' [|b' [|c' rest]]] eqn:Hsp;
      try discriminate.
    injection Hends as <- <-. split.
    + rewrite bool_decide_eq_true, !elem_of_cons, elem_of_nil. intuition.
    + eexists. split.
      * cbn [edges parseLayout]. apply in_parseEdges. exists g.
        split; [exact Hg |]. unfold parseEdge. rewrite Htitle.
        cbn [orEmpty]. rewrite Hsp. reflexivity.
      * split; reflexivity.
Qed.

(** X14. With a node selected, and every title of the diagram readable
    in static mode or the links resolved in fancy mode, the render
    effect completes and both halves of the highlighting effect run
    through.  An edge element with two ends is marked connected exactly
    when one of its ends is the selected id, and then the node elements
    at both of its ends are at full opacity: no highlighted edge runs
    into a dimmed node. *)
Theorem highlighted_edges_join_highlighted_nodes
    (doc : Document) (fancy : bool) (S : jsstring) (ls : list Link) :
  S <> [] ->
  (fancy = true -> simLinks (parseLayout doc) = Ok ls) ->
  (fancy = false ->
     Forall (fun g => eg_title g <> None) (doc_edges doc) /\
     Forall (fun g => ng_title g <> None) (doc_nodes doc)) ->
  exists rs es ns,
    renderNodes fancy doc (parseLayout doc) = Ok rs /\
    highlightEdges fancy (Some S) (simNodes (parseLayout doc))
      (renderEdges fancy doc ls) = Ok es /\
    highlight fancy (Some S) (Some (parseLayout doc)) rs = Ok ns /\
    forall re a b,
      In re es ->
      edgeEnds (simNodes (parseLayout doc)) (re_el re) = Some (a, b) ->
      (ecls_connected (re_style re) = true <-> a = S \/ b = S) /\
      (ecls_connected (re_style re) = true ->
       forall rn, In rn ns ->
         idOr fancy (r_el rn) = a \/ idOr fancy (r_el rn) = b ->
         opacity (r_style rn) = Some 1%Q).
Proof.
  intros HS Hls Ht.
  assert (Hte : fancy = false ->
                Forall (fun g => eg_title g <> None) (doc_edges doc))
    by (intros H; apply Ht; exact H).
  assert (Htn : fancy = false ->
                Forall (fun g => ng_title g <> None) (doc_nodes doc))
    by (intros H; apply Ht; exact H).
  exists (nodeElements fancy doc (parseLayout doc)).
  eexists. eexists. split; [| split; [| split]].
  - destruct fancy.
    + apply (renderNodes_fancy doc _ ls). apply Hls. reflexivity.
    + apply renderNodes_static. apply Hte. reflexivity.
  - apply (highlightEdges_pure fancy S _
             (hitOr fancy (simNodes (parseLayout doc)) S));
      [exact HS | |].
    + intros r. apply renderEdges_matches.
    + intros r. apply renderEdges_hit. exact Hte.
  - apply (highlight_pure fancy S (parseLayout doc)); [exact HS | |].
    + intros r. apply nodeElements_matches.
    + intros r. apply nodeElements_elemId. exact Htn.
  - intros re a b Hre Hends.
    apply in_map_iff in Hre as (r & <- & Hr). cbn [re_el re_style] in *.
    destruct (renderEdges_ends fancy doc ls S r a b Hls Hte Hr Hends)
      as [Hhit (e & He & Hsrc & Htgt)].
    assert (Hmark :
      ecls_connected
        (if hitOr fancy (simNodes (parseLayout doc)) S (re_el r)
         then {| ecls_connected := true; e_opacity := Some 1%Q;
                 e_strokeWidth :=
                   if fancy then Some 3%Q else e_strokeWidth (re_style r) |}
         else {| ecls_connected := false; e_opacity := Some 0.1%Q;
                 e_strokeWidth := e_strokeWidth (re_style r) |}) = true
      <-> a = S \/ b = S).
    { rewrite <- Hhit.
      destruct (hitOr fancy (simNodes (parseLayout doc)) S (re_el r));
        cbn; intuition congruence. }
    split; [exact Hmark |].
    intros Hc rn Hrn Hid. apply Hmark in Hc.
    apply in_map_iff in Hrn as (r0 & <- & Hr0). cbn [r_el r_style] in *.
    set (id := idOr fancy (r_el r0)) in *.
    destruct (bool_decide (id ∈ connectedNodes S (edges (parseLayout doc))))
      eqn:Hcn; [reflexivity |].
    destruct (bool_decide (id = S)) eqn:Hsel; [reflexivity |].
    exfalso.
    apply bool_decide_eq_false in Hcn. apply bool_decide_eq_false in Hsel.
    apply Hcn. apply connectedNodes_spec. exists e. split; [exact He |].
    destruct Hc as [Ha | Hb], Hid as [Hia | Hib]; subst; try contradiction.
    + left. split; [reflexivity | congruence].
    + right. split; [reflexivity | congruence].
Qed.

Lemma highlighted_edges_join_highlighted_nodes_witness :
  exists rs es ns,
    renderNodes false Samples.twoNodes (parseLayout Samples.twoNodes) = Ok rs /\
    highlightEdges false (Some (str "A")) (simNodes (parseLayout Samples.twoNodes))
      (renderEdges false Samples.twoNodes []) = Ok es /\
    highlight false (Some (str "A")) (Some (parseLayout Samples.twoNodes)) rs
    = Ok ns /\
    map (fun re => ecls_connected (re_style re)) es = [true] /\
    map (fun rn => opacity (r_style rn)) ns = [Some 1%Q; Some 1%Q].
Proof.
  destruct (highlighted_edges_join_highlighted_nodes
              Samples.twoNodes false (str "A") [])
    as (rs & es & ns & Hr & He & Hn & _).
  - discriminate.
  - discriminate.
  - intros _. split; repeat constructor; discriminate.
  - exists rs, es, ns. split; [exact Hr |]. split; [exact He |].
    split; [exact Hn |].
    vm_compute in Hr. injection Hr as <-.
    vm_compute in He. vm_compute in Hn.
    injection He as <-. injection Hn as <-. split; reflexivity.
Defined.

End EdgeHighlightProps.
